(** * The Rocket Pool exporter of the beacon-chain explorer

    A shallow embedding of [exporter/rocketpool.go]: the in-memory caches
    (Go maps from identifier to a pointer to an entity), the refresh against
    the chain read API, the batched upsert persistence and the scheduler
    loop, followed by the properties established about them.

    Conventions of the embedding.
    - A Go method returning [error] is a computation in the monad [M]: it
      threads the state and yields [Ok], [Err e] (a non-nil error) or
      [Panic] (a nil or dangling pointer dereference, which would crash the
      process).  A failing computation keeps the state reached so far, as
      the Go code does when it returns early.
    - A pointer is an index into a typed heap (a list of objects); the maps
      of the exporter hold pointers, so that two keys may share one object.
    - The chain read API and the result of the SQL queries are external;
      they are the fields of [Env], a snapshot for the duration of a cycle.
    - [uint64] and [int64] are [Z] with the wrap-around written out, byte
      slices are [list byte], [time.Time] is the Unix time in seconds,
      [float64] is the 64-bit pattern of the number (the exporter only
      moves such values around, it never computes with them), and a
      [*big.Int] is an [option Z] ([None] for the nil pointer). *)

From Stdlib Require Import ZArith Strings.Ascii Strings.Byte.
From stdpp Require Import base option list gmap strings fin_maps pretty.

Open Scope Z_scope.

(** ** Go values *)

Abbreviation bytes := (list byte).
Abbreviation error := string (only parsing).
Abbreviation ptr := nat (only parsing).

Definition Time := Z.
Definition float64 := Z.

(** The zero [time.Time] is January 1 of year 1, not the Unix epoch. *)
Definition zero_Time : Time := -62135596800.

Definition uint64 (z : Z) : Z := z mod 2 ^ 64.

Definition int64 (z : Z) : Z := (z + 2 ^ 63) mod 2 ^ 64 - 2 ^ 63.

(** [time.Unix(sec, 0)] *)
Definition time_Unix (sec : Z) : Time := sec.

#[global] Instance byte_eq_dec : EqDecision byte := Byte.byte_eq_dec.

(** ** go-ethereum addresses

    [common.Address] is [[20]byte].  [BytesToAddress] keeps the last twenty
    bytes of a longer slice and pads a shorter one with zeros on the left. *)

Abbreviation Address := (list byte) (only parsing).

Definition AddressLength : nat := 20.

Definition BytesToAddress (b : bytes) : Address :=
  let b' := drop (length b - AddressLength) b in
  replicate (AddressLength - length b') x00 ++ b'.

(** [a.Bytes()] *)
Definition Address_Bytes (a : Address) : bytes := a.

(** [fmt.Sprintf("%x", b)] on a byte slice: two lower-case hexadecimal
    digits per byte, no prefix. *)
Definition hex_digit (n : N) : ascii :=
  match n with
  | 0 => "0" | 1 => "1" | 2 => "2" | 3 => "3" | 4 => "4" | 5 => "5"
  | 6 => "6" | 7 => "7" | 8 => "8" | 9 => "9" | 10 => "a" | 11 => "b"
  | 12 => "c" | 13 => "d" | 14 => "e" | _ => "f"
  end%N%char.

Fixpoint Sprintf_x (b : bytes) : string :=
  match b with
  | [] => EmptyString
  | c :: b' =>
      let n := Byte.to_N c in
      String (hex_digit (n / 16)) (String (hex_digit (n mod 16)) (Sprintf_x b'))
  end.

(** ** Results and the state-and-error monad *)

Inductive result (A : Type) : Type :=
  | Ok (a : A)
  | Err (e : error)
  | Panic.
Arguments Ok {A} a.
Arguments Err {A} e.
Arguments Panic {A}.

Definition M (S A : Type) : Type := S → S * result A.

Definition ret {S A} (a : A) : M S A := λ s, (s, Ok a).

Definition bind {S A B} (m : M S A) (k : A → M S B) : M S B :=
  λ s, match m s with
       | (s', Ok a) => k a s'
       | (s', Err e) => (s', Err e)
       | (s', Panic) => (s', Panic)
       end.

(** A call that does not touch the state (a chain read). *)
Definition call {S A} (r : result A) : M S A := λ s, (s, r).

Definition get {S} : M S S := λ s, (s, Ok s).

Definition modify {S} (f : S → S) : M S unit := λ s, (f s, Ok tt).

(** Run a computation on a component of the state. *)
Definition zoom {S T A} (proj : S → T) (upd : T → S → S) (m : M T A) : M S A :=
  λ s, let '(t', r) := m (proj s) in (upd t' s, r).

Declare Scope go_scope.
Delimit Scope go_scope with go.
Notation "x <- m ;; k" := (bind m (λ x, k))
  (at level 100, m at next level, right associativity,
   format "x  <-  m  ;;  '/' k") : go_scope.
Notation "m ;;; k" := (bind m (λ _, k))
  (at level 100, right associativity, format "m  ;;;  '/' k") : go_scope.
Open Scope go_scope.

(** [for _, a := range l { body }] where a non-nil error of the body is
    returned at once. *)
Fixpoint for_range {S A} (body : A → M S unit) (l : list A) : M S unit :=
  match l with
  | [] => ret tt
  | a :: l' => body a ;;; for_range body l'
  end.

(** *** The typed heap *)

Definition deref {T} (p : ptr) : M (list T) T :=
  λ h, (h, match h !! p with Some v => Ok v | None => Panic end).

(** [&T{...}]: a fresh object at the end of the heap. *)
Definition alloc {T} (v : T) : M (list T) ptr :=
  λ h, (h ++ [v], Ok (length h)).

(** Assignment through a pointer. *)
Definition store {T} (p : ptr) (f : T → T) : M (list T) unit :=
  λ h, match h !! p with
       | Some v => (<[p := f v]> h, Ok tt)
       | None => (h, Panic)
       end.

(** *** errgroup

    [errgroup.Group] without a context: every task runs to completion and
    [Wait] returns the first non-nil error in order of completion.  The
    results are listed in order of completion; a panic in any task takes
    the process down. *)
Fixpoint first_error (rs : list (result unit)) : result unit :=
  match rs with
  | [] => Ok tt
  | Ok _ :: rs' => first_error rs'
  | r :: _ => r
  end.

Definition errgroup_Wait (rs : list (result unit)) : result unit :=
  if existsb (λ r, match r with Panic => true | _ => false end) rs
  then Panic else first_error rs.

Definition void {A} (r : result A) : result unit :=
  match r with Ok _ => Ok tt | Err e => Err e | Panic => Panic end.

(** ** rocketpool-go enumerations

    [uint8] values with a table of labels; [String()] of a value outside
    the table is the empty string. *)

Definition label (table : list string) (v : Z) : string :=
  if Z.ltb v 0 then EmptyString else default EmptyString (table !! Z.to_nat v).

Definition MinipoolStatuses : list string :=
  ["Initialized"; "Prelaunch"; "Staking"; "Withdrawable"; "Dissolved"]%string.
Definition MinipoolDepositTypes : list string :=
  ["None"; "Full"; "Half"; "Empty"]%string.
Definition ProposalStates : list string :=
  ["Pending"; "Active"; "Cancelled"; "Defeated"; "Succeeded"; "Expired";
   "Executed"]%string.

Definition MinipoolStatus_String : Z → string := label MinipoolStatuses.
Definition MinipoolDeposit_String : Z → string := label MinipoolDepositTypes.
Definition ProposalState_String : Z → string := label ProposalStates.

(** [dao.ProposalDetails] *)
Record ProposalDetails : Type := {
  pd_ID : Z;
  pd_DAO : string;
  pd_ProposerAddress : Address;
  pd_Message : string;
  pd_CreatedTime : Z;
  pd_StartTime : Z;
  pd_EndTime : Z;
  pd_ExpiryTime : Z;
  pd_VotesRequired : float64;
  pd_VotesFor : float64;
  pd_VotesAgainst : float64;
  pd_MemberVoted : bool;
  pd_MemberSupported : bool;
  pd_IsCancelled : bool;
  pd_IsExecuted : bool;
  pd_Payload : bytes;
  pd_State : Z;
}.

(** ** The cached entities *)

Record RocketpoolMinipool : Type := {
  mp_Address : bytes;
  mp_Pubkey : bytes;
  mp_NodeAddress : bytes;
  mp_NodeFee : float64;
  mp_DepositType : string;
  mp_Status : string;
  mp_StatusTime : Time;
}.

Record RocketpoolNode : Type := {
  node_Address : bytes;
  node_TimezoneLocation : string;
  node_RPLStake : option Z;
  node_MinRPLStake : option Z;
  node_MaxRPLStake : option Z;
}.

Record RocketpoolProposal : Type := {
  prop_ID : Z;
  prop_DAO : string;
  prop_ProposerAddress : bytes;
  prop_Message : string;
  prop_CreatedTime : Time;
  prop_StartTime : Time;
  prop_EndTime : Time;
  prop_ExpiryTime : Time;
  prop_VotesRequired : float64;
  prop_VotesFor : float64;
  prop_VotesAgainst : float64;
  prop_MemberVoted : bool;
  prop_MemberSupported : bool;
  prop_IsCancelled : bool;
  prop_IsExecuted : bool;
  prop_Payload : bytes;
  prop_State : string;
}.

Inductive Kind : Type := Minipools | Nodes | Proposals.

(** ** The environment of a cycle

    What the exporter reads from outside: the chain (through rocketpool-go),
    the rows its [select] queries return, whether the n-th call to the
    database fails, and the order in which concurrent tasks complete. *)
Record Env : Type := {
  (* gethRPC.Dial and rocketpool.NewRocketPool *)
  Dial : result unit;
  NewRocketPool : result unit;
  (* rp.API.RocketStorageContract.Address *)
  RocketStorageContract_Address : Address;
  (* package minipool *)
  GetMinipoolAddresses : result (list Address);
  GetMinipoolPubkey : Address → result bytes;
  NewMinipool : Address → result unit;
  GetNodeAddress : Address → result Address;
  GetNodeFee : Address → result float64;
  GetDepositType : Address → result Z;
  GetStatus : Address → result Z;
  GetStatusTime : Address → result Time;
  (* package node *)
  GetNodeAddresses : result (list Address);
  GetNodeTimezoneLocation : Address → result string;
  GetNodeRPLStake : Address → result Z;
  GetNodeMinimumRPLStake : Address → result Z;
  GetNodeMaximumRPLStake : Address → result Z;
  (* package dao *)
  GetProposalCount : result Z;
  GetProposalDetails : Z → result ProposalDetails;
  (* rp.DB.Select(&dbRes, `select * from ...`) *)
  Select_minipools : result (list RocketpoolMinipool);
  Select_nodes : result (list RocketpoolNode);
  Select_proposals : result (list RocketpoolProposal);
  (* the error, if any, of the database call made after n earlier ones *)
  db_fault : nat → option error;
  (* completion order of the tasks of an errgroup *)
  status_done_first : bool;
  completion_order : list Kind;
}.

(** ** State: caches, heap and database *)

(** One cache: a Go map from identifier to pointer, and the objects the
    pointers refer to. *)
Record Store (K : Type) `{Countable K} (T : Type) : Type := {
  index : gmap K ptr;
  objs : list T;
}.
Arguments index {K _ _ T} s.
Arguments objs {K _ _ T} s.
Arguments Build_Store {K _ _ T} index objs.

Definition on_objs {K} `{Countable K} {T A} (m : M (list T) A) : M (Store K T) A :=
  zoom objs (λ h s, Build_Store (index s) h) m.

(** [p, exists := m[k]] *)
Definition map_lookup {K} `{Countable K} {T} (k : K) : M (Store K T) (option ptr) :=
  λ s, (s, Ok (index s !! k)).

(** [m[k] = p] *)
Definition map_assign {K} `{Countable K} {T} (k : K) (p : ptr) : M (Store K T) unit :=
  modify (λ s, Build_Store (<[k := p]> (index s)) (objs s)).

(** The entity a key of the cache leads to. *)
Definition entity {K} `{Countable K} {T} (s : Store K T) (k : K) : option T :=
  p ← index s !! k; objs s !! p.

(** ** Per-entity refresh and creation *)

Section Entities.
Variable env : Env.

Definition set_minipool_status (status : string) (statusTime : Time)
    (mp : RocketpoolMinipool) : RocketpoolMinipool :=
  {| mp_Address := mp_Address mp; mp_Pubkey := mp_Pubkey mp;
     mp_NodeAddress := mp_NodeAddress mp; mp_NodeFee := mp_NodeFee mp;
     mp_DepositType := mp_DepositType mp;
     mp_Status := status; mp_StatusTime := statusTime |}.

Definition RocketpoolMinipool_Update (this : ptr) : M (list RocketpoolMinipool) unit :=
  self <- deref this ;;
  let a := BytesToAddress (mp_Address self) in
  _ <- call (NewMinipool env a) ;;
  let status := GetStatus env a in
  let statusTime := GetStatusTime env a in
  _ <- call (errgroup_Wait
               (if status_done_first env
                then [void status; void statusTime]
                else [void statusTime; void status])) ;;
  status <- call status ;;
  statusTime <- call statusTime ;;
  store this (set_minipool_status (MinipoolStatus_String status) statusTime).

Definition NewRocketpoolMinipool (addr : bytes) : M (list RocketpoolMinipool) ptr :=
  let a := BytesToAddress addr in
  pubk <- call (GetMinipoolPubkey env a) ;;
  _ <- call (NewMinipool env a) ;;
  nodeAddr <- call (GetNodeAddress env a) ;;
  nodeFee <- call (GetNodeFee env a) ;;
  depositType <- call (GetDepositType env a) ;;
  rpm <- alloc {| mp_Address := addr; mp_Pubkey := pubk;
                  mp_NodeAddress := Address_Bytes nodeAddr;
                  mp_NodeFee := nodeFee;
                  mp_DepositType := MinipoolDeposit_String depositType;
                  mp_Status := EmptyString; mp_StatusTime := zero_Time |} ;;
  RocketpoolMinipool_Update rpm ;;;
  ret rpm.

Definition set_node_stakes (stake minStake maxStake : Z)
    (n : RocketpoolNode) : RocketpoolNode :=
  {| node_Address := node_Address n;
     node_TimezoneLocation := node_TimezoneLocation n;
     node_RPLStake := Some stake; node_MinRPLStake := Some minStake;
     node_MaxRPLStake := Some maxStake |}.

Definition RocketpoolNode_Update (this : ptr) : M (list RocketpoolNode) unit :=
  self <- deref this ;;
  let a := BytesToAddress (node_Address self) in
  stake <- call (GetNodeRPLStake env a) ;;
  minStake <- call (GetNodeMinimumRPLStake env a) ;;
  maxStake <- call (GetNodeMaximumRPLStake env a) ;;
  store this (set_node_stakes stake minStake maxStake).

Definition set_node_timezone (tl : string) (n : RocketpoolNode) : RocketpoolNode :=
  {| node_Address := node_Address n; node_TimezoneLocation := tl;
     node_RPLStake := node_RPLStake n; node_MinRPLStake := node_MinRPLStake n;
     node_MaxRPLStake := node_MaxRPLStake n |}.

Definition NewRocketpoolNode (addr : bytes) : M (list RocketpoolNode) ptr :=
  rpn <- alloc {| node_Address := addr; node_TimezoneLocation := EmptyString;
                  node_RPLStake := None; node_MinRPLStake := None;
                  node_MaxRPLStake := None |} ;;
  tl <- call (GetNodeTimezoneLocation env (BytesToAddress addr)) ;;
  store rpn (set_node_timezone tl) ;;;
  RocketpoolNode_Update rpn ;;;
  ret rpn.

Definition proposal_of_details (pd : ProposalDetails) : RocketpoolProposal :=
  {| prop_ID := pd_ID pd;
     prop_DAO := pd_DAO pd;
     prop_ProposerAddress := Address_Bytes (pd_ProposerAddress pd);
     prop_Message := pd_Message pd;
     prop_CreatedTime := time_Unix (int64 (pd_CreatedTime pd));
     prop_StartTime := time_Unix (int64 (pd_StartTime pd));
     prop_EndTime := time_Unix (int64 (pd_EndTime pd));
     prop_ExpiryTime := time_Unix (int64 (pd_ExpiryTime pd));
     prop_VotesRequired := pd_VotesRequired pd;
     prop_VotesFor := pd_VotesFor pd;
     prop_VotesAgainst := pd_VotesAgainst pd;
     prop_MemberVoted := pd_MemberVoted pd;
     prop_MemberSupported := pd_MemberSupported pd;
     prop_IsCancelled := pd_IsCancelled pd;
     prop_IsExecuted := pd_IsExecuted pd;
     prop_Payload := pd_Payload pd;
     prop_State := ProposalState_String (pd_State pd) |}.

(** Every field of the proposal is assigned from the details read. *)
Definition RocketpoolProposal_Update (this : ptr) : M (list RocketpoolProposal) unit :=
  self <- deref this ;;
  pd <- call (GetProposalDetails env (prop_ID self)) ;;
  store this (λ _, proposal_of_details pd).

Definition zero_proposal (pid : Z) : RocketpoolProposal :=
  {| prop_ID := pid; prop_DAO := EmptyString; prop_ProposerAddress := [];
     prop_Message := EmptyString; prop_CreatedTime := zero_Time;
     prop_StartTime := zero_Time; prop_EndTime := zero_Time;
     prop_ExpiryTime := zero_Time; prop_VotesRequired := 0;
     prop_VotesFor := 0; prop_VotesAgainst := 0; prop_MemberVoted := false;
     prop_MemberSupported := false; prop_IsCancelled := false;
     prop_IsExecuted := false; prop_Payload := [];
     prop_State := EmptyString |}.

Definition NewRocketpoolProposal (pid : Z) : M (list RocketpoolProposal) ptr :=
  p <- alloc (zero_proposal pid) ;;
  RocketpoolProposal_Update p ;;;
  ret p.

End Entities.

(** ** The database

    A table is the list of its rows, a row maps column names to values.
    The only statement the exporter executes is
    [insert into t (columns) values (...),(...) on conflict (key) do update
    set c = excluded.c, ...], with numbered placeholders bound to a flat
    list of arguments.  The rows of a statement are applied in order
    (PostgreSQL refuses a statement that would update one row twice; the
    batches of the exporter carry one row per key). *)

Inductive SqlValue : Type :=
  | VBytes (b : bytes)
  | VText (s : string)
  | VTime (t : Time)
  | VFloat (f : float64)
  | VBool (b : bool)
  | VUint (n : Z).

#[global] Instance SqlValue_eq_dec : EqDecision SqlValue.
Proof. unfold Time, float64. solve_decision. Defined.

Abbreviation Row := (gmap string SqlValue).
Abbreviation Table := (list (gmap string SqlValue)).
Abbreviation Tables := (gmap string (list (gmap string SqlValue))).

Record Upsert : Type := {
  into : string;
  columns : list string;
  on_conflict : list string;
  do_update_set : list string;
}.

Inductive DBCall : Type :=
  | CallBeginx
  | CallExec (table : string) (rows : nat)
  | CallCommit
  | CallRollback.

(** The committed tables, and the calls made so far. *)
Record Database : Type := {
  tables : Tables;
  calls : list DBCall;
}.

Definition conflicts (u : Upsert) (old new : Row) : bool :=
  forallb (λ c, bool_decide (old !! c = new !! c)) (on_conflict u).

(** [set c = excluded.c] for every column of the [do update set] list. *)
Definition update_set (u : Upsert) (old excluded : Row) : Row :=
  foldr (λ c r, partial_alter (λ _, excluded !! c) c r) old (do_update_set u).

Fixpoint upsert_row (u : Upsert) (new : Row) (tbl : Table) : Table :=
  match tbl with
  | [] => [new]
  | old :: rest =>
      if conflicts u old new then update_set u old new :: rest
      else old :: upsert_row u new rest
  end.

(** The row a tuple of placeholders [$p] denotes. *)
Definition row_of (cols : list string) (ps : list nat) (args : list SqlValue) : option Row :=
  vs ← mapM (λ p, match p with O => None | S p' => args !! p' end) ps;
  if decide (length vs = length cols) then Some (list_to_map (zip cols vs)) else None.

Definition exec_upsert (u : Upsert) (values : list (list nat)) (args : list SqlValue)
    (tbls : Tables) : option Tables :=
  rows ← mapM (λ ps, row_of (columns u) ps args) values;
  tbl ← tbls !! into u;
  Some (<[into u := foldl (λ t r, upsert_row u r t) tbl rows]> tbls).

(** [valueStringsArgs[j] = i*nArgs + j + 1] *)
Definition placeholders (nArgs i : nat) : list nat :=
  (λ j, i * nArgs + j + 1)%nat <$> seq 0 nArgs.

Section Transactions.
Variable env : Env.

(** Every call is recorded; whether it fails is the environment's. *)
Definition db_call (c : DBCall) : M Database unit :=
  λ d, ({| tables := tables d; calls := calls d ++ [c] |},
        match db_fault env (length (calls d)) with
        | Some e => Err e
        | None => Ok tt
        end).

(** A transaction works on its own copy of the tables. *)
Definition Beginx : M Database Tables :=
  db_call CallBeginx ;;;
  d <- get ;;
  ret (tables d).

Definition tx_Exec (u : Upsert) (values : list (list nat)) (args : list SqlValue)
    (tx : Tables) : M Database Tables :=
  db_call (CallExec (into u) (length values)) ;;;
  match exec_upsert u values args tx with
  | Some tx' => ret tx'
  | None => call (Err "sql: statement rejected"%string)
  end.

Definition tx_Commit (tx : Tables) : M Database unit :=
  db_call CallCommit ;;;
  modify (λ d, {| tables := tx; calls := calls d |}).

(** [defer tx.Rollback()]: called when the function leaves, however it
    leaves; the working copy is dropped (after a commit there is nothing
    left to drop) and the error of the call is not looked at. *)
Definition defer_Rollback {A} (body : M Database A) : M Database A :=
  λ d, let '(d', r) := body d in
       ({| tables := tables d'; calls := calls d' ++ [CallRollback] |}, r).

End Transactions.

(** ** The exporter's state *)

Record World : Type := {
  minipools : Store string RocketpoolMinipool;   (* MinipoolsByAddress *)
  nodes : Store string RocketpoolNode;           (* NodesByAddress *)
  proposals : Store Z RocketpoolProposal;        (* ProposalsByID *)
  db : Database;
}.

Definition MinipoolsByAddress (w : World) : gmap string ptr := index (minipools w).
Definition NodesByAddress (w : World) : gmap string ptr := index (nodes w).
Definition ProposalsByID (w : World) : gmap Z ptr := index (proposals w).

Definition on_minipools {A} : M (Store string RocketpoolMinipool) A → M World A :=
  zoom minipools (λ s w, {| minipools := s; nodes := nodes w;
                            proposals := proposals w; db := db w |}).
Definition on_nodes {A} : M (Store string RocketpoolNode) A → M World A :=
  zoom nodes (λ s w, {| minipools := minipools w; nodes := s;
                        proposals := proposals w; db := db w |}).
Definition on_proposals {A} : M (Store Z RocketpoolProposal) A → M World A :=
  zoom proposals (λ s w, {| minipools := minipools w; nodes := nodes w;
                            proposals := s; db := db w |}).
Definition on_db {A} : M Database A → M World A :=
  zoom db (λ d w, {| minipools := minipools w; nodes := nodes w;
                     proposals := proposals w; db := d |}).

(** [time.Duration], in nanoseconds. *)
Definition Second : Z := 1000000000.

(** ** Persistence *)

Section Batches.
Variable env : Env.
Context {T : Type}.
Variable u : Upsert.
Variable nArgs : nat.
Variable args_of : T → list SqlValue.

(** [for i, d := range data[start:end]]: the placeholders and the
    arguments of one statement. *)
Fixpoint batch_args (heap : list T) (i : nat) (chunk : list ptr)
    : result (list (list nat) * list SqlValue) :=
  match chunk with
  | [] => Ok ([], [])
  | p :: rest =>
      match heap !! p with
      | None => Panic
      | Some d =>
          match batch_args heap (S i) rest with
          | Ok (valueStrings, valueArgs) =>
              Ok (placeholders nArgs i :: valueStrings, args_of d ++ valueArgs)
          | r => r
          end
      end
  end.

(** [for b := 0; b < len(data); b += batchSize].  The fuel bounds the
    number of iterations; [length data] is never used up when
    [batchSize] is positive (see [batch_loop_spec]). *)
Fixpoint batch_loop (fuel batchSize : nat) (heap : list T) (data : list ptr)
    (b : nat) (tx : Tables) : M Database Tables :=
  if decide (b < length data)%nat then
    match fuel with
    | O => call Panic
    | S fuel' =>
        let start := b in
        let end_ := if decide (length data < b + batchSize)%nat
                    then length data else (b + batchSize)%nat in
        batch <- call (batch_args heap 0 (take (end_ - start) (drop start data))) ;;
        tx' <- tx_Exec env u batch.1 batch.2 tx ;;
        batch_loop fuel' batchSize heap data (b + batchSize) tx'
    end
  else ret tx.

Definition upsert_in_batches (batchSize : nat) (heap : list T) (data : list ptr)
    : M Database unit :=
  tx <- Beginx env ;;
  defer_Rollback
    (tx' <- batch_loop (length data) batchSize heap data 0 tx ;;
     tx_Commit env tx').

End Batches.

(** The [String] method of a [big.Int] pointer. *)
Definition BigInt_String (x : option Z) : string :=
  match x with
  | None => "<nil>"
  | Some z => pretty z
  end.

Definition minipools_upsert : Upsert :=
  {| into := "rocketpool_minipools";
     columns := ["rocketpool_storage_address"; "address"; "pubkey"; "status";
                 "status_time"; "node_address"; "node_fee"; "deposit_type"];
     on_conflict := ["rocketpool_storage_address"; "address"];
     do_update_set := ["pubkey"; "status"; "status_time"; "node_address";
                       "node_fee"; "deposit_type"] |}%string.

Definition nodes_upsert : Upsert :=
  {| into := "rocketpool_nodes";
     columns := ["rocketpool_storage_address"; "address"; "timezone_location";
                 "rpl_stake"; "min_rpl_stake"; "max_rpl_stake"];
     on_conflict := ["rocketpool_storage_address"; "address"];
     do_update_set := ["rpl_stake"; "min_rpl_stake"; "max_rpl_stake"] |}%string.

Definition proposals_upsert : Upsert :=
  {| into := "rocketpool_proposals";
     columns := ["rocketpool_storage_address"; "id"; "dao"; "proposer_address";
                 "message"; "created_time"; "start_time"; "end_time";
                 "expiry_time"; "votes_required"; "votes_for"; "votes_against";
                 "member_voted"; "member_supported"; "is_cancelled";
                 "is_executed"; "payload"; "state"];
     on_conflict := ["rocketpool_storage_address"; "id"];
     do_update_set := ["dao"; "proposer_address"; "message"; "created_time";
                       "start_time"; "end_time"; "expiry_time"; "votes_required";
                       "votes_for"; "votes_against"; "member_voted";
                       "member_supported"; "is_cancelled"; "is_executed";
                       "payload"; "state"] |}%string.

Definition minipool_args (scope : Address) (d : RocketpoolMinipool) : list SqlValue :=
  [VBytes (Address_Bytes scope); VBytes (mp_Address d); VBytes (mp_Pubkey d);
   VText (mp_Status d); VTime (mp_StatusTime d); VBytes (mp_NodeAddress d);
   VFloat (mp_NodeFee d); VText (mp_DepositType d)].

Definition node_args (scope : Address) (d : RocketpoolNode) : list SqlValue :=
  [VBytes (Address_Bytes scope); VBytes (node_Address d);
   VText (node_TimezoneLocation d); VText (BigInt_String (node_RPLStake d));
   VText (BigInt_String (node_MinRPLStake d));
   VText (BigInt_String (node_MaxRPLStake d))].

Definition proposal_args (scope : Address) (d : RocketpoolProposal) : list SqlValue :=
  [VBytes (Address_Bytes scope); VUint (prop_ID d); VText (prop_DAO d);
   VBytes (prop_ProposerAddress d); VText (prop_Message d);
   VTime (prop_CreatedTime d); VTime (prop_StartTime d); VTime (prop_EndTime d);
   VTime (prop_ExpiryTime d); VFloat (prop_VotesRequired d);
   VFloat (prop_VotesFor d); VFloat (prop_VotesAgainst d);
   VBool (prop_MemberVoted d); VBool (prop_MemberSupported d);
   VBool (prop_IsCancelled d); VBool (prop_IsExecuted d);
   VBytes (prop_Payload d); VText (prop_State d)].

(** ** The exporter *)

Definition zero_minipool : RocketpoolMinipool :=
  {| mp_Address := []; mp_Pubkey := []; mp_NodeAddress := []; mp_NodeFee := 0;
     mp_DepositType := EmptyString; mp_Status := EmptyString;
     mp_StatusTime := zero_Time |}.

Definition zero_node : RocketpoolNode :=
  {| node_Address := []; node_TimezoneLocation := EmptyString;
     node_RPLStake := None; node_MinRPLStake := None; node_MaxRPLStake := None |}.

Section Exporter.
(** [a.Hex()], the checksummed hexadecimal form of an address (EIP-55,
    which needs Keccak-256), is taken as given. *)
Variable Hex : Address → string.
Variable env : Env.

(** *** Initial load

    [for _, mp := range dbRes { m[key] = &mp }]: the loop has one
    variable [mp] (the semantics of Go before 1.22, the language the
    repository is written in), every row is copied into it in turn, and
    the map receives its address. *)
Definition InitMinipools : M (Store string RocketpoolMinipool) unit :=
  dbRes <- call (Select_minipools env) ;;
  mp <- on_objs (alloc zero_minipool) ;;
  for_range (λ row,
    on_objs (store mp (λ _, row)) ;;;
    map_assign (Sprintf_x (mp_Address row)) mp) dbRes.

Definition InitNodes : M (Store string RocketpoolNode) unit :=
  dbRes <- call (Select_nodes env) ;;
  node <- on_objs (alloc zero_node) ;;
  for_range (λ row,
    on_objs (store node (λ _, row)) ;;;
    map_assign (Sprintf_x (node_Address row)) node) dbRes.

Definition InitProposals : M (Store Z RocketpoolProposal) unit :=
  dbRes <- call (Select_proposals env) ;;
  proposal <- on_objs (alloc (zero_proposal 0)) ;;
  for_range (λ row,
    on_objs (store proposal (λ _, row)) ;;;
    map_assign (prop_ID row) proposal) dbRes.

Definition Init : M World unit :=
  on_minipools InitMinipools ;;;
  on_nodes InitNodes ;;;
  on_proposals InitProposals.

(** *** Refresh *)

(** The body of the loop over the addresses. *)
Definition minipool_body (a : Address) : M (Store string RocketpoolMinipool) unit :=
  let addrHex := Hex a in
  found <- map_lookup addrHex ;;
  match found with
  | Some mp => on_objs (RocketpoolMinipool_Update env mp)
  | None =>
      mp <- on_objs (NewRocketpoolMinipool env (Address_Bytes a)) ;;
      map_assign addrHex mp
  end.

Definition UpdateMinipools : M (Store string RocketpoolMinipool) unit :=
  minipoolAddresses <- call (GetMinipoolAddresses env) ;;
  for_range minipool_body minipoolAddresses.

Definition node_body (a : Address) : M (Store string RocketpoolNode) unit :=
  let addrHex := Hex a in
  found <- map_lookup addrHex ;;
  match found with
  | Some node => on_objs (RocketpoolNode_Update env node)
  | None =>
      node <- on_objs (NewRocketpoolNode env (Address_Bytes a)) ;;
      map_assign addrHex node
  end.

Definition UpdateNodes : M (Store string RocketpoolNode) unit :=
  nodeAddresses <- call (GetNodeAddresses env) ;;
  for_range node_body nodeAddresses.

(** [for i := uint64(0); i < pc; i++] *)
Definition UpdateProposals : M (Store Z RocketpoolProposal) unit :=
  pc <- call (GetProposalCount env) ;;
  for_range (λ i,
    p <- on_objs (NewRocketpoolProposal env (uint64 (i + 1))) ;;
    map_assign i p) (seqZ 0 pc).

(** The three synchronizers run as the tasks of an errgroup.  Each works
    on its own map and its own objects, so their interleaving does not
    show in the state; the error reported is that of the task that
    failed first. *)
Definition Update : M World unit :=
  λ w, let '(w1, r1) := on_minipools UpdateMinipools w in
       let '(w2, r2) := on_nodes UpdateNodes w1 in
       let '(w3, r3) := on_proposals UpdateProposals w2 in
       let task k := match k with
                     | Minipools => r1 | Nodes => r2 | Proposals => r3
                     end in
       (w3, errgroup_Wait ((task <$> completion_order env) ++ [r1; r2; r3])).

(** *** Persist

    [range] over a Go map visits the entries in an unspecified order;
    the order of [map_to_list] stands for it. *)
Definition SaveMinipoolsWith (batchSize : nat) : M World unit :=
  w <- get ;;
  if decide (size (MinipoolsByAddress w) = 0%nat) then ret tt else
  let data := (map_to_list (MinipoolsByAddress w)).*2 in
  on_db (upsert_in_batches env minipools_upsert 8
           (minipool_args (RocketStorageContract_Address env))
           batchSize (objs (minipools w)) data).

Definition SaveNodesWith (batchSize : nat) : M World unit :=
  w <- get ;;
  if decide (size (NodesByAddress w) = 0%nat) then ret tt else
  let data := (map_to_list (NodesByAddress w)).*2 in
  on_db (upsert_in_batches env nodes_upsert 6
           (node_args (RocketStorageContract_Address env))
           batchSize (objs (nodes w)) data).

Definition SaveProposalsWith (batchSize : nat) : M World unit :=
  w <- get ;;
  if decide (size (ProposalsByID w) = 0%nat) then ret tt else
  let data := (map_to_list (ProposalsByID w)).*2 in
  on_db (upsert_in_batches env proposals_upsert 18
           (proposal_args (RocketStorageContract_Address env))
           batchSize (objs (proposals w)) data).

(** [batchSize := 1000] *)
Definition SaveMinipools : M World unit := SaveMinipoolsWith 1000.
Definition SaveNodes : M World unit := SaveNodesWith 1000.
Definition SaveProposals : M World unit := SaveProposalsWith 1000.

Definition Save : M World unit :=
  SaveMinipools ;;;
  SaveNodes ;;;
  SaveProposals.

End Exporter.

(** ** The scheduler *)

Inductive RunEvent : Type :=
  | CalledUpdate (r : result unit)
  | CalledSave (r : result unit)
  | Logged (msg : string)
  | Slept (d : Z)
  | AwaitedTick.

(** One pass through the body of the loop of [Run]; the boolean tells
    whether the loop goes on (it does unless the process panicked). *)
Definition Run_iteration (Hex : Address → string) (env : Env) (w : World)
    : World * list RunEvent * bool :=
  let '(w1, r1) := Update Hex env w in
  match r1 with
  | Err e =>
      (w1, [CalledUpdate r1; Logged "error updating rocketpool-data";
            Slept (Second * 2)], true)
  | Panic => (w1, [CalledUpdate r1], false)
  | Ok _ =>
      let '(w2, r2) := Save env w1 in
      match r2 with
      | Err e =>
          (w2, [CalledUpdate r1; CalledSave r2;
                Logged "error saving rocketpool-data"; Slept (Second * 2)], true)
      | Panic => (w2, [CalledUpdate r1; CalledSave r2], false)
      | Ok _ =>
          (w2, [CalledUpdate r1; CalledSave r2;
                Logged "exported rocketpool-data"; AwaitedTick], true)
      end
  end.

(** The loop never ends by itself; [fuel] bounds the number of cycles
    observed, [envs n] is the environment of cycle [n].  The result lists
    the events of each cycle. *)
Fixpoint Run (Hex : Address → string) (envs : nat → Env) (fuel cycle : nat)
    (w : World) : World * list (list RunEvent) :=
  match fuel with
  | O => (w, [])
  | S fuel' =>
      let '(w', evs, continue) := Run_iteration Hex (envs cycle) w in
      if continue then
        let '(w'', rest) := Run Hex envs fuel' (S cycle) w' in
        (w'', evs :: rest)
      else (w', [evs])
  end.

(** ** Startup *)

Definition empty_Store {K} `{Countable K} {T} : Store K T :=
  Build_Store ∅ [].

(** The constructor: the handles and three empty maps. *)
Definition NewRocketpoolExporter (env : Env) (d : Database) : result World :=
  match NewRocketPool env with
  | Ok _ => Ok {| minipools := empty_Store; nodes := empty_Store;
                  proposals := empty_Store; db := d |}
  | Err e => Err e
  | Panic => Panic
  end.

(** [rpe.UpdateInterval = time.Second * 60], the period of the ticker. *)
Definition UpdateInterval : Z := Second * 60.

(** [rocketpoolExporter()]: dial, construct, run.  [None] is the exit
    through [logger.Fatal]. *)
Definition rocketpoolExporter (Hex : Address → string) (envs : nat → Env)
    (fuel : nat) (d : Database) : option (World * list (list RunEvent)) :=
  match Dial (envs O) with
  | Ok _ =>
      match NewRocketpoolExporter (envs O) d with
      | Ok rpExporter => Some (Run Hex envs fuel O rpExporter)
      | _ => None
      end
  | _ => None
  end.

(** ** Vocabulary of the properties *)

(** The attributes of a minipool and of a node that are set at creation. *)
Definition mp_immutable (mp : RocketpoolMinipool) :=
  (mp_Address mp, mp_Pubkey mp, mp_NodeAddress mp, mp_NodeFee mp, mp_DepositType mp).

Definition node_immutable (n : RocketpoolNode) :=
  (node_Address n, node_TimezoneLocation n).

(** Every object of [h] is still there in [h'], with the same [f]. *)
Definition frame {T I} (f : T → I) (h h' : list T) : Prop :=
  ∀ p v, h !! p = Some v → ∃ v', h' !! p = Some v' ∧ f v' = f v.

(** Keys keep their pointer, objects keep their immutable part. *)
Definition store_frame {K} `{Countable K} {T I} (f : T → I) (s s' : Store K T) : Prop :=
  index s ⊆ index s' ∧ frame f (objs s) (objs s').

(** [ceil(n / b)] *)
Definition ceil_div (n b : nat) : nat := ((n + b - 1) / b)%nat.

Definition is_exec_on (table : string) (c : DBCall) : Prop :=
  ∃ rows, c = CallExec table rows.

(** What persisting [N] entities in batches of at most [B] does to the
    database: on success, nothing at all for an empty cache and otherwise
    one [Beginx], [ceil(N/B)] statements on the table, one [Commit] (and
    the deferred [Rollback], which finds the transaction closed); on any
    failure the committed tables are what they were. *)
Definition one_transaction (table : string) (N B : nat) (d d' : Database)
    (r : result unit) : Prop :=
  match r with
  | Ok _ =>
      if decide (N = 0%nat) then d' = d
      else ∃ execs,
          calls d' = calls d ++ CallBeginx :: execs ++ [CallCommit; CallRollback] ∧
          Forall (is_exec_on table) execs ∧
          length execs = ceil_div N B
  | _ => tables d' = tables d
  end.

(** The calls [cs] touch no table but [table]. *)
Definition only_table (table : string) (cs : list DBCall) : Prop :=
  Forall (λ c, ∀ t rows, c = CallExec t rows → t = table) cs.

Definition same_caches (w w' : World) : Prop :=
  minipools w' = minipools w ∧ nodes w' = nodes w ∧ proposals w' = proposals w.

(** The calls made between [d] and [d'] touch no table but [table], and
    the other tables are what they were. *)
Definition confined_to (table : string) (d d' : Database) : Prop :=
  (∃ cs, calls d' = calls d ++ cs ∧ only_table table cs) ∧
  (∀ t, t ≠ table → tables d' !! t = tables d !! t).

(** The columns of a statement outside its conflict target. *)
Definition non_key_columns (u : Upsert) : list string :=
  filter (λ c, c ∉ on_conflict u) (columns u).

(** What a cycle of the scheduler may look like: [Save] is called only
    after [Update] succeeded, the tick is awaited only after both
    succeeded and then nothing is slept, and a failure of either step is
    followed by the two-second sleep and not by the wait for the tick. *)
Definition cycle_ok (evs : list RunEvent) : Prop :=
  (∀ r, CalledSave r ∈ evs → CalledUpdate (Ok tt) ∈ evs) ∧
  (AwaitedTick ∈ evs →
     CalledUpdate (Ok tt) ∈ evs ∧ CalledSave (Ok tt) ∈ evs ∧
     ∀ d, Slept d ∉ evs) ∧
  (∀ e, CalledUpdate (Err e) ∈ evs ∨ CalledSave (Err e) ∈ evs →
        Slept (Second * 2) ∈ evs ∧ AwaitedTick ∉ evs).

(** The row a tuple of arguments denotes in a statement. *)
Definition entity_row (u : Upsert) (args : list SqlValue) : Row :=
  list_to_map (zip (columns u) args).

(** ** Further vocabulary *)

(** The mutable attributes of the entity are what the chain reports for
    the address the entity carries. *)
Definition minipool_refreshed (env : Env) (mp : RocketpoolMinipool) : Prop :=
  let a := BytesToAddress (mp_Address mp) in
  ∃ status statusTime,
    GetStatus env a = Ok status ∧ GetStatusTime env a = Ok statusTime ∧
    mp_Status mp = MinipoolStatus_String status ∧
    mp_StatusTime mp = statusTime.

Definition node_refreshed (env : Env) (n : RocketpoolNode) : Prop :=
  let a := BytesToAddress (node_Address n) in
  ∃ stake minStake maxStake,
    GetNodeRPLStake env a = Ok stake ∧
    GetNodeMinimumRPLStake env a = Ok minStake ∧
    GetNodeMaximumRPLStake env a = Ok maxStake ∧
    node_RPLStake n = Some stake ∧ node_MinRPLStake n = Some minStake ∧
    node_MaxRPLStake n = Some maxStake.

(** The keys grow, and only by members of [L]. *)
Definition grows_within {K} `{Countable K} {T} (L : gset K) (s s' : Store K T) : Prop :=
  dom (index s) ⊆ dom (index s') ∧ dom (index s') ⊆ dom (index s) ∪ L.

(** The table after the rows of the entities [ds] were upserted in order. *)
Definition upserted {T} (u : Upsert) (args_of : T → list SqlValue)
    (tbl : Table) (ds : list T) : Table :=
  foldl (λ t r, upsert_row u r t) tbl ((λ d, entity_row u (args_of d)) <$> ds).

(** The entities a save sends, in the order it sends them. *)
Definition cached {K} `{Countable K} {T} (s : Store K T) : option (list T) :=
  mapM (λ p, objs s !! p) (map_to_list (index s)).*2.

(** No two rows of the list have the same primary key. *)
Fixpoint distinct_keys (u : Upsert) (rows : list Row) : Prop :=
  match rows with
  | [] => True
  | r :: rest => Forall (λ r', conflicts u r r' = false) rest ∧ distinct_keys u rest
  end.

(** The object behind [q] is on the heap and no key of [Hex] form leads
    to it. *)
Definition out_of_reach {T} (Hex : Address → string) (q : ptr) (s : Store string T) : Prop :=
  (∀ a, index s !! Hex a ≠ Some q) ∧ (q < length (objs s))%nat.

(** The step relation of the invariant: an object out of reach stays out
    of reach and is not modified. *)
Definition keeps_out_of_reach {T} (Hex : Address → string) (q : ptr)
    (s s' : Store string T) : Prop :=
  out_of_reach Hex q s → out_of_reach Hex q s' ∧ objs s' !! q = objs s !! q.


(** Every pointer of the map refers to an object of the heap. *)
Definition wf_store {K} `{Countable K} {T} (s : Store K T) : Prop :=
  ∀ k p, index s !! k = Some p → (p < length (objs s))%nat.

Definition wf_world (w : World) : Prop :=
  wf_store (minipools w) ∧ wf_store (nodes w) ∧ wf_store (proposals w).

(** No call of the read API panics: each returns a value or an error. *)
Record no_panic (env : Env) : Prop := {
  np_GetMinipoolAddresses : GetMinipoolAddresses env ≠ Panic;
  np_GetMinipoolPubkey : ∀ a, GetMinipoolPubkey env a ≠ Panic;
  np_NewMinipool : ∀ a, NewMinipool env a ≠ Panic;
  np_GetNodeAddress : ∀ a, GetNodeAddress env a ≠ Panic;
  np_GetNodeFee : ∀ a, GetNodeFee env a ≠ Panic;
  np_GetDepositType : ∀ a, GetDepositType env a ≠ Panic;
  np_GetStatus : ∀ a, GetStatus env a ≠ Panic;
  np_GetStatusTime : ∀ a, GetStatusTime env a ≠ Panic;
  np_GetNodeAddresses : GetNodeAddresses env ≠ Panic;
  np_GetNodeTimezoneLocation : ∀ a, GetNodeTimezoneLocation env a ≠ Panic;
  np_GetNodeRPLStake : ∀ a, GetNodeRPLStake env a ≠ Panic;
  np_GetNodeMinimumRPLStake : ∀ a, GetNodeMinimumRPLStake env a ≠ Panic;
  np_GetNodeMaximumRPLStake : ∀ a, GetNodeMaximumRPLStake env a ≠ Panic;
  np_GetProposalCount : GetProposalCount env ≠ Panic;
  np_GetProposalDetails : ∀ pid, GetProposalDetails env pid ≠ Panic;
}.

(** The outcome is a success or the error of some call to the database. *)
Definition from_database {A} (env : Env) (r : result A) : Prop :=
  match r with
  | Ok _ => True
  | Err e => ∃ n, db_fault env n = Some e
  | Panic => False
  end.

(** The three tables of the exporter exist. *)
Definition has_tables (d : Database) : Prop :=
  is_Some (tables d !! into minipools_upsert) ∧
  is_Some (tables d !! into nodes_upsert) ∧
  is_Some (tables d !! into proposals_upsert).

(** The table has a row that agrees with [r] on the conflict target and
    on every column the statement updates. *)
Definition stored (u : Upsert) (tbl : Table) (r : Row) : Prop :=
  ∃ old, old ∈ tbl ∧
         ∀ c, c ∈ on_conflict u ++ do_update_set u → old !! c = r !! c.

(** A minipool a refresh would leave as it is: its contract binds and the
    mutable attributes are what the chain reports. *)
Definition minipool_settled (env : Env) (mp : RocketpoolMinipool) : Prop :=
  NewMinipool env (BytesToAddress (mp_Address mp)) = Ok tt ∧
  minipool_refreshed env mp.

(** Between two states of the exporter: every cached minipool and node
    is still under its key, behind the same pointer and with its immutable
    attributes, and no proposal key is gone. *)
Definition keeps_identity (w w' : World) : Prop :=
  store_frame mp_immutable (minipools w) (minipools w') ∧
  store_frame node_immutable (nodes w) (nodes w') ∧
  dom (index (proposals w)) ⊆ dom (index (proposals w')).

(** * Helpers of [utils/utils.go]

    The slot and epoch arithmetic over [Config.Chain], the hexadecimal
    parser and the bit vectors.  The configuration values are [uint64];
    an integer division by zero is a run-time panic, the exit through
    [log.Fatal] is [None]. *)

Module Utils.

(** The fields of [Config.Chain] the helpers read. *)
Record ChainConfig : Type := {
  GenesisTimestamp : Z;
  SecondsPerSlot : Z;
  SlotsPerEpoch : Z;
  AltairForkEpoch : Z;
  EpochsPerSyncCommitteePeriod : Z;
}.

(** [a / b] on [uint64]. *)
Definition udiv (a b : Z) : result Z :=
  if decide (b = 0) then Panic else Ok (a / b).

(** [a / b] on [int64]: the quotient is truncated toward zero (and
    wraps for the one quotient that does not fit). *)
Definition sdiv (a b : Z) : result Z :=
  if decide (b = 0) then Panic else Ok (int64 (Z.quot a b)).

Section Chain.
Variable cfg : ChainConfig.

Definition SyncPeriodOfEpoch (epoch : Z) : result Z :=
  if decide (epoch < AltairForkEpoch cfg) then Ok 0
  else udiv epoch (EpochsPerSyncCommitteePeriod cfg).

Definition FirstEpochOfSyncPeriod (syncPeriod : Z) : Z :=
  uint64 (syncPeriod * EpochsPerSyncCommitteePeriod cfg).

Definition EpochOfSlot (slot : Z) : result Z :=
  udiv slot (SlotsPerEpoch cfg).

Definition DayOfSlot (slot : Z) : Z :=
  uint64 (SecondsPerSlot cfg * slot) / (24 * 3600).

Definition WeekOfSlot (slot : Z) : Z :=
  uint64 (SecondsPerSlot cfg * slot) / (7 * 24 * 3600).

Definition SlotToTime (slot : Z) : Time :=
  time_Unix (int64 (uint64 (GenesisTimestamp cfg
                            + uint64 (slot * SecondsPerSlot cfg)))).

Definition TimeToSlot (timestamp : Z) : result Z :=
  if decide (GenesisTimestamp cfg > timestamp) then Ok 0
  else udiv (uint64 (timestamp - GenesisTimestamp cfg)) (SecondsPerSlot cfg).

Definition EpochToTime (epoch : Z) : Time :=
  time_Unix (int64 (uint64 (GenesisTimestamp cfg
                            + uint64 (uint64 (epoch * SecondsPerSlot cfg)
                                      * SlotsPerEpoch cfg)))).

(** [ts.Unix()] of a [Time] is the time itself. *)
Definition TimeToEpoch (ts : Time) : result Z :=
  if decide (int64 (GenesisTimestamp cfg) > ts) then Ok 0
  else
    match sdiv (int64 (ts - int64 (GenesisTimestamp cfg)))
               (int64 (SecondsPerSlot cfg)) with
    | Ok q => sdiv q (int64 (SlotsPerEpoch cfg))
    | r => r
    end.

Definition TimeToSyncPeriod (t : Time) : result Z :=
  match TimeToEpoch t with
  | Ok e => SyncPeriodOfEpoch (uint64 e)
  | r => r
  end.

End Chain.

(** *** [MustParseHex] *)

(** [strings.Replace(s, "0x", "", -1)]: every occurrence of [0x], found
    from left to right without overlap, is dropped. *)
Fixpoint Replace_0x (s : string) : string :=
  match s with
  | EmptyString => EmptyString
  | String c rest =>
      match rest with
      | String c' rest' =>
          if decide (c = "0"%char ∧ c' = "x"%char) then Replace_0x rest'
          else String c (Replace_0x rest)
      | EmptyString => String c EmptyString
      end
  end.

(** [fromHexChar] of [encoding/hex]: digits and letters of both cases. *)
Definition fromHexChar (c : ascii) : option N :=
  let n := N_of_ascii c in
  if (48 <=? n)%N && (n <=? 57)%N then Some (n - 48)%N
  else if (97 <=? n)%N && (n <=? 102)%N then Some (n - 97 + 10)%N
  else if (65 <=? n)%N && (n <=? 70)%N then Some (n - 65 + 10)%N
  else None.

Definition byte_of_N (n : N) : byte :=
  default x00 (Byte.of_N (n mod 256)%N).

(** [hex.DecodeString]: two digits per byte; [None] is a non-nil error
    (a character that is no digit, or an odd length). *)
Fixpoint hex_DecodeString (s : string) : option bytes :=
  match s with
  | EmptyString => Some []
  | String p rest =>
      match rest with
      | String q rest' =>
          match fromHexChar p, fromHexChar q with
          | Some a, Some b =>
              match hex_DecodeString rest' with
              | Some data => Some (byte_of_N (N.lor (N.shiftl a 4) b) :: data)
              | None => None
              end
          | _, _ => None
          end
      | EmptyString => None
      end
  end.

(** [None] is the exit through [log.Fatal]. *)
Definition MustParseHex (hexString : string) : option bytes :=
  hex_DecodeString (Replace_0x hexString).

(** *** Bit vectors *)

Definition uint8 (z : Z) : Z := z mod 2 ^ 8.

(** [x << s] on [uint8] with a [uint] count: counts of eight and more
    shift everything out. *)
Definition shl_uint8 (x s : Z) : Z :=
  if decide (s < 8) then uint8 (Z.shiftl x s) else 0.

(** [b[i]] with an [int] index. *)
Definition byte_at (b : bytes) (i : Z) : result Z :=
  if decide (0 ≤ i) then
    match b !! Z.to_nat i with
    | Some bb => Ok (Z.of_N (Byte.to_N bb))
    | None => Panic
    end
  else Panic.

(** [i / 8] and [i % 8] on [int] truncate toward zero; [uint(...)] of a
    negative remainder wraps. *)
Definition BitAtVector (b : bytes) (i : Z) : result bool :=
  match byte_at b (Z.quot i 8) with
  | Ok bb => Ok (0 <? Z.land bb (shl_uint8 1 (uint64 (Z.rem i 8))))
  | Err e => Err e
  | Panic => Panic
  end.

Definition BitAtVectorReversed (b : bytes) (i : Z) : result bool :=
  match byte_at b (Z.quot i 8) with
  | Ok bb => Ok (0 <? Z.land bb (shl_uint8 1 (uint64 (7 - Z.rem i 8))))
  | Err e => Err e
  | Panic => Panic
  end.

End Utils.
(** ** Stubs

    A chain read API and a database driven by a few parameters, used to run
    the exporter on concrete inputs. *)

Module Stub.

(** A stand-in for [a.Hex()]: the prefix and the digits, without the
    checksum casing. *)
Definition Hex (a : Address) : string := ("0x" +:+ Sprintf_x a)%string.

Definition addr (last : byte) : Address := replicate 19 x00 ++ [last].

Definition details (pid : Z) : ProposalDetails :=
  {| pd_ID := pid; pd_DAO := "rocketDAONodeTrustedProposals";
     pd_ProposerAddress := addr x0a; pd_Message := "upgrade";
     pd_CreatedTime := 1600000000; pd_StartTime := 1600000100;
     pd_EndTime := 1600000200; pd_ExpiryTime := 1600000300;
     pd_VotesRequired := 0; pd_VotesFor := 0; pd_VotesAgainst := 0;
     pd_MemberVoted := false; pd_MemberSupported := false;
     pd_IsCancelled := false; pd_IsExecuted := false; pd_Payload := [];
     pd_State := 1 |}.

(** The chain knows the minipools [mps], the nodes [nds] and [pc]
    proposals; [statusTime] and [stake] answer the reads of the mutable
    attributes, [fault] tells which database call fails, and [rows] is
    what [select * from rocketpool_minipools] returns. *)
Definition env (mps nds : list Address) (pc : Z)
    (statusTime : Address → result Time) (stake : Address → result Z)
    (fault : nat → option error) (rows : list RocketpoolMinipool) : Env :=
  {| Dial := Ok tt;
     NewRocketPool := Ok tt;
     RocketStorageContract_Address := addr xff;
     GetMinipoolAddresses := Ok mps;
     GetMinipoolPubkey := λ a, Ok (replicate 47 x00 ++ drop 19 a);
     NewMinipool := λ _, Ok tt;
     GetNodeAddress := λ _, Ok (addr x01);
     GetNodeFee := λ _, Ok 4591870180066957722;
     GetDepositType := λ _, Ok 2;
     GetStatus := λ _, Ok 2;
     GetStatusTime := statusTime;
     GetNodeAddresses := Ok nds;
     GetNodeTimezoneLocation := λ _, Ok "Europe/Berlin"%string;
     GetNodeRPLStake := stake;
     GetNodeMinimumRPLStake := λ _, Ok 1600;
     GetNodeMaximumRPLStake := λ _, Ok 24000;
     GetProposalCount := Ok pc;
     GetProposalDetails := λ pid, Ok (details pid);
     Select_minipools := Ok rows;
     Select_nodes := Ok [];
     Select_proposals := Ok [];
     db_fault := fault;
     status_done_first := true;
     completion_order := [Minipools; Nodes; Proposals] |}.

Definition no_fault : nat → option error := λ _, None.

(** The [n]-th database call fails. *)
Definition fault_at (n : nat) : nat → option error :=
  λ k, if decide (k = n) then Some "pq: connection lost"%string else None.

Definition at_time (t : Time) : Address → result Time := λ _, Ok t.
Definition staked (z : Z) : Address → result Z := λ _, Ok z.
Definition unreachable {A} : Address → result A :=
  λ _, Err "dial tcp: i/o timeout"%string.

Definition minipool (last : byte) (status : string) (t : Time) : RocketpoolMinipool :=
  {| mp_Address := addr last; mp_Pubkey := replicate 47 x00 ++ [last];
     mp_NodeAddress := addr x01; mp_NodeFee := 4591870180066957722;
     mp_DepositType := "Half"; mp_Status := status; mp_StatusTime := t |}.

Definition node (last : byte) (tz : string) (stake : Z) : RocketpoolNode :=
  {| node_Address := addr last; node_TimezoneLocation := tz;
     node_RPLStake := Some stake; node_MinRPLStake := Some 1600;
     node_MaxRPLStake := Some 24000 |}.

(** A database with the three tables, empty. *)
Definition empty_db : Database :=
  {| tables := {[ "rocketpool_minipools"%string := [];
                  "rocketpool_nodes"%string := [];
                  "rocketpool_proposals"%string := [] ]};
     calls := [] |}.

Definition world (mp : Store string RocketpoolMinipool)
    (nd : Store string RocketpoolNode) (pr : Store Z RocketpoolProposal)
    (d : Database) : World :=
  {| minipools := mp; nodes := nd; proposals := pr; db := d |}.

Definition fresh : World := world empty_Store empty_Store empty_Store empty_db.

(** A cache of [n] minipools, with addresses 0, 1, ... *)
Definition byte_of (n : nat) : byte := default x00 (Byte.of_N (N.of_nat n)).

Definition addr_n (n : nat) : Address :=
  replicate 18 x00 ++ [byte_of (n / 256); byte_of (n mod 256)].

Definition minipool_n (n : nat) : RocketpoolMinipool :=
  {| mp_Address := addr_n n; mp_Pubkey := []; mp_NodeAddress := addr x01;
     mp_NodeFee := 0; mp_DepositType := "Half"; mp_Status := "Staking";
     mp_StatusTime := 1600000000 |}.

Definition many_minipools (n : nat) : Store string RocketpoolMinipool :=
  Build_Store (list_to_map ((λ i, (Hex (addr_n i), i)) <$> seq 0 n))
              (minipool_n <$> seq 0 n).

(** One cached entity, behind pointer 0. *)
Definition single {T} (key : string) (v : T) : Store string T :=
  Build_Store {[ key := 0%nat ]} [v].

(** A database whose nodes table already has the row of node [last],
    stored with timezone [tz] and stake [stake]. *)
Definition db_with_node (last : byte) (tz : string) (stake : Z) : Database :=
  {| tables :=
       {[ "rocketpool_minipools"%string := [];
          "rocketpool_nodes"%string :=
            [entity_row nodes_upsert (node_args (addr xff) (node last tz stake))];
          "rocketpool_proposals"%string := [] ]};
     calls := [] |}.

End Stub.

(** * Properties *)

(** ** Per-entity refresh *)

Ltac unfold_monad :=
  unfold on_objs, map_lookup, map_assign in *;
  unfold bind, call, ret, get, modify, zoom, deref, store, alloc in *;
  simpl in *.

Lemma errgroup_Wait_Ok rs :
  errgroup_Wait rs = Ok tt → Forall (λ r, r = Ok tt) rs.
Proof.
  unfold errgroup_Wait. intros H.
  destruct (existsb _ rs); [discriminate|].
  induction rs as [|[[]|e|] rs IH]; simpl in *; try discriminate; auto.
Qed.

Lemma errgroup_Wait_Err rs e :
  errgroup_Wait rs = Err e → Err e ∈ rs.
Proof.
  unfold errgroup_Wait. intros H.
  destruct (existsb _ rs); [discriminate|].
  induction rs as [|[[]|e'|] rs IH]; simpl in *; try discriminate.
  - right. auto.
  - inversion H; subst. left.
Qed.

Lemma void_Err {A} (r : result A) e : void r = Err e → r = Err e.
Proof. destruct r; simpl; congruence. Qed.

Lemma void_Ok {A} (r : result A) : void r = Ok tt → ∃ a, r = Ok a.
Proof. destruct r; simpl; try congruence. eauto. Qed.

Lemma RocketpoolMinipool_Update_spec env this h self :
  h !! this = Some self →
  let a := BytesToAddress (mp_Address self) in
  match RocketpoolMinipool_Update env this h with
  | (h', Ok _) =>
      ∃ status statusTime,
        NewMinipool env a = Ok tt ∧ GetStatus env a = Ok status ∧
        GetStatusTime env a = Ok statusTime ∧
        h' = <[this := set_minipool_status (MinipoolStatus_String status) statusTime self]> h
  | (h', Err e) =>
      h' = h ∧ (NewMinipool env a = Err e ∨ GetStatus env a = Err e ∨
                GetStatusTime env a = Err e)
  | (h', Panic) => h' = h
  end.
Proof.
  intros Hself a. unfold RocketpoolMinipool_Update. unfold_monad.
  rewrite Hself. fold a.
  destruct (NewMinipool env a) as [[]|e|] eqn:Hnew; auto.
  destruct (errgroup_Wait _) as [[]|e|] eqn:Hwait; auto.
  - apply errgroup_Wait_Ok in Hwait.
    assert (void (GetStatus env a) = Ok tt ∧ void (GetStatusTime env a) = Ok tt)
      as [H1 H2].
    { destruct (status_done_first env); inversion Hwait as [|?? H1 H2]; subst;
        inversion H2; subst; auto. }
    apply void_Ok in H1 as [st Hst]. apply void_Ok in H2 as [t Ht].
    rewrite Hst, Ht. eauto 10.
  - split; [done|]. apply errgroup_Wait_Err in Hwait.
    right. destruct (status_done_first env);
      rewrite !elem_of_cons, elem_of_nil in Hwait;
      destruct Hwait as [H|[H|[]]]; symmetry in H; apply void_Err in H; auto.
Qed.

Lemma RocketpoolNode_Update_spec env this h self :
  h !! this = Some self →
  let a := BytesToAddress (node_Address self) in
  match RocketpoolNode_Update env this h with
  | (h', Ok _) =>
      ∃ stake minStake maxStake,
        GetNodeRPLStake env a = Ok stake ∧
        GetNodeMinimumRPLStake env a = Ok minStake ∧
        GetNodeMaximumRPLStake env a = Ok maxStake ∧
        h' = <[this := set_node_stakes stake minStake maxStake self]> h
  | (h', Err e) =>
      h' = h ∧ (GetNodeRPLStake env a = Err e ∨
                GetNodeMinimumRPLStake env a = Err e ∨
                GetNodeMaximumRPLStake env a = Err e)
  | (h', Panic) => h' = h
  end.
Proof.
  intros Hself a. unfold RocketpoolNode_Update. unfold_monad.
  rewrite Hself. fold a.
  destruct (GetNodeRPLStake env a) as [s|e|]; auto.
  destruct (GetNodeMinimumRPLStake env a) as [s1|e|]; auto.
  destruct (GetNodeMaximumRPLStake env a) as [s2|e|]; auto.
  eauto 10.
Qed.

Lemma RocketpoolProposal_Update_spec env this h self :
  h !! this = Some self →
  match RocketpoolProposal_Update env this h with
  | (h', Ok _) =>
      ∃ pd, GetProposalDetails env (prop_ID self) = Ok pd ∧
            h' = <[this := proposal_of_details pd]> h
  | (h', Err e) => h' = h ∧ GetProposalDetails env (prop_ID self) = Err e
  | (h', Panic) => h' = h
  end.
Proof.
  intros Hself. unfold RocketpoolProposal_Update. unfold_monad.
  rewrite Hself.
  destruct (GetProposalDetails env (prop_ID self)) as [pd|e|]; auto.
  eauto.
Qed.

(** ** What a refresh leaves alone *)


Lemma frame_refl {T I} (f : T → I) h : frame f h h.
Proof. intros p v ?. eauto. Qed.

Lemma frame_trans {T I} (f : T → I) h1 h2 h3 :
  frame f h1 h2 → frame f h2 h3 → frame f h1 h3.
Proof.
  intros H12 H23 p v Hp.
  destruct (H12 _ _ Hp) as (v2 & Hp2 & E2).
  destruct (H23 _ _ Hp2) as (v3 & Hp3 & E3).
  exists v3. split; [done|congruence].
Qed.

Lemma frame_insert {T I} (f : T → I) h p v v' :
  h !! p = Some v → f v' = f v → frame f h (<[p := v']> h).
Proof.
  intros Hp E q w Hq. destruct (decide (q = p)) as [->|Hne].
  - exists v'. rewrite list_lookup_insert_eq by (by eapply lookup_lt_Some).
    split; [done|congruence].
  - exists w. by rewrite list_lookup_insert_ne.
Qed.

Lemma frame_app {T I} (f : T → I) h l : frame f h (h ++ l).
Proof. intros p v Hp. exists v. split; [|done]. by apply lookup_app_l_Some. Qed.

Lemma RocketpoolMinipool_Update_frame env this h :
  frame mp_immutable h (RocketpoolMinipool_Update env this h).1.
Proof.
  destruct (h !! this) as [self|] eqn:Hself.
  - pose proof (RocketpoolMinipool_Update_spec env this h self Hself) as H.
    simpl in H. destruct (RocketpoolMinipool_Update env this h) as [h' [[]|e|]]; simpl.
    + destruct H as (st & t & _ & _ & _ & ->). by eapply frame_insert.
    + destruct H as [-> _]. apply frame_refl.
    + subst. apply frame_refl.
  - unfold RocketpoolMinipool_Update. unfold_monad. rewrite Hself. apply frame_refl.
Qed.

Lemma RocketpoolNode_Update_frame env this h :
  frame node_immutable h (RocketpoolNode_Update env this h).1.
Proof.
  destruct (h !! this) as [self|] eqn:Hself.
  - pose proof (RocketpoolNode_Update_spec env this h self Hself) as H.
    simpl in H. destruct (RocketpoolNode_Update env this h) as [h' [[]|e|]]; simpl.
    + destruct H as (s0 & s1 & s2 & _ & _ & _ & ->). by eapply frame_insert.
    + destruct H as [-> _]. apply frame_refl.
    + subst. apply frame_refl.
  - unfold RocketpoolNode_Update. unfold_monad. rewrite Hself. apply frame_refl.
Qed.

Lemma NewRocketpoolMinipool_frame env addr h :
  frame mp_immutable h (NewRocketpoolMinipool env addr h).1.
Proof.
  unfold NewRocketpoolMinipool. unfold bind at 1 2 3 4 5 6. unfold call, alloc.
  repeat (match goal with
          | |- context [match ?r with Ok _ => _ | Err _ => _ | Panic => _ end] =>
              destruct r; simpl; try apply frame_refl
          end).
  set (h1 := h ++ _).
  pose proof (RocketpoolMinipool_Update_frame env (length h) h1) as HU.
  unfold bind. destruct (RocketpoolMinipool_Update env (length h) h1) as [h2 [[]|e|]];
    simpl in *; (eapply frame_trans; [apply frame_app|exact HU]).
Qed.

Lemma NewRocketpoolNode_frame env addr h :
  frame node_immutable h (NewRocketpoolNode env addr h).1.
Proof.
  unfold NewRocketpoolNode. unfold bind at 1 2 3. unfold call, alloc, store.
  set (v := Build_RocketpoolNode _ _ _ _ _).
  destruct (GetNodeTimezoneLocation env _) as [tl|e|]; simpl;
    try apply frame_app.
  rewrite lookup_app_r, Nat.sub_diag by lia. simpl.
  set (h1 := <[_ := _]> _).
  assert (frame node_immutable h h1) as H1.
  { subst h1. rewrite insert_app_r_alt, Nat.sub_diag by lia. simpl. apply frame_app. }
  pose proof (RocketpoolNode_Update_frame env (length h) h1) as HU.
  unfold bind. destruct (RocketpoolNode_Update env (length h) h1) as [h2 [[]|e|]];
    simpl in *; (eapply frame_trans; [exact H1|exact HU]).
Qed.

(** ** Loops *)

Lemma for_range_preserves {S A} (R : S → S → Prop) (body : A → M S unit) l :
  (∀ s, R s s) → (∀ s1 s2 s3, R s1 s2 → R s2 s3 → R s1 s3) →
  (∀ a s, R s (body a s).1) →
  ∀ s, R s (for_range body l s).1.
Proof.
  intros Hrefl Htrans Hbody. induction l as [|a l IH]; intros s; simpl.
  - apply Hrefl.
  - unfold bind. specialize (Hbody a s).
    destruct (body a s) as [s1 [[]|e|]]; simpl in *; auto.
    eapply Htrans; [exact Hbody|apply IH].
Qed.

Lemma for_range_dom {K} `{Countable K} {T A} (key : A → K)
    (body : A → M (Store K T) unit) :
  (∀ a s s', body a s = (s', Ok tt) → dom (index s') = {[key a]} ∪ dom (index s)) →
  ∀ l s s', for_range body l s = (s', Ok tt) →
    dom (index s') = list_to_set (key <$> l) ∪ dom (index s).
Proof.
  intros Hbody. induction l as [|a l IH]; intros s s' Hrun; simpl in *.
  - unfold ret in Hrun. inversion Hrun; subst. set_solver.
  - unfold bind in Hrun. destruct (body a s) as [s1 [[]|e|]] eqn:Hb;
      try discriminate.
    apply IH in Hrun. apply Hbody in Hb. rewrite Hrun, Hb. set_solver.
Qed.


Lemma store_frame_refl {K} `{Countable K} {T I} (f : T → I) (s : Store K T) :
  store_frame f s s.
Proof. split; [done|apply frame_refl]. Qed.

Lemma store_frame_trans {K} `{Countable K} {T I} (f : T → I) (s1 s2 s3 : Store K T) :
  store_frame f s1 s2 → store_frame f s2 s3 → store_frame f s1 s3.
Proof.
  intros [Hi1 Hf1] [Hi2 Hf2]. split; [by etrans|by eapply frame_trans].
Qed.

Lemma store_frame_entity {K} `{Countable K} {T I} (f : T → I) (s s' : Store K T) k v :
  store_frame f s s' → entity s k = Some v →
  ∃ v', entity s' k = Some v' ∧ f v' = f v.
Proof.
  intros [Hi Hf] He. unfold entity in *.
  destruct (index s !! k) as [p|] eqn:Hp; simpl in *; [|discriminate].
  eapply lookup_weaken in Hp; [|exact Hi]. rewrite Hp. simpl. by apply Hf.
Qed.

Section SyncLemmas.
Variable Hex : Address → string.
Variable env : Env.


Lemma minipool_body_dom a s s' :
  minipool_body Hex env a s = (s', Ok tt) → dom (index s') = {[Hex a]} ∪ dom (index s).
Proof.
  unfold minipool_body. unfold_monad.
  destruct (index s !! Hex a) as [p|] eqn:Hp.
  - destruct (RocketpoolMinipool_Update env p (objs s)) as [h r].
    intros [= <- ->]. simpl. apply elem_of_dom_2 in Hp. set_solver.
  - destruct (NewRocketpoolMinipool env _ (objs s)) as [h [p|e|]];
      intros Heq; inversion Heq; subst; simpl. by rewrite dom_insert_L.
Qed.

Lemma node_body_dom a s s' :
  node_body Hex env a s = (s', Ok tt) → dom (index s') = {[Hex a]} ∪ dom (index s).
Proof.
  unfold node_body. unfold_monad.
  destruct (index s !! Hex a) as [p|] eqn:Hp.
  - destruct (RocketpoolNode_Update env p (objs s)) as [h r].
    intros [= <- ->]. simpl. apply elem_of_dom_2 in Hp. set_solver.
  - destruct (NewRocketpoolNode env _ (objs s)) as [h [p|e|]];
      intros Heq; inversion Heq; subst; simpl. by rewrite dom_insert_L.
Qed.

Lemma minipool_body_frame a s :
  store_frame mp_immutable s (minipool_body Hex env a s).1.
Proof.
  unfold minipool_body. unfold_monad.
  destruct (index s !! Hex a) as [p|] eqn:Hp.
  - pose proof (RocketpoolMinipool_Update_frame env p (objs s)) as HU.
    destruct (RocketpoolMinipool_Update env p (objs s)) as [h r]. split; done.
  - pose proof (NewRocketpoolMinipool_frame env (Address_Bytes a) (objs s)) as HN.
    destruct (NewRocketpoolMinipool env _ (objs s)) as [h [p|e|]];
      (split; [|done]); simpl; [|done..].
    by apply insert_subseteq.
Qed.

Lemma node_body_frame a s :
  store_frame node_immutable s (node_body Hex env a s).1.
Proof.
  unfold node_body. unfold_monad.
  destruct (index s !! Hex a) as [p|] eqn:Hp.
  - pose proof (RocketpoolNode_Update_frame env p (objs s)) as HU.
    destruct (RocketpoolNode_Update env p (objs s)) as [h r]. split; done.
  - pose proof (NewRocketpoolNode_frame env (Address_Bytes a) (objs s)) as HN.
    destruct (NewRocketpoolNode env _ (objs s)) as [h [p|e|]];
      (split; [|done]); simpl; [|done..].
    by apply insert_subseteq.
Qed.

Lemma UpdateMinipools_frame s :
  store_frame mp_immutable s (UpdateMinipools Hex env s).1.
Proof.
  unfold UpdateMinipools, bind, call.
  destruct (GetMinipoolAddresses env) as [l|e|]; try apply store_frame_refl.
  apply for_range_preserves;
    eauto using store_frame_refl, store_frame_trans, minipool_body_frame.
Qed.

Lemma UpdateNodes_frame s :
  store_frame node_immutable s (UpdateNodes Hex env s).1.
Proof.
  unfold UpdateNodes, bind, call.
  destruct (GetNodeAddresses env) as [l|e|]; try apply store_frame_refl.
  apply for_range_preserves;
    eauto using store_frame_refl, store_frame_trans, node_body_frame.
Qed.

Lemma UpdateMinipools_dom s s' addrs :
  GetMinipoolAddresses env = Ok addrs →
  UpdateMinipools Hex env s = (s', Ok tt) →
  dom (index s') = list_to_set (Hex <$> addrs) ∪ dom (index s).
Proof.
  unfold UpdateMinipools, bind, call. intros ->.
  apply for_range_dom, minipool_body_dom.
Qed.

Lemma UpdateNodes_dom s s' addrs :
  GetNodeAddresses env = Ok addrs →
  UpdateNodes Hex env s = (s', Ok tt) →
  dom (index s') = list_to_set (Hex <$> addrs) ∪ dom (index s).
Proof.
  unfold UpdateNodes, bind, call. intros ->.
  apply for_range_dom, node_body_dom.
Qed.

End SyncLemmas.

(** ** Claims about the refresh *)

(** C6.  A per-entity refresh is all-or-nothing.  For a minipool, a node and
    a proposal alike: when every read of the refresh succeeds, the result
    is success and the object behind the pointer is the old one with the
    values read written over its refreshed fields; when some read does not
    succeed, the heap (so every field of the entity) is exactly what it was
    before the call, and what is returned is not success but the outcome
    of one of the failing reads. *)
Theorem refresh_is_all_or_nothing env this :
  (∀ h self, h !! this = Some self →
     let a := BytesToAddress (mp_Address self) in
     match NewMinipool env a, GetStatus env a, GetStatusTime env a with
     | Ok _, Ok status, Ok statusTime =>
         RocketpoolMinipool_Update env this h =
         (<[this := set_minipool_status (MinipoolStatus_String status) statusTime self]> h,
          Ok tt)
     | r0, r1, r2 =>
         ∃ r, RocketpoolMinipool_Update env this h = (h, r) ∧ r ≠ Ok tt ∧
              r ∈ [r0; void r1; void r2]
     end) ∧
  (∀ h self, h !! this = Some self →
     let a := BytesToAddress (node_Address self) in
     match GetNodeRPLStake env a, GetNodeMinimumRPLStake env a,
           GetNodeMaximumRPLStake env a with
     | Ok stake, Ok minStake, Ok maxStake =>
         RocketpoolNode_Update env this h =
         (<[this := set_node_stakes stake minStake maxStake self]> h, Ok tt)
     | r0, r1, r2 =>
         ∃ r, RocketpoolNode_Update env this h = (h, r) ∧ r ≠ Ok tt ∧
              r ∈ [void r0; void r1; void r2]
     end) ∧
  (∀ h self, h !! this = Some self →
     match GetProposalDetails env (prop_ID self) with
     | Ok pd =>
         RocketpoolProposal_Update env this h =
         (<[this := proposal_of_details pd]> h, Ok tt)
     | r0 =>
         ∃ r, RocketpoolProposal_Update env this h = (h, r) ∧ r ≠ Ok tt ∧
              r = void r0
     end).
Proof.
  split; [|split]; intros h self Hself; simpl.
  - unfold RocketpoolMinipool_Update. unfold_monad. rewrite Hself.
    destruct (NewMinipool env _) as [[]|e0|];
      destruct (GetStatus env _) as [st|e1|];
      destruct (GetStatusTime env _) as [t|e2|];
      destruct (status_done_first env); simpl; try done;
      eexists; (split; [reflexivity|]); (split; [done|]);
      rewrite !elem_of_cons; auto.
  - unfold RocketpoolNode_Update. unfold_monad. rewrite Hself.
    destruct (GetNodeRPLStake env _) as [s0|e0|];
      destruct (GetNodeMinimumRPLStake env _) as [s1|e1|];
      destruct (GetNodeMaximumRPLStake env _) as [s2|e2|]; simpl; try done;
      eexists; (split; [reflexivity|]); (split; [done|]);
      rewrite !elem_of_cons; auto.
  - unfold RocketpoolProposal_Update. unfold_monad. rewrite Hself.
    destruct (GetProposalDetails env _) as [pd|e0|]; simpl; try done;
      eexists; (split; [reflexivity|]); (split; done).
Qed.

(** C7.  Discovery completeness.  When the keys of the cache are among the
    identifiers the chain lists (each address in its [Hex] form) and the
    refresh of minipools, or of nodes, succeeds, the keys of the cache are
    exactly the listed identifiers. *)
Theorem discovery_is_complete Hex env :
  (∀ s s' addrs,
     GetMinipoolAddresses env = Ok addrs →
     dom (index s) ⊆ list_to_set (Hex <$> addrs) →
     UpdateMinipools Hex env s = (s', Ok tt) →
     dom (index s') = list_to_set (Hex <$> addrs)) ∧
  (∀ s s' addrs,
     GetNodeAddresses env = Ok addrs →
     dom (index s) ⊆ list_to_set (Hex <$> addrs) →
     UpdateNodes Hex env s = (s', Ok tt) →
     dom (index s') = list_to_set (Hex <$> addrs)).
Proof.
  split; intros s s' addrs Hlist Hsub Hrun.
  - rewrite (UpdateMinipools_dom Hex env s s' addrs Hlist Hrun).
    set_solver.
  - rewrite (UpdateNodes_dom Hex env s s' addrs Hlist Hrun).
    set_solver.
Qed.

(** C8.  Identity stability.  Whatever the outcome of a refresh of the
    minipools, or of the nodes, a key that led to an entity before still
    leads to one after, through the same pointer, and that entity has the
    same address and the same immutable attributes (minipool: public key,
    node address, node fee, deposit type; node: timezone label). *)
Theorem refresh_keeps_identity Hex env :
  (∀ s k mp,
     entity s k = Some mp →
     let s' := (UpdateMinipools Hex env s).1 in
     index s' !! k = index s !! k ∧
     ∃ mp', entity s' k = Some mp' ∧
            mp_Address mp' = mp_Address mp ∧ mp_Pubkey mp' = mp_Pubkey mp ∧
            mp_NodeAddress mp' = mp_NodeAddress mp ∧
            mp_NodeFee mp' = mp_NodeFee mp ∧
            mp_DepositType mp' = mp_DepositType mp) ∧
  (∀ s k n,
     entity s k = Some n →
     let s' := (UpdateNodes Hex env s).1 in
     index s' !! k = index s !! k ∧
     ∃ n', entity s' k = Some n' ∧
           node_Address n' = node_Address n ∧
           node_TimezoneLocation n' = node_TimezoneLocation n).
Proof.
  split.
  - intros s k mp He s'.
    pose proof (UpdateMinipools_frame Hex env s) as Hf. fold s' in Hf. split.
    + unfold entity in He. destruct (index s !! k) as [p|] eqn:Hp; [|done].
      destruct Hf as [Hi _]. by eapply lookup_weaken.
    + destruct (store_frame_entity _ _ _ _ _ Hf He) as (mp' & He' & E).
      exists mp'. split; [done|]. unfold mp_immutable in E.
      inversion E. auto.
  - intros s k n He s'.
    pose proof (UpdateNodes_frame Hex env s) as Hf. fold s' in Hf. split.
    + unfold entity in He. destruct (index s !! k) as [p|] eqn:Hp; [|done].
      destruct Hf as [Hi _]. by eapply lookup_weaken.
    + destruct (store_frame_entity _ _ _ _ _ Hf He) as (n' & He' & E).
      exists n'. split; [done|]. unfold node_immutable in E.
      inversion E. auto.
Qed.

(** ** Batches and transactions *)

Lemma ceil_div_0 B : (0 < B)%nat → ceil_div 0 B = 0%nat.
Proof. intros HB. unfold ceil_div. apply Nat.div_small. lia. Qed.

Lemma ceil_div_step n B :
  (0 < B)%nat → (0 < n)%nat → ceil_div n B = S (ceil_div (n - B) B).
Proof.
  intros HB Hn. unfold ceil_div. destruct (decide (B ≤ n)%nat) as [Hle|Hgt].
  - replace (n + B - 1)%nat with ((n - B + B - 1) + 1 * B)%nat by lia.
    rewrite Nat.div_add by lia. lia.
  - replace (n - B)%nat with 0%nat by lia.
    rewrite (Nat.div_small (0 + B - 1) B) by lia.
    replace (n + B - 1)%nat with ((n - 1) + 1 * B)%nat by lia.
    rewrite Nat.div_add by lia. rewrite Nat.div_small by lia. lia.
Qed.

Lemma only_table_exec table cs : Forall (is_exec_on table) cs → only_table table cs.
Proof.
  unfold only_table. intros H. eapply Forall_impl; [exact H|].
  intros c [n ->] t rows [= -> _]. done.
Qed.

Lemma only_table_tx table execs tail :
  Forall (is_exec_on table) execs → only_table table tail →
  only_table table (CallBeginx :: execs ++ tail).
Proof.
  intros Hexecs Htail. constructor; [done|].
  apply Forall_app. split; [by apply only_table_exec|done].
Qed.

Ltac no_exec := repeat (constructor; [done|]); constructor.

Section BatchLemmas.
Variable env : Env.
Context {T : Type}.
Variable u : Upsert.
Variable nArgs : nat.
Variable args_of : T → list SqlValue.

Lemma exec_upsert_other values args (tx tx' : Tables) t :
  exec_upsert u values args tx = Some tx' → t ≠ into u → tx' !! t = tx !! t.
Proof.
  unfold exec_upsert. destruct (mapM _ values) as [rows|]; simpl; [|done].
  destruct (tx !! into u) as [tbl|]; simpl; [|done].
  intros [= <-] Hne. by rewrite lookup_insert_ne.
Qed.

Lemma tx_Exec_spec values args tx d d' r :
  tx_Exec env u values args tx d = (d', r) →
  tables d' = tables d ∧
  calls d' = calls d ++ [CallExec (into u) (length values)] ∧
  r ≠ Panic ∧
  (∀ tx', r = Ok tx' → ∀ t, t ≠ into u → tx' !! t = tx !! t).
Proof.
  unfold tx_Exec, db_call. unfold_monad.
  destruct (db_fault env _) as [e|].
  - intros [= <- <-]. simpl. repeat split; done.
  - destruct (exec_upsert u values args tx) as [tx1|] eqn:Hexec;
      intros [= <- <-]; simpl; repeat split; try done.
    intros tx' [= <-] t Hne. by eapply exec_upsert_other.
Qed.

Lemma batch_args_Panic heap chunk :
  ∀ i, batch_args nArgs args_of heap i chunk = Panic →
       ∃ p, p ∈ chunk ∧ heap !! p = None.
Proof.
  induction chunk as [|p chunk IH]; intros i; simpl; [done|].
  destruct (heap !! p) as [v|] eqn:Hp.
  - destruct (batch_args nArgs args_of heap (S i) chunk) as [[vs a]|e|] eqn:Hrec;
      try done.
    intros _. destruct (IH _ Hrec) as (q & Hq & Hnone).
    exists q. split; [by right|done].
  - intros _. exists p. split; [by left|done].
Qed.

Lemma batch_loop_spec B heap data :
  (0 < B)%nat →
  ∀ fuel b tx d d' r,
    (length data ≤ fuel + b)%nat →
    batch_loop env u nArgs args_of fuel B heap data b tx d = (d', r) →
    tables d' = tables d ∧
    ∃ execs,
      calls d' = calls d ++ execs ∧
      Forall (is_exec_on (into u)) execs ∧
      (∀ tx', r = Ok tx' →
         length execs = ceil_div (length data - b) B ∧
         ∀ t, t ≠ into u → tx' !! t = tx !! t) ∧
      (r = Panic → ∃ p, p ∈ data ∧ heap !! p = None).
Proof.
  intros HB. induction fuel as [|fuel IH]; intros b tx d d' r Hfuel; simpl;
    destruct (decide (b < length data)%nat) as [Hlt|Hge]; try lia.
  - unfold ret. intros [= <- <-]. split; [done|]. exists []. rewrite app_nil_r.
    split; [done|]. split; [constructor|]. split; [|done].
    intros tx' [= <-]. split; [|done].
    replace (length data - b)%nat with 0%nat by lia. by rewrite ceil_div_0.
  - unfold bind at 1. unfold call.
    destruct (batch_args nArgs args_of heap 0 _) as [batch|e|] eqn:Hargs.
    + unfold bind.
      destruct (tx_Exec env u batch.1 batch.2 tx d) as [d1 r1] eqn:Hexec.
      apply tx_Exec_spec in Hexec as (Ht1 & Hc1 & Hnp & Hother1).
      destruct r1 as [tx1|e|]; [| |done].
      * intros Hrec. apply IH in Hrec as (Ht2 & execs & Hc2 & Hall & Hok & Hpanic);
          [|lia].
        split; [congruence|].
        exists (CallExec (into u) (length batch.1) :: execs).
        split; [rewrite Hc2, Hc1, <- app_assoc; done|].
        split; [constructor; [by eexists|done]|].
        split; [|done].
        intros tx' Hr. destruct (Hok tx' Hr) as [Hlen Hother2]. split.
        -- simpl. rewrite Hlen.
           rewrite (ceil_div_step (length data - b) B) by lia.
           do 2 f_equal. lia.
        -- intros t Hne. rewrite Hother2 by done. by apply Hother1.
      * intros [= <- <-]. split; [done|].
        exists [CallExec (into u) (length batch.1)].
        split; [done|]. split; [constructor; [by eexists|done]|].
        split; done.
    + intros [= <- <-]. split; [done|]. exists []. rewrite app_nil_r.
      split; [done|]. split; [constructor|]. split; done.
    + intros [= <- <-]. split; [done|]. exists []. rewrite app_nil_r.
      split; [done|]. split; [constructor|]. split; [done|]. intros _.
      apply batch_args_Panic in Hargs as (p & Hp & Hnone).
      exists p. split; [|done].
      apply elem_of_take in Hp as (i & Hi & _).
      rewrite lookup_drop in Hi. by eapply list_elem_of_lookup_2.
  - unfold ret. intros [= <- <-]. split; [done|]. exists []. rewrite app_nil_r.
    split; [done|]. split; [constructor|]. split; [|done].
    intros tx' [= <-]. split; [|done].
    replace (length data - b)%nat with 0%nat by lia. by rewrite ceil_div_0.
Qed.

End BatchLemmas.

Section TransactionLemmas.
Variable env : Env.
Context {T : Type}.
Variable u : Upsert.
Variable nArgs : nat.
Variable args_of : T → list SqlValue.

Lemma upsert_in_batches_spec B heap data d d' r :
  (0 < B)%nat →
  upsert_in_batches env u nArgs args_of B heap data d = (d', r) →
  confined_to (into u) d d' ∧
  match r with
  | Ok _ =>
      ∃ execs,
        calls d' = calls d ++ CallBeginx :: execs ++ [CallCommit; CallRollback] ∧
        Forall (is_exec_on (into u)) execs ∧
        length execs = ceil_div (length data) B
  | Err _ => tables d' = tables d
  | Panic => tables d' = tables d ∧ ∃ p, p ∈ data ∧ heap !! p = None
  end.
Proof.
  intros HB. unfold upsert_in_batches, Beginx, defer_Rollback, tx_Commit, db_call.
  unfold_monad.
  destruct (db_fault env (length (calls d))) as [e|].
  { intros [= <- <-]. simpl. split; [|done]. split; [|done].
    exists [CallBeginx]. split; [done|]. no_exec. }
  set (d0 := {| tables := tables d; calls := calls d ++ [CallBeginx] |}).
  destruct (batch_loop env u nArgs args_of (length data) B heap data 0 (tables d) d0)
    as [d1 r1] eqn:Hloop.
  apply batch_loop_spec in Hloop as (Ht1 & execs & Hc1 & Hall & Hok & Hpanic);
    [|done|lia].
  simpl in Ht1, Hc1.
  destruct r1 as [tx1|e|].
  - destruct (Hok tx1 eq_refl) as [Hlen Hother]. rewrite Nat.sub_0_r in Hlen.
    destruct (db_fault env (length (calls d1))) as [e|]; intros [= <- <-]; simpl.
    + split; [|done]. split; [|intros; by rewrite Ht1].
      exists (CallBeginx :: execs ++ [CallCommit; CallRollback]).
      rewrite Hc1, <- !app_assoc. split; [done|].
      apply only_table_tx; [done|no_exec].
    + split.
      * split; [|done].
        exists (CallBeginx :: execs ++ [CallCommit; CallRollback]).
        rewrite Hc1, <- !app_assoc. split; [done|].
        apply only_table_tx; [done|no_exec].
      * exists execs. rewrite Hc1, <- !app_assoc. done.
  - intros [= <- <-]. simpl. split; [|done]. split; [|intros; by rewrite Ht1].
    exists (CallBeginx :: execs ++ [CallRollback]).
    rewrite Hc1, <- !app_assoc. split; [done|].
    apply only_table_tx; [done|no_exec].
  - intros [= <- <-]. simpl. split; [|split; [done|by apply Hpanic]].
    split; [|intros; by rewrite Ht1].
    exists (CallBeginx :: execs ++ [CallRollback]).
    rewrite Hc1, <- !app_assoc. split; [done|].
    apply only_table_tx; [done|no_exec].
Qed.

End TransactionLemmas.

Lemma confined_to_refl table d : confined_to table d d.
Proof.
  split; [|done]. exists []. rewrite app_nil_r. split; [done|constructor].
Qed.

Lemma on_db_run {A} (m : M Database A) w :
  on_db m w =
  ({| minipools := minipools w; nodes := nodes w; proposals := proposals w;
      db := (m (db w)).1 |}, (m (db w)).2).
Proof. unfold on_db, zoom. by destruct (m (db w)). Qed.

Section SaveLemmas.
Variable env : Env.
Variable B : nat.
Hypothesis HB : (0 < B)%nat.

Lemma SaveMinipoolsWith_spec w :
  let out := SaveMinipoolsWith env B w in
  same_caches w out.1 ∧
  confined_to "rocketpool_minipools" (db w) (db out.1) ∧
  one_transaction "rocketpool_minipools" (size (MinipoolsByAddress w)) B
    (db w) (db out.1) out.2.
Proof.
  unfold SaveMinipoolsWith, one_transaction, bind, get. cbv zeta.
  destruct (decide (size (MinipoolsByAddress w) = 0%nat)) as [H0|Hn0]; simpl.
  { split; [done|]. split; [apply confined_to_refl|done]. }
  rewrite on_db_run. simpl.
  destruct (upsert_in_batches _ _ _ _ _ _ _ _) as [d' r] eqn:Hrun.
  apply upsert_in_batches_spec in Hrun as [Hconf Hr]; [|done]. simpl in *.
  split; [done|]. split; [done|].
  destruct r as [[]|e|]; [|done|tauto].
  by rewrite length_fmap, length_map_to_list in Hr.
Qed.

Lemma SaveNodesWith_spec w :
  let out := SaveNodesWith env B w in
  same_caches w out.1 ∧
  confined_to "rocketpool_nodes" (db w) (db out.1) ∧
  one_transaction "rocketpool_nodes" (size (NodesByAddress w)) B
    (db w) (db out.1) out.2.
Proof.
  unfold SaveNodesWith, one_transaction, bind, get. cbv zeta.
  destruct (decide (size (NodesByAddress w) = 0%nat)) as [H0|Hn0]; simpl.
  { split; [done|]. split; [apply confined_to_refl|done]. }
  rewrite on_db_run. simpl.
  destruct (upsert_in_batches _ _ _ _ _ _ _ _) as [d' r] eqn:Hrun.
  apply upsert_in_batches_spec in Hrun as [Hconf Hr]; [|done]. simpl in *.
  split; [done|]. split; [done|].
  destruct r as [[]|e|]; [|done|tauto].
  by rewrite length_fmap, length_map_to_list in Hr.
Qed.

Lemma SaveProposalsWith_spec w :
  let out := SaveProposalsWith env B w in
  same_caches w out.1 ∧
  confined_to "rocketpool_proposals" (db w) (db out.1) ∧
  one_transaction "rocketpool_proposals" (size (ProposalsByID w)) B
    (db w) (db out.1) out.2.
Proof.
  unfold SaveProposalsWith, one_transaction, bind, get. cbv zeta.
  destruct (decide (size (ProposalsByID w) = 0%nat)) as [H0|Hn0]; simpl.
  { split; [done|]. split; [apply confined_to_refl|done]. }
  rewrite on_db_run. simpl.
  destruct (upsert_in_batches _ _ _ _ _ _ _ _) as [d' r] eqn:Hrun.
  apply upsert_in_batches_spec in Hrun as [Hconf Hr]; [|done]. simpl in *.
  split; [done|]. split; [done|].
  destruct r as [[]|e|]; [|done|tauto].
  by rewrite length_fmap, length_map_to_list in Hr.
Qed.

End SaveLemmas.

(** C2 (as amended).  Persisting the [N] entities of a cache with batches
    of at most [B] issues [ceil(N/B)] statements, all of them inside one
    transaction that is committed once, after the last batch; when
    anything fails (the begin, any batch, the commit) the working copy is
    dropped and the committed tables are what they were before, so the
    batches that went through before the failing one are not kept.  The
    exporter runs with [B = 1000]. *)
Theorem batches_share_one_transaction env B w :
  (0 < B)%nat →
  one_transaction "rocketpool_minipools" (size (MinipoolsByAddress w)) B
    (db w) (db (SaveMinipoolsWith env B w).1) (SaveMinipoolsWith env B w).2 ∧
  one_transaction "rocketpool_nodes" (size (NodesByAddress w)) B
    (db w) (db (SaveNodesWith env B w).1) (SaveNodesWith env B w).2 ∧
  one_transaction "rocketpool_proposals" (size (ProposalsByID w)) B
    (db w) (db (SaveProposalsWith env B w).1) (SaveProposalsWith env B w).2.
Proof.
  intros HB. split; [|split].
  - apply (SaveMinipoolsWith_spec env B HB w).
  - apply (SaveNodesWith_spec env B HB w).
  - apply (SaveProposalsWith_spec env B HB w).
Qed.

(** ** The persist step as a whole *)

Lemma confined_to_calls table d d' :
  confined_to table d d' → ∃ cs, calls d' = calls d ++ cs ∧ only_table table cs.
Proof. by intros [H _]. Qed.

(** C10.  The persist step writes minipools, then nodes, then proposals,
    and stops at the first kind that does not succeed: the calls it adds
    to the database are those for the minipools, followed by those for the
    nodes, followed by those for the proposals; when the minipools are not
    saved the result is theirs, nothing is called for the other two kinds
    and their tables are untouched; when the minipools are saved and the
    nodes are not, the result is that of the nodes, nothing is called for
    the proposals and their table is untouched. *)
Theorem Save_stops_at_first_failure env w :
  let m := SaveMinipools env w in
  let n := SaveNodes env m.1 in
  let p := SaveProposals env n.1 in
  let out := Save env w in
  ∃ cm cn cp,
    calls (db out.1) = calls (db w) ++ cm ++ cn ++ cp ∧
    only_table "rocketpool_minipools" cm ∧
    only_table "rocketpool_nodes" cn ∧
    only_table "rocketpool_proposals" cp ∧
    match m.2, n.2 with
    | Ok _, Ok _ => out = p
    | Ok _, _ =>
        out = n ∧ cp = [] ∧
        tables (db out.1) !! "rocketpool_proposals" =
        tables (db w) !! "rocketpool_proposals"
    | _, _ =>
        out = m ∧ cn = [] ∧ cp = [] ∧
        tables (db out.1) !! "rocketpool_nodes" =
        tables (db w) !! "rocketpool_nodes" ∧
        tables (db out.1) !! "rocketpool_proposals" =
        tables (db w) !! "rocketpool_proposals"
    end.
Proof.
  intros m n p out.
  assert (0 < 1000)%nat as HB by lia.
  destruct (SaveMinipoolsWith_spec env 1000 HB w) as (_ & [Hcm Htm] & _).
  fold (SaveMinipools env w) in Hcm, Htm. fold m in Hcm, Htm.
  destruct (SaveNodesWith_spec env 1000 HB m.1) as (_ & [Hcn Htn] & _).
  fold (SaveNodes env m.1) in Hcn, Htn. fold n in Hcn, Htn.
  destruct (SaveProposalsWith_spec env 1000 HB n.1) as (_ & [Hcp Htp] & _).
  fold (SaveProposals env n.1) in Hcp, Htp. fold p in Hcp, Htp.
  destruct Hcm as (cm & Hcm & Hom). destruct Hcn as (cn & Hcn & Hon).
  destruct Hcp as (cp & Hcp & Hop).
  assert (out = match m.2 with
                | Ok _ => match n.2 with Ok _ => p | _ => n end
                | _ => m
                end) as Hout.
  { subst out p n m. unfold Save, bind.
    destruct (SaveMinipools env w) as [w1 [[]|e|]]; simpl; try done.
    destruct (SaveNodes env w1) as [w2 [[]|e|]]; simpl; try done. }
  destruct m.2 as [[]|e|].
  - destruct n.2 as [[]|e|].
    + exists cm, cn, cp. rewrite Hout, Hcp, Hcn, Hcm, <- !app_assoc. done.
    + exists cm, cn, []. rewrite Hout, Hcn, Hcm, app_nil_r, <- !app_assoc.
      repeat split; try done; try constructor. by rewrite Htn, Htm.
    + exists cm, cn, []. rewrite Hout, Hcn, Hcm, app_nil_r, <- !app_assoc.
      repeat split; try done; try constructor. by rewrite Htn, Htm.
  - exists cm, [], []. rewrite Hout, Hcm, !app_nil_r.
    repeat split; try done; try constructor; by rewrite Htm.
  - exists cm, [], []. rewrite Hout, Hcm, !app_nil_r.
    repeat split; try done; try constructor; by rewrite Htm.
Qed.

(** ** The scheduler *)

Lemma Update_db Hex env w : db (Update Hex env w).1 = db w.
Proof.
  unfold Update, on_minipools, on_nodes, on_proposals, zoom.
  destruct (UpdateMinipools Hex env (minipools w)) as [s1 r1]. simpl.
  destruct (UpdateNodes Hex env (nodes w)) as [s2 r2]. simpl.
  destruct (UpdateProposals env (proposals w)) as [s3 r3]. simpl.
  done.
Qed.

Lemma Run_iteration_cycle_ok Hex env w :
  cycle_ok (Run_iteration Hex env w).1.2.
Proof.
  unfold Run_iteration.
  destruct (Update Hex env w) as [w1 [[]|e|]].
  - destruct (Save env w1) as [w2 [[]|e|]]; simpl; unfold cycle_ok;
      repeat setoid_rewrite elem_of_cons; repeat setoid_rewrite elem_of_nil;
      naive_solver.
  - simpl; unfold cycle_ok;
      repeat setoid_rewrite elem_of_cons; repeat setoid_rewrite elem_of_nil;
      naive_solver.
  - simpl; unfold cycle_ok;
      repeat setoid_rewrite elem_of_cons; repeat setoid_rewrite elem_of_nil;
      naive_solver.
Qed.

(** C9.  In every iteration of the loop of [Run]: when the refresh fails,
    [Save] is not called, the database is exactly what it was (no call
    reached it), the two-second sleep follows and the tick is not awaited;
    when the refresh succeeds [Save] runs on the refreshed state, and its
    failure too is followed by the two-second sleep and not by the wait
    for the tick; only when both succeed is the tick awaited.  The loop
    goes on in all these cases.  The same holds of every cycle of a run of
    any length. *)
Theorem Run_persists_only_after_refresh Hex :
  (∀ env w,
     let u := Update Hex env w in
     let it := Run_iteration Hex env w in
     match u.2 with
     | Ok _ =>
         let s := Save env u.1 in
         it.1.1 = s.1 ∧
         match s.2 with
         | Ok _ =>
             it.1.2 = [CalledUpdate (Ok tt); CalledSave (Ok tt);
                       Logged "exported rocketpool-data"; AwaitedTick] ∧
             it.2 = true
         | Err e =>
             it.1.2 = [CalledUpdate (Ok tt); CalledSave (Err e);
                       Logged "error saving rocketpool-data";
                       Slept (Second * 2)] ∧
             it.2 = true
         | Panic => it.2 = false
         end
     | Err e =>
         it.1.1 = u.1 ∧ db it.1.1 = db w ∧
         it.1.2 = [CalledUpdate (Err e); Logged "error updating rocketpool-data";
                   Slept (Second * 2)] ∧
         it.2 = true
     | Panic => db it.1.1 = db w ∧ it.2 = false
     end) ∧
  (∀ envs fuel cycle w, Forall cycle_ok (Run Hex envs fuel cycle w).2).
Proof.
  split.
  - intros env w u it. subst u it. unfold Run_iteration.
    pose proof (Update_db Hex env w) as Hdb.
    destruct (Update Hex env w) as [w1 [[]|e|]]; simpl in *; try done.
    destruct (Save env w1) as [w2 [[]|e|]]; simpl; done.
  - intros envs fuel. induction fuel as [|fuel IH]; intros cycle w; simpl.
    + constructor.
    + pose proof (Run_iteration_cycle_ok Hex (envs cycle) w) as Hok.
      destruct (Run_iteration Hex (envs cycle) w) as [[w' evs] [|]]; simpl in *.
      * specialize (IH (S cycle) w').
        destruct (Run Hex envs fuel (S cycle) w') as [w'' rest]. simpl in *.
        by constructor.
      * constructor; [done|constructor].
Qed.

(** ** The upsert *)

Lemma update_set_lookup u (old new : Row) c :
  update_set u old new !! c =
  if decide (c ∈ do_update_set u) then new !! c else old !! c.
Proof.
  unfold update_set. induction (do_update_set u) as [|c' l IH]; simpl.
  - done.
  - rewrite lookup_partial_alter. destruct (decide (c' = c)) as [->|Hne].
    + rewrite decide_True; [done|]. left.
    + rewrite IH. destruct (decide (c ∈ l)) as [Hin|Hnin].
      * rewrite decide_True; [done|]. by right.
      * rewrite decide_False; [done|]. rewrite elem_of_cons. naive_solver.
Qed.

Lemma upsert_row_conflict u (new : Row) pre old post :
  Forall (λ r, conflicts u r new = false) pre →
  conflicts u old new = true →
  upsert_row u new (pre ++ old :: post) = pre ++ update_set u old new :: post.
Proof.
  intros Hpre Hold. induction Hpre as [|r pre Hr _ IH]; simpl.
  - by rewrite Hold.
  - by rewrite Hr, IH.
Qed.

(** The statement built for a batch inserts, in order, the rows of the
    entities of the batch: placeholder [$(i*nArgs+j+1)] of the [i]-th tuple
    is bound to the [j]-th argument of the [i]-th entity. *)
Section StatementRows.
Context {T : Type}.
Variable u : Upsert.
Variable nArgs : nat.
Variable args_of : T → list SqlValue.
Hypothesis Hcols : length (columns u) = nArgs.
Hypothesis Hargs : ∀ d, length (args_of d) = nArgs.

Lemma row_of_placeholders i d pre rest :
  length pre = (i * nArgs)%nat →
  row_of (columns u) (placeholders nArgs i) (pre ++ args_of d ++ rest) =
  Some (entity_row u (args_of d)).
Proof.
  intros Hpre. unfold row_of, placeholders.
  assert (mapM (λ p, match p with O => None | S p' => (pre ++ args_of d ++ rest) !! p' end)
            ((λ j, i * nArgs + j + 1)%nat <$> seq 0 nArgs) = Some (args_of d)) as ->.
  { apply mapM_Some. apply Forall2_fmap_l.
    apply Forall2_same_length_lookup_2; [by rewrite length_seq, Hargs|].
    intros idx j v Hj Hv. apply lookup_seq in Hj as [-> Hlt]. simpl.
    rewrite Nat.add_1_r, <- Hpre.
    rewrite lookup_app_r by lia.
    replace (length pre + idx - length pre)%nat with idx by lia.
    by apply lookup_app_l_Some. }
  simpl. rewrite decide_True by (by rewrite Hargs, Hcols). done.
Qed.

Lemma batch_args_rows heap chunk :
  ∀ i valueStrings valueArgs pre,
    batch_args nArgs args_of heap i chunk = Ok (valueStrings, valueArgs) →
    length pre = (i * nArgs)%nat →
    ∃ ds : list T, mapM (λ p, heap !! p) chunk = Some ds ∧
          mapM (λ ps, row_of (columns u) ps (pre ++ valueArgs)) valueStrings =
          Some ((λ d, entity_row u (args_of d)) <$> ds).
Proof.
  induction chunk as [|p chunk IH]; intros i vs args pre; simpl.
  - intros [= <- <-] _. by exists [].
  - destruct (heap !! p) as [d|] eqn:Hp; [|done].
    destruct (batch_args nArgs args_of heap (S i) chunk) as [[vs' args']|e|] eqn:Hrec;
      try done.
    intros [= <- <-] Hpre.
    destruct (IH (S i) vs' args' (pre ++ args_of d) Hrec) as (ds & Hds & Hrows).
    { rewrite length_app, Hpre, Hargs. lia. }
    exists (d :: ds). simpl. rewrite Hds. split; [done|].
    rewrite row_of_placeholders by done. simpl.
    rewrite <- app_assoc in Hrows. rewrite Hrows. done.
Qed.

Lemma exec_upsert_batch heap chunk batch (tx : Tables) tbl :
  batch_args nArgs args_of heap 0 chunk = Ok batch →
  tx !! into u = Some tbl →
  ∃ ds : list T, mapM (λ p, heap !! p) chunk = Some ds ∧
        exec_upsert u batch.1 batch.2 tx =
        Some (<[into u := foldl (λ t r, upsert_row u r t) tbl
                             ((λ d, entity_row u (args_of d)) <$> ds)]> tx).
Proof.
  destruct batch as [vs args]. intros Hbatch Htbl.
  destruct (batch_args_rows heap chunk 0 vs args [] Hbatch eq_refl)
    as (ds & Hds & Hrows).
  exists ds. split; [done|]. unfold exec_upsert. simpl in *.
  rewrite Hrows. simpl. rewrite Htbl. done.
Qed.

End StatementRows.

(** C3 (as amended).  When a row sent by an upsert meets a stored row with
    the same primary key (the first one in the table), the stored row is
    replaced by one that takes from the new row exactly the columns of the
    statement's [do update set] list and keeps the stored value of every
    other column.  For minipools and for proposals that list is every
    non-key column (six and sixteen of them).  For nodes it is [rpl_stake],
    [min_rpl_stake] and [max_rpl_stake] only: the row of a node gets the
    three stakes of the entity and keeps its stored [timezone_location]. *)
Theorem upsert_updates_the_listed_columns :
  (∀ u (new : Row) pre old post,
     Forall (λ r, conflicts u r new = false) pre →
     conflicts u old new = true →
     ∃ row : Row,
       upsert_row u new (pre ++ old :: post) = pre ++ row :: post ∧
       (∀ c, c ∈ do_update_set u → row !! c = new !! c) ∧
       (∀ c, c ∉ do_update_set u → row !! c = old !! c)) ∧
  do_update_set minipools_upsert = non_key_columns minipools_upsert ∧
  length (do_update_set minipools_upsert) = 6%nat ∧
  do_update_set proposals_upsert = non_key_columns proposals_upsert ∧
  length (do_update_set proposals_upsert) = 16%nat ∧
  non_key_columns nodes_upsert =
    "timezone_location"%string :: do_update_set nodes_upsert ∧
  (∀ scope d pre old post,
     let new := entity_row nodes_upsert (node_args scope d) in
     Forall (λ r, conflicts nodes_upsert r new = false) pre →
     conflicts nodes_upsert old new = true →
     ∃ row : Row,
       upsert_row nodes_upsert new (pre ++ old :: post) = pre ++ row :: post ∧
       row !! "rpl_stake"%string = Some (VText (BigInt_String (node_RPLStake d))) ∧
       row !! "min_rpl_stake"%string = Some (VText (BigInt_String (node_MinRPLStake d))) ∧
       row !! "max_rpl_stake"%string = Some (VText (BigInt_String (node_MaxRPLStake d))) ∧
       row !! "timezone_location"%string = old !! "timezone_location"%string).
Proof.
  split; [|repeat split; try (vm_compute; reflexivity)].
  - intros u new pre old post Hpre Hold. exists (update_set u old new).
    split; [by apply upsert_row_conflict|]. split; intros c Hc.
    + rewrite update_set_lookup. by rewrite decide_True.
    + rewrite update_set_lookup. by rewrite decide_False.
  - intros scope d pre old post new Hpre Hold. exists (update_set nodes_upsert old new).
    split; [by apply upsert_row_conflict|].
    rewrite !update_set_lookup. repeat split; reflexivity.
Qed.

(** * The code on concrete inputs *)

(** On success the proposal synchronizer has put an entry under each
    value of its loop counter, that is under 0, ..., pc - 1. *)
Lemma UpdateProposals_dom env s s' pc :
  GetProposalCount env = Ok pc →
  UpdateProposals env s = (s', Ok tt) →
  dom (index s') = list_to_set (seqZ 0 pc) ∪ dom (index s).
Proof.
  unfold UpdateProposals, bind at 1, call. intros ->.
  rewrite <- (list_fmap_id (seqZ 0 pc)) at 2.
  apply (for_range_dom id). clear s s'. intros i s s'. unfold_monad.
  destruct (NewRocketpoolProposal env _ (objs s)) as [h [p|e|]];
    intros Heq; inversion Heq; subst; simpl. by rewrite dom_insert_L.
Qed.


(** C1.  The proposal synchronizer on a chain that reports three
    proposals, starting from an empty cache: the refresh succeeds, but the
    proposals 1, 2, 3 are filed under the keys 0, 1, 2 (the key is the
    loop counter, the proposal read is the one after it), so the key 3 of
    the range [1, 3] has no entry and no entry holds the proposal whose id
    equals its key. *)
Theorem UpdateProposals_files_under_the_loop_counter :
  let env := Stub.env [] [] 3 (Stub.at_time 0) (Stub.staked 0) Stub.no_fault [] in
  let out := UpdateProposals env empty_Store in
  out.2 = Ok tt ∧
  index out.1 !! 3 = None ∧
  prop_ID <$> entity out.1 0 = Some 1 ∧
  prop_ID <$> entity out.1 1 = Some 2 ∧
  prop_ID <$> entity out.1 2 = Some 3 ∧
  map_to_list (index out.1) = [(2, 2%nat); (1, 1%nat); (0, 0%nat)].
Proof. vm_compute. repeat split; reflexivity. Qed.

(** C5.  The initial load of two rows with distinct addresses: both keys
    receive the address of the one loop variable, which holds the last row
    when the loop ends, so the key of the first row leads to the values of
    the second. *)
Theorem InitMinipools_entries_share_the_loop_variable :
  let row1 := Stub.minipool x01 "Staking" 1600000000 in
  let row2 := Stub.minipool x02 "Dissolved" 1700000000 in
  let env := Stub.env [] [] 0 (Stub.at_time 0) (Stub.staked 0) Stub.no_fault
               [row1; row2] in
  let out := InitMinipools env empty_Store in
  out.2 = Ok tt ∧
  mp_Address row1 ≠ mp_Address row2 ∧
  index out.1 !! Sprintf_x (mp_Address row1) = Some 0%nat ∧
  index out.1 !! Sprintf_x (mp_Address row2) = Some 0%nat ∧
  entity out.1 (Sprintf_x (mp_Address row1)) = Some row2.
Proof. vm_compute. repeat split; (reflexivity || discriminate). Qed.

(** C4.  The startup path is the constructor followed by [Run]: whatever
    the environment and the database, the loop starts on three empty maps,
    and no [select] is evaluated before it.  On a database whose minipool
    query would return a row, the state the first cycle begins with has no
    entry for it, although [InitMinipools] would have made one. *)
Theorem startup_runs_on_unseeded_caches :
  (∀ Hex envs fuel d,
     rocketpoolExporter Hex envs fuel d =
     match Dial (envs O), NewRocketPool (envs O) with
     | Ok _, Ok _ =>
         Some (Run Hex envs fuel O
                 {| minipools := empty_Store; nodes := empty_Store;
                    proposals := empty_Store; db := d |})
     | _, _ => None
     end) ∧
  let row := Stub.minipool x01 "Staking" 1600000000 in
  let env := Stub.env [Stub.addr x01] [] 0 (Stub.at_time 0) (Stub.staked 0)
               Stub.no_fault [row] in
  index (InitMinipools env empty_Store).1 !! Sprintf_x (mp_Address row) = Some 0%nat ∧
  ∃ w, rocketpoolExporter Stub.Hex (λ _, env) 0 Stub.empty_db = Some (w, []) ∧
       MinipoolsByAddress w = ∅ ∧ NodesByAddress w = ∅ ∧ ProposalsByID w = ∅.
Proof.
  split.
  - intros Hex envs fuel d. unfold rocketpoolExporter, NewRocketpoolExporter.
    destruct (Dial (envs O)) as [[]|e|]; try done.
    destruct (NewRocketPool (envs O)) as [[]|e|]; done.
  - split; [vm_compute; reflexivity|].
    eexists. split; [reflexivity|]. repeat split; reflexivity.
Qed.

(** C3, as stated, fails on the nodes statement: saving a node whose
    stored row has another timezone leaves [timezone_location] as stored,
    while the stake is replaced. *)
Lemma nodes_upsert_leaves_timezone_location :
  let n := Stub.node x03 "Europe/Berlin" 2000 in
  let env := Stub.env [] [] 0 (Stub.at_time 0) (Stub.staked 0) Stub.no_fault [] in
  let w := Stub.world empty_Store (Stub.single (Stub.Hex (Stub.addr x03)) n)
             empty_Store (Stub.db_with_node x03 "UTC" 1000) in
  let new := entity_row nodes_upsert (node_args (RocketStorageContract_Address env) n) in
  let out := SaveNodes env w in
  out.2 = Ok tt ∧
  ∃ row : Row,
    tables (db out.1) !! "rocketpool_nodes"%string = Some [row] ∧
    new !! "timezone_location"%string = Some (VText "Europe/Berlin") ∧
    row !! "timezone_location"%string = Some (VText "UTC") ∧
    row !! "rpl_stake"%string = Some (VText "2000") ∧
    ¬ (∀ c, c ∈ non_key_columns nodes_upsert → row !! c = new !! c).
Proof.
  intros n env w new out. split; [vm_compute; reflexivity|].
  exists (update_set nodes_upsert
            (entity_row nodes_upsert
               (node_args (Stub.addr xff) (Stub.node x03 "UTC" 1000))) new).
  split; [vm_compute; reflexivity|]. split; [vm_compute; reflexivity|].
  split; [vm_compute; reflexivity|]. split; [vm_compute; reflexivity|].
  intros Hall. specialize (Hall "timezone_location"%string).
  assert (non_key_columns nodes_upsert =
          ["timezone_location"; "rpl_stake"; "min_rpl_stake"; "max_rpl_stake"]%string)
    as Hcols by (vm_compute; reflexivity).
  rewrite Hcols in Hall. specialize (Hall (list_elem_of_here _ _)).
  vm_compute in Hall. discriminate Hall.
Qed.

(** ** Instances *)

Lemma refresh_is_all_or_nothing_witness :
  let env := Stub.env [] [] 0 Stub.unreachable (Stub.staked 0) Stub.no_fault [] in
  let mp := Stub.minipool x01 "Staking" 1600000000 in
  [mp] !! 0%nat = Some mp ∧
  ∃ r, RocketpoolMinipool_Update env 0 [mp] = ([mp], r) ∧ r ≠ Ok tt.
Proof.
  intros env mp. split; [reflexivity|].
  destruct (proj1 (refresh_is_all_or_nothing env 0) [mp] mp eq_refl)
    as (r & Hrun & Hr & _).
  exists r. split; [exact Hrun|exact Hr].
Defined.

Lemma discovery_is_complete_witness :
  let addrs := [Stub.addr x01; Stub.addr x02] in
  let env := Stub.env addrs [] 0 (Stub.at_time 1600000000) (Stub.staked 0)
               Stub.no_fault [] in
  dom (index (UpdateMinipools Stub.Hex env empty_Store).1) =
  list_to_set (Stub.Hex <$> addrs).
Proof.
  intros addrs env.
  apply (proj1 (discovery_is_complete Stub.Hex env) empty_Store _ addrs).
  - reflexivity.
  - simpl. rewrite dom_empty_L. apply empty_subseteq.
  - vm_compute. reflexivity.
Defined.

Lemma refresh_keeps_identity_witness :
  let env := Stub.env [Stub.addr x01] [] 0 (Stub.at_time 1700000000)
               (Stub.staked 0) Stub.no_fault [] in
  let mp := Stub.minipool x01 "Prelaunch" 1600000000 in
  let k := Stub.Hex (Stub.addr x01) in
  let s := Stub.single k mp in
  entity s k = Some mp ∧
  ∃ mp', entity (UpdateMinipools Stub.Hex env s).1 k = Some mp' ∧
         mp_Pubkey mp' = mp_Pubkey mp ∧ mp_Status mp' = "Staking"%string.
Proof.
  intros env mp k s. split; [reflexivity|].
  destruct (proj1 (refresh_keeps_identity Stub.Hex env) s k mp eq_refl)
    as (_ & mp' & He & _ & Hpub & _).
  exists mp'. split; [exact He|]. split; [exact Hpub|].
  vm_compute in He. injection He as <-. reflexivity.
Defined.

Lemma batches_share_one_transaction_witness :
  let env := Stub.env [] [] 0 (Stub.at_time 0) (Stub.staked 0) Stub.no_fault [] in
  let w := Stub.world (Stub.many_minipools 3) empty_Store empty_Store Stub.empty_db in
  (0 < 2)%nat ∧
  (SaveMinipoolsWith env 2 w).2 = Ok tt ∧
  one_transaction "rocketpool_minipools" 3 2 (db w)
    (db (SaveMinipoolsWith env 2 w).1) (SaveMinipoolsWith env 2 w).2.
Proof.
  intros env w. split; [lia|]. split; [vm_compute; reflexivity|].
  exact (proj1 (batches_share_one_transaction env 2 w (Nat.lt_0_succ 1))).
Defined.

Lemma upsert_updates_the_listed_columns_witness :
  let old := entity_row nodes_upsert
               (node_args (Stub.addr xff) (Stub.node x03 "UTC" 1000)) in
  let new := entity_row nodes_upsert
               (node_args (Stub.addr xff) (Stub.node x03 "Europe/Berlin" 2000)) in
  conflicts nodes_upsert old new = true ∧
  ∃ row : Row,
    upsert_row nodes_upsert new ([] ++ old :: []) = [] ++ row :: [] ∧
    (∀ c, c ∈ do_update_set nodes_upsert → row !! c = new !! c) ∧
    (∀ c, c ∉ do_update_set nodes_upsert → row !! c = old !! c).
Proof.
  intros old new. split; [vm_compute; reflexivity|].
  apply (proj1 upsert_updates_the_listed_columns).
  - constructor.
  - vm_compute. reflexivity.
Defined.

(** * Further properties of the exporter *)

(** ** Creation of an entity *)

Lemma lookup_snoc {T} (h : list T) v : (h ++ [v]) !! length h = Some v.
Proof. by apply list_lookup_middle. Qed.

Lemma insert_snoc {T} (h : list T) v w : <[length h := w]> (h ++ [v]) = h ++ [w].
Proof. rewrite insert_app_r_alt, Nat.sub_diag by lia. done. Qed.

Lemma take_snoc {T} (h : list T) v : take (length h) (h ++ [v]) = h.
Proof. apply take_app_length. Qed.

Lemma NewRocketpoolMinipool_spec env addr h :
  let a := BytesToAddress addr in
  let out := NewRocketpoolMinipool env addr h in
  take (length h) out.1 = h ∧
  match out.2 with
  | Ok p =>
      p = length h ∧
      ∃ pubk nodeAddr nodeFee depositType status statusTime,
        GetMinipoolPubkey env a = Ok pubk ∧ GetNodeAddress env a = Ok nodeAddr ∧
        GetNodeFee env a = Ok nodeFee ∧ GetDepositType env a = Ok depositType ∧
        GetStatus env a = Ok status ∧ GetStatusTime env a = Ok statusTime ∧
        out.1 =
        h ++ [{| mp_Address := addr; mp_Pubkey := pubk;
                mp_NodeAddress := Address_Bytes nodeAddr; mp_NodeFee := nodeFee;
                mp_DepositType := MinipoolDeposit_String depositType;
                mp_Status := MinipoolStatus_String status;
                mp_StatusTime := statusTime |}]
  | _ => True
  end.
Proof.
  intros a out. subst out.
  destruct (NewRocketpoolMinipool env addr h) as [h' r] eqn:Hrun. simpl.
  revert Hrun. unfold NewRocketpoolMinipool. fold a.
  unfold bind at 1 2 3 4 5 6, call, alloc.
  destruct (GetMinipoolPubkey env a) as [pubk|e|];
    [|intros [= <- <-]; by rewrite take_ge..].
  destruct (NewMinipool env a) as [[]|e|];
    [|intros [= <- <-]; by rewrite take_ge..].
  destruct (GetNodeAddress env a) as [nodeAddr|e|];
    [|intros [= <- <-]; by rewrite take_ge..].
  destruct (GetNodeFee env a) as [nodeFee|e|];
    [|intros [= <- <-]; by rewrite take_ge..].
  destruct (GetDepositType env a) as [depositType|e|];
    [|intros [= <- <-]; by rewrite take_ge..].
  set (v := Build_RocketpoolMinipool _ _ _ _ _ _ _).
  pose proof (RocketpoolMinipool_Update_spec env (length h) (h ++ [v]) v
                (lookup_snoc h v)) as HU. simpl in HU. fold a in HU.
  unfold bind, ret.
  destruct (RocketpoolMinipool_Update env (length h) (h ++ [v])) as [h1 [[]|e|]];
    intros [= <- <-].
  + destruct HU as (st & t & _ & Hst & Ht & ->). rewrite insert_snoc.
    split; [apply take_snoc|]. split; [done|].
    exists pubk, nodeAddr, nodeFee, depositType, st, t.
    repeat (split; [done|]). done.
  + destruct HU as [-> _]. split; [apply take_snoc|done].
  + subst h1. split; [apply take_snoc|done].
Qed.

Lemma NewRocketpoolNode_spec env addr h :
  let a := BytesToAddress addr in
  let out := NewRocketpoolNode env addr h in
  take (length h) out.1 = h ∧
  match out.2 with
  | Ok p =>
      p = length h ∧
      ∃ tl stake minStake maxStake,
        GetNodeTimezoneLocation env a = Ok tl ∧ GetNodeRPLStake env a = Ok stake ∧
        GetNodeMinimumRPLStake env a = Ok minStake ∧
        GetNodeMaximumRPLStake env a = Ok maxStake ∧
        out.1 =
        h ++ [{| node_Address := addr; node_TimezoneLocation := tl;
                node_RPLStake := Some stake; node_MinRPLStake := Some minStake;
                node_MaxRPLStake := Some maxStake |}]
  | _ => True
  end.
Proof.
  intros a out. subst out.
  destruct (NewRocketpoolNode env addr h) as [h' r] eqn:Hrun. simpl.
  revert Hrun. unfold NewRocketpoolNode. fold a.
  unfold bind at 1 2 3, call, alloc, store.
  set (v := Build_RocketpoolNode _ _ _ _ _).
  destruct (GetNodeTimezoneLocation env a) as [tl|e|];
    [|intros [= <- <-]; split; [apply take_snoc|done]..].
  rewrite lookup_snoc, insert_snoc.
  set (v1 := set_node_timezone tl v).
  pose proof (RocketpoolNode_Update_spec env (length h) (h ++ [v1]) v1
                (lookup_snoc h v1)) as HU. simpl in HU. fold a in HU.
  unfold bind, ret.
  destruct (RocketpoolNode_Update env (length h) (h ++ [v1])) as [h1 [[]|e|]];
    intros [= <- <-].
  + destruct HU as (s0 & s1 & s2 & H0 & H1 & H2 & ->). rewrite insert_snoc.
    split; [apply take_snoc|]. split; [done|].
    exists tl, s0, s1, s2. repeat (split; [done|]). done.
  + destruct HU as [-> _]. split; [apply take_snoc|done].
  + subst h1. split; [apply take_snoc|done].
Qed.

Lemma NewRocketpoolProposal_spec env pid h :
  let out := NewRocketpoolProposal env pid h in
  take (length h) out.1 = h ∧
  match out.2 with
  | Ok p =>
      p = length h ∧
      ∃ pd, GetProposalDetails env pid = Ok pd ∧
            out.1 = h ++ [proposal_of_details pd]
  | _ => True
  end.
Proof.
  intros out. subst out.
  destruct (NewRocketpoolProposal env pid h) as [h' r] eqn:Hrun. simpl.
  revert Hrun. unfold NewRocketpoolProposal.
  unfold bind at 1, alloc.
  pose proof (RocketpoolProposal_Update_spec env (length h)
                (h ++ [zero_proposal pid]) _ (lookup_snoc h _)) as HU.
  simpl in HU. unfold bind, ret.
  destruct (RocketpoolProposal_Update env (length h) (h ++ [zero_proposal pid]))
    as [h1 [[]|e|]]; intros [= <- <-].
  + destruct HU as (pd & Hpd & ->). rewrite insert_snoc.
    split; [apply take_snoc|]. split; [done|].
    exists pd. split; done.
  + destruct HU as [-> _]. split; [apply take_snoc|done].
  + subst h1. split; [apply take_snoc|done].
Qed.

(** X1.  Creating an entity performs the full read and allocates one
    object.  When every read succeeds the pointer returned is the fresh
    cell at the end of the heap, and the object there holds the address
    given and the values read (for a proposal, the details read for the id
    given); whatever happens, the objects that were on the heap are still
    there, unchanged. *)
Theorem creation_reads_everything_and_keeps_the_heap env :
  (∀ addr h,
     let a := BytesToAddress addr in
     let out := NewRocketpoolMinipool env addr h in
     take (length h) out.1 = h ∧
     match out.2 with
     | Ok p =>
         p = length h ∧
         ∃ pubk nodeAddr nodeFee depositType status statusTime,
           GetMinipoolPubkey env a = Ok pubk ∧ GetNodeAddress env a = Ok nodeAddr ∧
           GetNodeFee env a = Ok nodeFee ∧ GetDepositType env a = Ok depositType ∧
           GetStatus env a = Ok status ∧ GetStatusTime env a = Ok statusTime ∧
           out.1 =
           h ++ [{| mp_Address := addr; mp_Pubkey := pubk;
                   mp_NodeAddress := Address_Bytes nodeAddr; mp_NodeFee := nodeFee;
                   mp_DepositType := MinipoolDeposit_String depositType;
                   mp_Status := MinipoolStatus_String status;
                   mp_StatusTime := statusTime |}]
     | _ => True
     end) ∧
  (∀ addr h,
     let a := BytesToAddress addr in
     let out := NewRocketpoolNode env addr h in
     take (length h) out.1 = h ∧
     match out.2 with
     | Ok p =>
         p = length h ∧
         ∃ tl stake minStake maxStake,
           GetNodeTimezoneLocation env a = Ok tl ∧ GetNodeRPLStake env a = Ok stake ∧
           GetNodeMinimumRPLStake env a = Ok minStake ∧
           GetNodeMaximumRPLStake env a = Ok maxStake ∧
           out.1 =
           h ++ [{| node_Address := addr; node_TimezoneLocation := tl;
                   node_RPLStake := Some stake; node_MinRPLStake := Some minStake;
                   node_MaxRPLStake := Some maxStake |}]
     | _ => True
     end) ∧
  (∀ pid h,
     let out := NewRocketpoolProposal env pid h in
     take (length h) out.1 = h ∧
     match out.2 with
     | Ok p =>
         p = length h ∧
         ∃ pd, GetProposalDetails env pid = Ok pd ∧
               out.1 = h ++ [proposal_of_details pd]
     | _ => True
     end).
Proof.
  split; [|split].
  - apply NewRocketpoolMinipool_spec.
  - apply NewRocketpoolNode_spec.
  - apply NewRocketpoolProposal_spec.
Qed.

(** ** The proposal synchronizer in general *)

Lemma prefix_lookup {T} (h h' : list T) p v :
  take (length h) h' = h → h !! p = Some v → h' !! p = Some v.
Proof.
  intros Htake Hp. rewrite <- Htake in Hp.
  apply lookup_take_Some in Hp. tauto.
Qed.

Lemma prefix_trans {T} (h1 h2 h3 : list T) :
  take (length h1) h2 = h1 → take (length h2) h3 = h2 →
  take (length h1) h3 = h1.
Proof.
  intros H12 H23.
  assert (length h1 ≤ length h2)%nat as Hle.
  { pose proof (f_equal length H12) as Hl. rewrite length_take in Hl. lia. }
  transitivity (take (length h1) (take (length h2) h3)).
  - rewrite take_take. f_equal. lia.
  - rewrite H23. exact H12.
Qed.

Lemma proposal_step env i s s' :
  (p <- on_objs (NewRocketpoolProposal env (uint64 (i + 1))) ;; map_assign i p) s
    = (s', Ok tt) →
  ∃ pd, GetProposalDetails env (uint64 (i + 1)) = Ok pd ∧
        index s' = <[i := length (objs s)]> (index s) ∧
        objs s' = objs s ++ [proposal_of_details pd].
Proof.
  pose proof (NewRocketpoolProposal_spec env (uint64 (i + 1)) (objs s)) as Hnew.
  unfold_monad.
  destruct (NewRocketpoolProposal env (uint64 (i + 1)) (objs s)) as [h [p|e|]];
    simpl in *; intros Heq; inversion Heq; subst; simpl.
  destruct Hnew as (_ & -> & pd & Hpd & ->). eauto.
Qed.

Lemma proposals_loop env l :
  ∀ s s',
    NoDup l →
    for_range (λ i, p <- on_objs (NewRocketpoolProposal env (uint64 (i + 1))) ;;
                    map_assign i p) l s = (s', Ok tt) →
    take (length (objs s)) (objs s') = objs s ∧
    (∀ k, k ∉ l → index s' !! k = index s !! k) ∧
    (∀ i, i ∈ l →
       ∃ pd, GetProposalDetails env (uint64 (i + 1)) = Ok pd ∧
             entity s' i = Some (proposal_of_details pd)).
Proof.
  induction l as [|a l IH]; intros s s' Hnd; simpl.
  - unfold ret. intros [= <-]. split; [by rewrite take_ge|].
    split; [done|]. intros i Hi. by apply elem_of_nil in Hi.
  - unfold bind at 1.
    destruct ((p <- on_objs (NewRocketpoolProposal env (uint64 (a + 1))) ;;
               map_assign a p) s) as [s1 [[]|e|]] eqn:Hstep; try done.
    apply proposal_step in Hstep as (pd & Hpd & Hidx & Hobjs).
    apply NoDup_cons in Hnd as [Hnotin Hnd].
    intros Hrest. destruct (IH s1 s' Hnd Hrest) as (Htake & Hother & Hin).
    assert (take (length (objs s)) (objs s1) = objs s) as Htake1.
    { rewrite Hobjs. apply take_app_length. }
    split; [by eapply prefix_trans|]. split.
    + intros k Hk. apply not_elem_of_cons in Hk as [Hne Hk].
      rewrite Hother by done. rewrite Hidx. by rewrite lookup_insert_ne.
    + intros i Hi. apply elem_of_cons in Hi as [->|Hi]; [|by apply Hin].
      exists pd. split; [done|]. unfold entity.
      rewrite Hother by done. rewrite Hidx, lookup_insert_eq. simpl.
      eapply prefix_lookup; [exact Htake|]. rewrite Hobjs. apply lookup_snoc.
Qed.

(** X2.  A successful run of the proposal synchronizer on a chain with
    [pc] proposals: under every key [i] from [0] to [pc - 1] the cache now
    holds a freshly created proposal filled from the details read for the
    id [i + 1]; keys outside that range keep their pointer; and the
    proposals that were on the heap are still there unchanged (an existing
    entry is replaced, never refreshed in place). *)
Theorem UpdateProposals_refills_from_the_chain env s s' pc :
  GetProposalCount env = Ok pc →
  pc < 2 ^ 64 →
  UpdateProposals env s = (s', Ok tt) →
  take (length (objs s)) (objs s') = objs s ∧
  (∀ k, ¬ (0 ≤ k < pc) → index s' !! k = index s !! k) ∧
  (∀ i, 0 ≤ i < pc →
     ∃ pd, GetProposalDetails env (i + 1) = Ok pd ∧
           entity s' i = Some (proposal_of_details pd)).
Proof.
  intros Hpc Hrange. unfold UpdateProposals, bind at 1, call. rewrite Hpc.
  intros Hloop. apply proposals_loop in Hloop as (Htake & Hother & Hin);
    [|apply NoDup_seqZ].
  split; [done|]. split.
  - intros k Hk. apply Hother. rewrite elem_of_seqZ. lia.
  - intros i Hi. destruct (Hin i) as (pd & Hpd & He); [rewrite elem_of_seqZ; lia|].
    exists pd. split; [|done]. rewrite <- Hpd. f_equal. unfold uint64.
    rewrite Z.mod_small; lia.
Qed.

Lemma UpdateProposals_refills_from_the_chain_witness :
  let env := Stub.env [] [] 3 (Stub.at_time 0) (Stub.staked 0) Stub.no_fault [] in
  let s' := (UpdateProposals env empty_Store).1 in
  (∀ i, 0 ≤ i < 3 →
     ∃ pd, GetProposalDetails env (i + 1) = Ok pd ∧
           entity s' i = Some (proposal_of_details pd)).
Proof.
  intros env s'.
  apply (UpdateProposals_refills_from_the_chain env empty_Store s' 3).
  - reflexivity.
  - reflexivity.
  - vm_compute. reflexivity.
Defined.

(** ** What a successful refresh establishes *)

Lemma for_range_establishes {S A K} (key : A → K) (R : S → K → Prop)
    (body : A → M S unit) l :
  (∀ a s1 s2 k, body a s1 = (s2, Ok tt) → R s1 k → R s2 k) →
  (∀ a s1 s2, body a s1 = (s2, Ok tt) → R s2 (key a)) →
  ∀ s s', for_range body l s = (s', Ok tt) →
          (∀ k, R s k → R s' k) ∧ ∀ a, a ∈ l → R s' (key a).
Proof.
  intros Hkeep Hmake. induction l as [|a l IH]; intros s s'; simpl.
  - unfold ret. intros [= <-]. split; [done|].
    intros a Ha. by apply elem_of_nil in Ha.
  - unfold bind. destruct (body a s) as [s1 [[]|e|]] eqn:Hb; try done.
    intros Hrest. destruct (IH _ _ Hrest) as [Hk Hl]. split.
    + intros k Hr. apply Hk. by eapply Hkeep.
    + intros a' Ha'. apply elem_of_cons in Ha' as [->|Ha']; [|by apply Hl].
      apply Hk. by eapply Hmake.
Qed.

Lemma minipool_body_Ok Hex env a s s' :
  minipool_body Hex env a s = (s', Ok tt) →
  match index s !! Hex a with
  | Some p =>
      ∃ self,
        objs s !! p = Some self ∧ index s' = index s ∧
        ∃ status statusTime,
          GetStatus env (BytesToAddress (mp_Address self)) = Ok status ∧
          GetStatusTime env (BytesToAddress (mp_Address self)) = Ok statusTime ∧
          objs s' = <[p := set_minipool_status (MinipoolStatus_String status)
                             statusTime self]> (objs s)
  | None =>
      ∃ mp, index s' = <[Hex a := length (objs s)]> (index s) ∧
            objs s' = objs s ++ [mp] ∧ mp_Address mp = Address_Bytes a ∧
            minipool_refreshed env mp
  end.
Proof.
  unfold minipool_body. unfold_monad.
  destruct (index s !! Hex a) as [p|] eqn:Hp.
  - destruct (objs s !! p) as [self|] eqn:Hself.
    + pose proof (RocketpoolMinipool_Update_spec env p (objs s) self Hself) as HU.
      simpl in HU.
      destruct (RocketpoolMinipool_Update env p (objs s)) as [h [[]|e|]];
        intros Heq; inversion Heq; subst; simpl.
      destruct HU as (st & t & _ & Hst & Ht & ->). eauto 10.
    + unfold RocketpoolMinipool_Update. unfold_monad. rewrite Hself. done.
  - pose proof (NewRocketpoolMinipool_spec env (Address_Bytes a) (objs s)) as HN.
    simpl in HN.
    destruct (NewRocketpoolMinipool env _ (objs s)) as [h [p|e|]];
      intros Heq; inversion Heq; subst; simpl in *.
    destruct HN as (_ & -> & pubk & na & nf & dt & st & t & _ & _ & _ & _ & Hst & Ht & ->).
    eexists. split; [done|]. split; [done|]. split; [done|].
    exists st, t. simpl. done.
Qed.

Lemma node_body_Ok Hex env a s s' :
  node_body Hex env a s = (s', Ok tt) →
  match index s !! Hex a with
  | Some p =>
      ∃ self,
        objs s !! p = Some self ∧ index s' = index s ∧
        ∃ stake minStake maxStake,
          GetNodeRPLStake env (BytesToAddress (node_Address self)) = Ok stake ∧
          GetNodeMinimumRPLStake env (BytesToAddress (node_Address self)) = Ok minStake ∧
          GetNodeMaximumRPLStake env (BytesToAddress (node_Address self)) = Ok maxStake ∧
          objs s' = <[p := set_node_stakes stake minStake maxStake self]> (objs s)
  | None =>
      ∃ n, index s' = <[Hex a := length (objs s)]> (index s) ∧
           objs s' = objs s ++ [n] ∧ node_Address n = Address_Bytes a ∧
           node_refreshed env n
  end.
Proof.
  unfold node_body. unfold_monad.
  destruct (index s !! Hex a) as [p|] eqn:Hp.
  - destruct (objs s !! p) as [self|] eqn:Hself.
    + pose proof (RocketpoolNode_Update_spec env p (objs s) self Hself) as HU.
      simpl in HU.
      destruct (RocketpoolNode_Update env p (objs s)) as [h [[]|e|]];
        intros Heq; inversion Heq; subst; simpl.
      destruct HU as (s0 & s1 & s2 & H0 & H1 & H2 & ->). eauto 10.
    + unfold RocketpoolNode_Update. unfold_monad. rewrite Hself. done.
  - pose proof (NewRocketpoolNode_spec env (Address_Bytes a) (objs s)) as HN.
    simpl in HN.
    destruct (NewRocketpoolNode env _ (objs s)) as [h [p|e|]];
      intros Heq; inversion Heq; subst; simpl in *.
    destruct HN as (_ & -> & tl & s0 & s1 & s2 & _ & H0 & H1 & H2 & ->).
    eexists. split; [done|]. split; [done|]. split; [done|].
    exists s0, s1, s2. simpl. done.
Qed.

Lemma minipool_body_keeps Hex env a s s' k :
  minipool_body Hex env a s = (s', Ok tt) →
  (∃ mp, entity s k = Some mp ∧ minipool_refreshed env mp) →
  ∃ mp, entity s' k = Some mp ∧ minipool_refreshed env mp.
Proof.
  intros Hb (mp & He & Hr). apply minipool_body_Ok in Hb.
  unfold entity in *.
  destruct (index s !! k) as [q|] eqn:Hq; simpl in He; [|done].
  destruct (index s !! Hex a) as [p|] eqn:Hp.
  - destruct Hb as (self & Hself & -> & st & t & Hst & Ht & ->).
    rewrite Hq. simpl. destruct (decide (q = p)) as [->|Hne].
    + rewrite list_lookup_insert_eq by (by eapply lookup_lt_Some). eexists.
      split; [done|]. exists st, t. simpl. done.
    + rewrite list_lookup_insert_ne by done. eauto.
  - destruct Hb as (new & -> & -> & _ & _).
    rewrite lookup_insert_ne by congruence. rewrite Hq. simpl.
    exists mp. split; [by apply lookup_app_l_Some|done].
Qed.

Lemma minipool_body_makes Hex env a s s' :
  minipool_body Hex env a s = (s', Ok tt) →
  ∃ mp, entity s' (Hex a) = Some mp ∧ minipool_refreshed env mp.
Proof.
  intros Hb. apply minipool_body_Ok in Hb. unfold entity.
  destruct (index s !! Hex a) as [p|] eqn:Hp.
  - destruct Hb as (self & Hself & -> & st & t & Hst & Ht & ->).
    rewrite Hp. simpl.
    rewrite list_lookup_insert_eq by (by eapply lookup_lt_Some). eexists.
    split; [done|]. exists st, t. simpl. done.
  - destruct Hb as (new & -> & -> & _ & Hr).
    rewrite lookup_insert_eq. simpl. rewrite lookup_snoc. eauto.
Qed.

Lemma node_body_keeps Hex env a s s' k :
  node_body Hex env a s = (s', Ok tt) →
  (∃ n, entity s k = Some n ∧ node_refreshed env n) →
  ∃ n, entity s' k = Some n ∧ node_refreshed env n.
Proof.
  intros Hb (n & He & Hr). apply node_body_Ok in Hb.
  unfold entity in *.
  destruct (index s !! k) as [q|] eqn:Hq; simpl in He; [|done].
  destruct (index s !! Hex a) as [p|] eqn:Hp.
  - destruct Hb as (self & Hself & -> & s0 & s1 & s2 & H0 & H1 & H2 & ->).
    rewrite Hq. simpl. destruct (decide (q = p)) as [->|Hne].
    + rewrite list_lookup_insert_eq by (by eapply lookup_lt_Some). eexists.
      split; [done|]. exists s0, s1, s2. simpl. done.
    + rewrite list_lookup_insert_ne by done. eauto.
  - destruct Hb as (new & -> & -> & _ & _).
    rewrite lookup_insert_ne by congruence. rewrite Hq. simpl.
    exists n. split; [by apply lookup_app_l_Some|done].
Qed.

Lemma node_body_makes Hex env a s s' :
  node_body Hex env a s = (s', Ok tt) →
  ∃ n, entity s' (Hex a) = Some n ∧ node_refreshed env n.
Proof.
  intros Hb. apply node_body_Ok in Hb. unfold entity.
  destruct (index s !! Hex a) as [p|] eqn:Hp.
  - destruct Hb as (self & Hself & -> & s0 & s1 & s2 & H0 & H1 & H2 & ->).
    rewrite Hp. simpl.
    rewrite list_lookup_insert_eq by (by eapply lookup_lt_Some). eexists.
    split; [done|]. exists s0, s1, s2. simpl. done.
  - destruct Hb as (new & -> & -> & _ & Hr).
    rewrite lookup_insert_eq. simpl. rewrite lookup_snoc. eauto.
Qed.

(** X3.  After a successful refresh of the minipools, or of the nodes,
    every listed address leads (under its [Hex] key) to an entity whose
    mutable attributes are the values the chain reports for the address
    that entity carries: status and status time for a minipool, the three
    stakes for a node.  This holds for entries created in the cycle and
    for entries refreshed in place alike. *)
Theorem successful_refresh_reflects_the_chain Hex env :
  (∀ s s' addrs,
     GetMinipoolAddresses env = Ok addrs →
     UpdateMinipools Hex env s = (s', Ok tt) →
     ∀ a, a ∈ addrs →
          ∃ mp, entity s' (Hex a) = Some mp ∧ minipool_refreshed env mp) ∧
  (∀ s s' addrs,
     GetNodeAddresses env = Ok addrs →
     UpdateNodes Hex env s = (s', Ok tt) →
     ∀ a, a ∈ addrs →
          ∃ n, entity s' (Hex a) = Some n ∧ node_refreshed env n).
Proof.
  split; intros s s' addrs Hlist.
  - unfold UpdateMinipools, bind at 1, call. rewrite Hlist. intros Hloop.
    eapply (for_range_establishes Hex
              (λ s k, ∃ mp, entity s k = Some mp ∧ minipool_refreshed env mp))
      in Hloop as [_ H]; [exact H| |].
    + intros. by eapply minipool_body_keeps.
    + intros. by eapply minipool_body_makes.
  - unfold UpdateNodes, bind at 1, call. rewrite Hlist. intros Hloop.
    eapply (for_range_establishes Hex
              (λ s k, ∃ n, entity s k = Some n ∧ node_refreshed env n))
      in Hloop as [_ H]; [exact H| |].
    + intros. by eapply node_body_keeps.
    + intros. by eapply node_body_makes.
Qed.

Lemma successful_refresh_reflects_the_chain_witness :
  let addrs := [Stub.addr x01; Stub.addr x02] in
  let env := Stub.env addrs [] 0 (Stub.at_time 1700000000) (Stub.staked 0)
               Stub.no_fault [] in
  let s := Stub.single (Stub.Hex (Stub.addr x01))
             (Stub.minipool x01 "Prelaunch" 1600000000) in
  ∃ mp, entity (UpdateMinipools Stub.Hex env s).1 (Stub.Hex (Stub.addr x01)) = Some mp ∧
        minipool_refreshed env mp.
Proof.
  intros addrs env s.
  apply (proj1 (successful_refresh_reflects_the_chain Stub.Hex env) s _ addrs).
  - reflexivity.
  - vm_compute. reflexivity.
  - left.
Defined.

(** ** Keys under any outcome *)

Lemma for_range_preserves_in {S A} (R : S → S → Prop) (body : A → M S unit) l :
  (∀ s, R s s) → (∀ s1 s2 s3, R s1 s2 → R s2 s3 → R s1 s3) →
  (∀ a, a ∈ l → ∀ s, R s (body a s).1) →
  ∀ s, R s (for_range body l s).1.
Proof.
  intros Hrefl Htrans. induction l as [|a l IH]; intros Hbody s; simpl.
  - apply Hrefl.
  - unfold bind. pose proof (Hbody a (list_elem_of_here _ _) s) as Ha.
    destruct (body a s) as [s1 [[]|e|]]; simpl in *; auto.
    eapply Htrans; [exact Ha|]. apply IH. intros a' Ha'. apply Hbody. by right.
Qed.

Lemma grows_within_refl {K} `{Countable K} {T} (L : gset K) (s : Store K T) :
  grows_within L s s.
Proof. unfold grows_within. set_solver. Qed.

Lemma grows_within_trans {K} `{Countable K} {T} (L : gset K) (s1 s2 s3 : Store K T) :
  grows_within L s1 s2 → grows_within L s2 s3 → grows_within L s1 s3.
Proof. unfold grows_within. set_solver. Qed.

Lemma grows_within_same {K} `{Countable K} {T} (L : gset K) (s s' : Store K T) :
  index s' = index s → grows_within L s s'.
Proof. unfold grows_within. intros ->. set_solver. Qed.

Lemma on_objs_index {K} `{Countable K} {T A} (m : M (list T) A) (s : Store K T) :
  index (on_objs m s).1 = index s.
Proof. unfold on_objs, zoom. by destruct (m (objs s)). Qed.

Lemma minipool_body_grows Hex env (L : gset string) a s :
  Hex a ∈ L → grows_within L s (minipool_body Hex env a s).1.
Proof.
  intros HL. unfold minipool_body. unfold_monad.
  destruct (index s !! Hex a) as [p|].
  - destruct (RocketpoolMinipool_Update env p (objs s)) as [h r]. simpl.
    by apply grows_within_same.
  - destruct (NewRocketpoolMinipool env _ (objs s)) as [h [p|e|]]; simpl;
      try (by apply grows_within_same).
    unfold grows_within. simpl. rewrite dom_insert_L. set_solver.
Qed.

Lemma node_body_grows Hex env (L : gset string) a s :
  Hex a ∈ L → grows_within L s (node_body Hex env a s).1.
Proof.
  intros HL. unfold node_body. unfold_monad.
  destruct (index s !! Hex a) as [p|].
  - destruct (RocketpoolNode_Update env p (objs s)) as [h r]. simpl.
    by apply grows_within_same.
  - destruct (NewRocketpoolNode env _ (objs s)) as [h [p|e|]]; simpl;
      try (by apply grows_within_same).
    unfold grows_within. simpl. rewrite dom_insert_L. set_solver.
Qed.

Lemma proposal_body_grows env (L : gset Z) i s :
  i ∈ L →
  grows_within L s
    ((p <- on_objs (NewRocketpoolProposal env (uint64 (i + 1))) ;; map_assign i p) s).1.
Proof.
  intros HL. unfold_monad.
  destruct (NewRocketpoolProposal env _ (objs s)) as [h [p|e|]]; simpl;
    try (by apply grows_within_same).
  unfold grows_within. simpl. rewrite dom_insert_L. set_solver.
Qed.

(** X4.  Whatever its outcome, a refresh removes no key from the cache
    and adds no key but those of identifiers the chain listed (the [Hex]
    forms of the listed addresses; the counters below the proposal count).
    When the listing itself fails, the cache is left exactly as it was and
    that failure is the result. *)
Theorem refresh_adds_only_listed_keys Hex env :
  (∀ s, let out := UpdateMinipools Hex env s in
        match GetMinipoolAddresses env with
        | Ok addrs => grows_within (list_to_set (Hex <$> addrs)) s out.1
        | r => out = (s, void r)
        end) ∧
  (∀ s, let out := UpdateNodes Hex env s in
        match GetNodeAddresses env with
        | Ok addrs => grows_within (list_to_set (Hex <$> addrs)) s out.1
        | r => out = (s, void r)
        end) ∧
  (∀ s, let out := UpdateProposals env s in
        match GetProposalCount env with
        | Ok pc => grows_within (list_to_set (seqZ 0 pc)) s out.1
        | r => out = (s, void r)
        end).
Proof.
  split; [|split]; intros s out; subst out.
  - unfold UpdateMinipools, bind, call.
    destruct (GetMinipoolAddresses env) as [addrs|e|]; try done.
    apply for_range_preserves_in;
      eauto using grows_within_refl, grows_within_trans.
    intros a Ha s1. apply minipool_body_grows.
    apply elem_of_list_to_set, list_elem_of_fmap. eauto.
  - unfold UpdateNodes, bind, call.
    destruct (GetNodeAddresses env) as [addrs|e|]; try done.
    apply for_range_preserves_in;
      eauto using grows_within_refl, grows_within_trans.
    intros a Ha s1. apply node_body_grows.
    apply elem_of_list_to_set, list_elem_of_fmap. eauto.
  - unfold UpdateProposals, bind at 1, call.
    destruct (GetProposalCount env) as [pc|e|]; try done.
    apply (for_range_preserves_in (grows_within (list_to_set (seqZ 0 pc))));
      eauto using grows_within_refl, grows_within_trans.
    intros i Hi s1. apply proposal_body_grows. by apply elem_of_list_to_set.
Qed.

(** ** The refresh step as a whole *)

Lemma errgroup_Wait_all_Ok rs :
  Forall (λ r, r = Ok tt) rs → errgroup_Wait rs = Ok tt.
Proof.
  unfold errgroup_Wait. intros Hall.
  assert (existsb (λ r : result unit, match r with Panic => true | _ => false end) rs
          = false) as ->.
  { induction Hall as [|r rs -> _ IH]; simpl; done. }
  induction Hall as [|r rs -> _ IH]; simpl; done.
Qed.

Lemma errgroup_Wait_in rs :
  errgroup_Wait rs = Ok tt ∨ errgroup_Wait rs ∈ rs.
Proof.
  unfold errgroup_Wait.
  destruct (existsb _ rs) eqn:Hex.
  - right. apply existsb_exists in Hex as (r & Hin & Hr).
    destruct r; try done. by apply list_elem_of_In.
  - clear Hex. induction rs as [|[[]|e|] rs IH]; simpl.
    + by left.
    + destruct IH as [IH|IH]; [by left|right; by right].
    + right. left.
    + right. left.
Qed.

(** X5.  The refresh step runs the three synchronizers to completion,
    each on its own cache: the cache of every kind afterwards is what its
    own synchronizer made of it, whether or not another kind failed, and
    the database is not touched.  The step succeeds exactly when all three
    succeed; otherwise its result is the failure of one of them. *)
Theorem Update_joins_three_independent_tasks Hex env w :
  let m := UpdateMinipools Hex env (minipools w) in
  let n := UpdateNodes Hex env (nodes w) in
  let p := UpdateProposals env (proposals w) in
  let out := Update Hex env w in
  out.1 = {| minipools := m.1; nodes := n.1; proposals := p.1; db := db w |} ∧
  match m.2, n.2, p.2 with
  | Ok _, Ok _, Ok _ => out.2 = Ok tt
  | _, _, _ => out.2 ≠ Ok tt ∧ out.2 ∈ [m.2; n.2; p.2]
  end.
Proof.
  intros m n p out. subst out m n p.
  unfold Update, on_minipools, on_nodes, on_proposals, zoom.
  destruct (UpdateMinipools Hex env (minipools w)) as [s1 r1]. simpl.
  destruct (UpdateNodes Hex env (nodes w)) as [s2 r2]. simpl.
  destruct (UpdateProposals env (proposals w)) as [s3 r3]. simpl.
  split; [done|].
  set (task := λ k, match k with Minipools => r1 | Nodes => r2 | Proposals => r3 end).
  set (rs := (task <$> completion_order env) ++ [r1; r2; r3]).
  assert (∀ r, r ∈ rs → r ∈ [r1; r2; r3]) as Hsub.
  { intros r Hr. apply elem_of_app in Hr as [Hr|Hr]; [|done].
    apply list_elem_of_fmap in Hr as (k & -> & _).
    rewrite !elem_of_cons. destruct k; simpl; auto. }
  assert (r1 ∈ rs ∧ r2 ∈ rs ∧ r3 ∈ rs) as (Hi1 & Hi2 & Hi3).
  { subst rs. rewrite !elem_of_app, !elem_of_cons. auto 10. }
  assert (∀ r, r ∈ rs → r ≠ Ok tt → errgroup_Wait rs ≠ Ok tt ∧
                                     errgroup_Wait rs ∈ [r1; r2; r3]) as Hfail.
  { intros r Hr Hne.
    assert (errgroup_Wait rs ≠ Ok tt) as Hno.
    { intros Hok. apply errgroup_Wait_Ok in Hok.
      rewrite Forall_forall in Hok. by apply Hne, Hok. }
    split; [done|]. destruct (errgroup_Wait_in rs) as [?|Hin]; [done|].
    by apply Hsub. }
  destruct r1 as [[]|e1|]; try (by apply (Hfail _ Hi1)).
  destruct r2 as [[]|e2|]; try (by apply (Hfail _ Hi2)).
  destruct r3 as [[]|e3|]; try (by apply (Hfail _ Hi3)).
  apply errgroup_Wait_all_Ok. rewrite Forall_forall. intros r Hr.
  apply Hsub in Hr. rewrite !elem_of_cons, elem_of_nil in Hr. naive_solver.
Qed.

(** ** What a successful save writes *)

Lemma mapM_app_Some {A B} (f : A → option B) l1 l2 k1 k2 :
  mapM f l1 = Some k1 → mapM f l2 = Some k2 → mapM f (l1 ++ l2) = Some (k1 ++ k2).
Proof.
  rewrite !mapM_Some. apply Forall2_app.
Qed.

Section SavedRows.
Variable env : Env.
Context {T : Type}.
Variable u : Upsert.
Variable nArgs : nat.
Variable args_of : T → list SqlValue.
Hypothesis Hcols : length (columns u) = nArgs.
Hypothesis Hargs : ∀ d, length (args_of d) = nArgs.

Lemma tx_Exec_Ok values args tx tx' d d' :
  tx_Exec env u values args tx d = (d', Ok tx') →
  exec_upsert u values args tx = Some tx'.
Proof.
  unfold tx_Exec, db_call. unfold_monad.
  destruct (db_fault env _); [done|].
  destruct (exec_upsert u values args tx); [|done]. by intros [= _ ->].
Qed.

Lemma batch_loop_tx B heap data :
  (0 < B)%nat →
  ∀ fuel b tx d d' tx' tbl,
    (length data ≤ fuel + b)%nat →
    batch_loop env u nArgs args_of fuel B heap data b tx d = (d', Ok tx') →
    tx !! into u = Some tbl →
    ∃ ds : list T,
      mapM (λ p, heap !! p) (drop b data) = Some ds ∧
      tx' = <[into u := upserted u args_of tbl ds]> tx.
Proof.
  intros HB. induction fuel as [|fuel IH]; intros b tx d d' tx' tbl Hfuel; simpl;
    destruct (decide (b < length data)%nat) as [Hlt|Hge]; try lia.
  - unfold ret. intros [= _ <-] Htbl. exists []. rewrite drop_ge by lia.
    split; [done|]. unfold upserted. simpl. by rewrite insert_id.
  - unfold bind at 1. unfold call.
    destruct (batch_args nArgs args_of heap 0 _) as [batch|e|] eqn:Hbatch; [|done..].
    unfold bind.
    destruct (tx_Exec env u batch.1 batch.2 tx d) as [d1 [tx1|e|]] eqn:Hexec;
      [|done..].
    intros Hrest Htbl. apply tx_Exec_Ok in Hexec.
    destruct (exec_upsert_batch u nArgs args_of Hcols Hargs heap _ batch tx tbl
                Hbatch Htbl) as (ds1 & Hds1 & Hexec').
    rewrite Hexec in Hexec'. injection Hexec' as ->.
    eapply IH in Hrest as (ds2 & Hds2 & ->); [| lia | apply lookup_insert_eq].
    exists (ds1 ++ ds2). split.
    + assert (drop b data =
              take ((if decide (length data < b + B)%nat
                     then length data else (b + B)%nat) - b) (drop b data) ++
              drop (b + B) data) as ->.
      { destruct (decide (length data < b + B)%nat).
        - rewrite (drop_ge data (b + B)) by lia. rewrite app_nil_r.
          rewrite take_ge; [done|]. rewrite length_drop. lia.
        - replace (b + B - b)%nat with B by lia.
          rewrite <- drop_drop. by rewrite take_drop. }
      by apply mapM_app_Some.
    + rewrite insert_insert_eq. f_equal. unfold upserted.
      by rewrite fmap_app, foldl_app.
  - unfold ret. intros [= _ <-] Htbl. exists []. rewrite drop_ge by lia.
    split; [done|]. unfold upserted. simpl. by rewrite insert_id.
Qed.

Lemma upsert_in_batches_tables B heap data d d' tbl :
  (0 < B)%nat →
  upsert_in_batches env u nArgs args_of B heap data d = (d', Ok tt) →
  tables d !! into u = Some tbl →
  ∃ ds : list T,
    mapM (λ p, heap !! p) data = Some ds ∧
    tables d' = <[into u := upserted u args_of tbl ds]> (tables d).
Proof.
  intros HB. unfold upsert_in_batches, Beginx, defer_Rollback, tx_Commit, db_call.
  unfold_monad.
  destruct (db_fault env (length (calls d))); [done|].
  destruct (batch_loop env u nArgs args_of (length data) B heap data 0 (tables d) _)
    as [d1 [tx1|e|]] eqn:Hloop; [|done..].
  destruct (db_fault env (length (calls d1))); [done|].
  intros [= <-] Htbl. simpl.
  eapply batch_loop_tx in Hloop as (ds & Hds & ->); [|done|lia|exact Htbl].
  exists ds. by rewrite drop_0 in Hds.
Qed.

End SavedRows.

Lemma Save_tables_via {T} env (u : Upsert) nArgs (args_of : T → list SqlValue)
    B heap data w tbl :
  length (columns u) = nArgs → (∀ d, length (args_of d) = nArgs) →
  (0 < B)%nat →
  (on_db (upsert_in_batches env u nArgs args_of B heap data) w).2 = Ok tt →
  tables (db w) !! into u = Some tbl →
  ∃ ds : list T,
    mapM (λ p, heap !! p) data = Some ds ∧
    tables (db (on_db (upsert_in_batches env u nArgs args_of B heap data) w).1) =
    <[into u := upserted u args_of tbl ds]> (tables (db w)).
Proof.
  intros Hcols Hargs HB. rewrite on_db_run. simpl.
  destruct (upsert_in_batches env u nArgs args_of B heap data (db w))
    as [d' r] eqn:Hrun. simpl. intros -> Htbl.
  by eapply upsert_in_batches_tables in Hrun.
Qed.

(** X6.  When a save succeeds the committed table is the stored table
    with the row of every cached entity upserted, one entity after the
    other in the order of the save; the batch size does not show in the
    result.  The rows are built from the entities by the argument lists
    of the statement ([minipool_args], [node_args], [proposal_args]) under
    the scope of the environment. *)
Theorem saved_table_is_the_cache_upserted env B w :
  (0 < B)%nat →
  let scope := RocketStorageContract_Address env in
  (∀ tbl,
     tables (db w) !! "rocketpool_minipools"%string = Some tbl →
     (SaveMinipoolsWith env B w).2 = Ok tt →
     ∃ ds, cached (minipools w) = Some ds ∧
           tables (db (SaveMinipoolsWith env B w).1) =
           <["rocketpool_minipools"%string :=
               upserted minipools_upsert (minipool_args scope) tbl ds]>
             (tables (db w))) ∧
  (∀ tbl,
     tables (db w) !! "rocketpool_nodes"%string = Some tbl →
     (SaveNodesWith env B w).2 = Ok tt →
     ∃ ds, cached (nodes w) = Some ds ∧
           tables (db (SaveNodesWith env B w).1) =
           <["rocketpool_nodes"%string :=
               upserted nodes_upsert (node_args scope) tbl ds]>
             (tables (db w))) ∧
  (∀ tbl,
     tables (db w) !! "rocketpool_proposals"%string = Some tbl →
     (SaveProposalsWith env B w).2 = Ok tt →
     ∃ ds, cached (proposals w) = Some ds ∧
           tables (db (SaveProposalsWith env B w).1) =
           <["rocketpool_proposals"%string :=
               upserted proposals_upsert (proposal_args scope) tbl ds]>
             (tables (db w))).
Proof.
  intros HB scope. split; [|split]; intros tbl Htbl.
  - unfold SaveMinipoolsWith, bind, get, cached.
    destruct (decide (size (MinipoolsByAddress w) = 0%nat)) as [H0|Hn0].
    + intros _. apply map_size_empty_inv in H0.
      unfold MinipoolsByAddress in H0. rewrite H0, map_to_list_empty.
      exists []. split; [done|]. simpl. by rewrite insert_id.
    + intros Hok. by eapply (Save_tables_via env minipools_upsert 8) in Hok.
  - unfold SaveNodesWith, bind, get, cached.
    destruct (decide (size (NodesByAddress w) = 0%nat)) as [H0|Hn0].
    + intros _. apply map_size_empty_inv in H0.
      unfold NodesByAddress in H0. rewrite H0, map_to_list_empty.
      exists []. split; [done|]. simpl. by rewrite insert_id.
    + intros Hok. by eapply (Save_tables_via env nodes_upsert 6) in Hok.
  - unfold SaveProposalsWith, bind, get, cached.
    destruct (decide (size (ProposalsByID w) = 0%nat)) as [H0|Hn0].
    + intros _. apply map_size_empty_inv in H0.
      unfold ProposalsByID in H0. rewrite H0, map_to_list_empty.
      exists []. split; [done|]. simpl. by rewrite insert_id.
    + intros Hok. by eapply (Save_tables_via env proposals_upsert 18) in Hok.
Qed.

Lemma saved_table_is_the_cache_upserted_witness :
  let env := Stub.env [] [] 0 (Stub.at_time 0) (Stub.staked 0) Stub.no_fault [] in
  let w := Stub.world (Stub.many_minipools 3) empty_Store empty_Store Stub.empty_db in
  ∃ ds, cached (minipools w) = Some ds ∧
        tables (db (SaveMinipoolsWith env 2 w).1) =
        <["rocketpool_minipools"%string :=
            upserted minipools_upsert
              (minipool_args (RocketStorageContract_Address env)) [] ds]>
          (tables (db w)).
Proof.
  intros env w.
  apply (proj1 (saved_table_is_the_cache_upserted env 2 w ltac:(lia)) []).
  - vm_compute. reflexivity.
  - vm_compute. reflexivity.
Defined.

(** ** Saving twice *)

Section Idempotence.
Variable u : Upsert.

Lemma conflicts_true (a b : Row) :
  conflicts u a b = true ↔ ∀ c, c ∈ on_conflict u → a !! c = b !! c.
Proof.
  unfold conflicts. rewrite forallb_forall. split.
  - intros H c Hc. apply list_elem_of_In in Hc. apply H in Hc.
    by apply bool_decide_eq_true in Hc.
  - intros H c Hc. apply list_elem_of_In in Hc. apply bool_decide_eq_true. auto.
Qed.

Lemma conflicts_refl (a : Row) : conflicts u a a = true.
Proof. by apply conflicts_true. Qed.

Lemma conflicts_trans_l (a b c : Row) :
  conflicts u a b = true → conflicts u a c = conflicts u b c.
Proof.
  intros Hab. rewrite conflicts_true in Hab.
  destruct (conflicts u b c) eqn:Hbc.
  - rewrite conflicts_true in Hbc. apply conflicts_true.
    intros k Hk. rewrite Hab by done. by apply Hbc.
  - destruct (conflicts u a c) eqn:Hac; [|done].
    rewrite conflicts_true in Hac.
    assert (conflicts u b c = true) as Hbc'; [|congruence].
    apply conflicts_true. intros k Hk. rewrite <- Hab by done. by apply Hac.
Qed.

Lemma update_set_key (old new : Row) :
  conflicts u old new = true → conflicts u (update_set u old new) old = true.
Proof.
  intros Hc. rewrite conflicts_true in Hc. apply conflicts_true. intros c Hin.
  rewrite update_set_lookup. case_decide; [symmetry; by apply Hc|done].
Qed.

Lemma update_set_twice (old new : Row) :
  update_set u (update_set u old new) new = update_set u old new.
Proof.
  apply map_eq. intros c. rewrite !update_set_lookup. by case_decide.
Qed.

Lemma update_set_self (r : Row) : update_set u r r = r.
Proof. apply map_eq. intros c. rewrite update_set_lookup. by case_decide. Qed.

Lemma upsert_row_twice (r : Row) tbl :
  upsert_row u r (upsert_row u r tbl) = upsert_row u r tbl.
Proof.
  induction tbl as [|old rest IH]; simpl.
  - by rewrite conflicts_refl, update_set_self.
  - destruct (conflicts u old r) eqn:Hc; simpl.
    + rewrite (conflicts_trans_l _ old r) by (by apply update_set_key).
      by rewrite Hc, update_set_twice.
    + by rewrite Hc, IH.
Qed.

Lemma upsert_row_keeps_absorbed (r r' : Row) tbl :
  upsert_row u r tbl = tbl →
  conflicts u r r' = false →
  upsert_row u r (upsert_row u r' tbl) = upsert_row u r' tbl.
Proof.
  intros Habs Hne. induction tbl as [|old rest IH]; simpl in *; [done|].
  destruct (conflicts u old r) eqn:Hr.
  - injection Habs as Hold.
    destruct (conflicts u old r') eqn:Hr'.
    + rewrite (conflicts_trans_l old r r') in Hr' by done. congruence.
    + simpl. by rewrite Hr, Hold.
  - injection Habs as Hrest.
    destruct (conflicts u old r') eqn:Hr'; simpl.
    + rewrite (conflicts_trans_l _ old r) by (by apply update_set_key).
      by rewrite Hr, Hrest.
    + by rewrite Hr, IH.
Qed.

Lemma foldl_keeps_absorbed (r : Row) rows :
  ∀ tbl,
    upsert_row u r tbl = tbl →
    Forall (λ r', conflicts u r r' = false) rows →
    upsert_row u r (foldl (λ t r, upsert_row u r t) tbl rows) =
    foldl (λ t r, upsert_row u r t) tbl rows.
Proof.
  induction rows as [|r' rows IH]; intros tbl Habs Hall; simpl; [done|].
  apply Forall_cons in Hall as [Hne Hall].
  apply IH; [|done]. by apply upsert_row_keeps_absorbed.
Qed.

Lemma foldl_absorbs_all rows :
  ∀ tbl,
    distinct_keys u rows →
    Forall (λ r, upsert_row u r (foldl (λ t r, upsert_row u r t) tbl rows) =
                 foldl (λ t r, upsert_row u r t) tbl rows) rows.
Proof.
  induction rows as [|r rows IH]; intros tbl Hd; simpl; [constructor|].
  destruct Hd as [Hne Hd]. constructor.
  - apply foldl_keeps_absorbed; [apply upsert_row_twice|done].
  - by apply IH.
Qed.

Lemma foldl_absorbed rows tbl :
  Forall (λ r, upsert_row u r tbl = tbl) rows →
  foldl (λ t r, upsert_row u r t) tbl rows = tbl.
Proof.
  induction 1 as [|r rows Hr _ IH]; simpl; [done|]. by rewrite Hr.
Qed.

Lemma upserted_twice {T} (args_of : T → list SqlValue) tbl ds :
  distinct_keys u ((λ d, entity_row u (args_of d)) <$> ds) →
  upserted u args_of (upserted u args_of tbl ds) ds = upserted u args_of tbl ds.
Proof.
  intros Hd. unfold upserted. apply foldl_absorbed. by apply foldl_absorbs_all.
Qed.

End Idempotence.

Lemma resave_via {T} env env' (u : Upsert) nArgs (args_of : T → list SqlValue)
    B heap data w tbl ds :
  length (columns u) = nArgs → (∀ d, length (args_of d) = nArgs) →
  (0 < B)%nat →
  let w1 := (on_db (upsert_in_batches env u nArgs args_of B heap data) w).1 in
  let out := on_db (upsert_in_batches env' u nArgs args_of B heap data) w1 in
  (on_db (upsert_in_batches env u nArgs args_of B heap data) w).2 = Ok tt →
  tables (db w) !! into u = Some tbl →
  mapM (λ p, heap !! p) data = Some ds →
  distinct_keys u ((λ d, entity_row u (args_of d)) <$> ds) →
  out.2 = Ok tt →
  tables (db out.1) = tables (db w1).
Proof.
  intros Hcols Hargs HB w1 out Hok1 Htbl Hds Hdist Hok2.
  destruct (Save_tables_via env u nArgs args_of B heap data w tbl
              Hcols Hargs HB Hok1 Htbl) as (ds1 & Hds1 & Ht1).
  fold w1 in Ht1. rewrite Hds in Hds1. injection Hds1 as <-.
  assert (tables (db w1) !! into u = Some (upserted u args_of tbl ds)) as Htbl1.
  { rewrite Ht1. apply lookup_insert_eq. }
  destruct (Save_tables_via env' u nArgs args_of B heap data w1 _
              Hcols Hargs HB Hok2 Htbl1) as (ds2 & Hds2 & Ht2).
  fold out in Ht2. rewrite Hds in Hds2. injection Hds2 as <-.
  rewrite Ht2, upserted_twice by done. by apply insert_id.
Qed.

Lemma on_db_caches {A} (m : M Database A) w :
  minipools (on_db m w).1 = minipools w ∧ nodes (on_db m w).1 = nodes w ∧
  proposals (on_db m w).1 = proposals w.
Proof. by rewrite on_db_run. Qed.

Lemma SaveMinipoolsWith_unfold env B w :
  SaveMinipoolsWith env B w =
  if decide (size (index (minipools w)) = 0%nat) then (w, Ok tt)
  else on_db (upsert_in_batches env minipools_upsert 8
                (minipool_args (RocketStorageContract_Address env)) B
                (objs (minipools w)) (map_to_list (index (minipools w))).*2) w.
Proof.
  unfold SaveMinipoolsWith, bind, get, MinipoolsByAddress. by case_decide.
Qed.

Lemma SaveNodesWith_unfold env B w :
  SaveNodesWith env B w =
  if decide (size (index (nodes w)) = 0%nat) then (w, Ok tt)
  else on_db (upsert_in_batches env nodes_upsert 6
                (node_args (RocketStorageContract_Address env)) B
                (objs (nodes w)) (map_to_list (index (nodes w))).*2) w.
Proof.
  unfold SaveNodesWith, bind, get, NodesByAddress. by case_decide.
Qed.

Lemma SaveProposalsWith_unfold env B w :
  SaveProposalsWith env B w =
  if decide (size (index (proposals w)) = 0%nat) then (w, Ok tt)
  else on_db (upsert_in_batches env proposals_upsert 18
                (proposal_args (RocketStorageContract_Address env)) B
                (objs (proposals w)) (map_to_list (index (proposals w))).*2) w.
Proof.
  unfold SaveProposalsWith, bind, get, ProposalsByID. by case_decide.
Qed.

(** X7.  Saving again is a no-op on the tables.  When the rows of the
    cached entities have pairwise distinct primary keys and a save of a
    kind succeeds, a second successful save of the same cache under the
    same scope leaves every committed table exactly as the first one left
    it: no row is added and no column changes. *)
Theorem saving_again_changes_nothing env env' B w :
  (0 < B)%nat →
  RocketStorageContract_Address env' = RocketStorageContract_Address env →
  let scope := RocketStorageContract_Address env in
  (∀ tbl ds,
     tables (db w) !! "rocketpool_minipools"%string = Some tbl →
     cached (minipools w) = Some ds →
     distinct_keys minipools_upsert
       ((λ d, entity_row minipools_upsert (minipool_args scope d)) <$> ds) →
     let w1 := (SaveMinipoolsWith env B w).1 in
     (SaveMinipoolsWith env B w).2 = Ok tt →
     (SaveMinipoolsWith env' B w1).2 = Ok tt →
     tables (db (SaveMinipoolsWith env' B w1).1) = tables (db w1)) ∧
  (∀ tbl ds,
     tables (db w) !! "rocketpool_nodes"%string = Some tbl →
     cached (nodes w) = Some ds →
     distinct_keys nodes_upsert
       ((λ d, entity_row nodes_upsert (node_args scope d)) <$> ds) →
     let w1 := (SaveNodesWith env B w).1 in
     (SaveNodesWith env B w).2 = Ok tt →
     (SaveNodesWith env' B w1).2 = Ok tt →
     tables (db (SaveNodesWith env' B w1).1) = tables (db w1)) ∧
  (∀ tbl ds,
     tables (db w) !! "rocketpool_proposals"%string = Some tbl →
     cached (proposals w) = Some ds →
     distinct_keys proposals_upsert
       ((λ d, entity_row proposals_upsert (proposal_args scope d)) <$> ds) →
     let w1 := (SaveProposalsWith env B w).1 in
     (SaveProposalsWith env B w).2 = Ok tt →
     (SaveProposalsWith env' B w1).2 = Ok tt →
     tables (db (SaveProposalsWith env' B w1).1) = tables (db w1)).
Proof.
  intros HB Hscope scope. split; [|split]; intros tbl ds Htbl Hds Hdist w1; subst w1.
  - rewrite (SaveMinipoolsWith_unfold env B w). fold scope.
    destruct (decide (size (index (minipools w)) = 0%nat)) as [H0|Hn0].
    + simpl. rewrite SaveMinipoolsWith_unfold, decide_True by done. done.
    + set (w1 := (on_db _ w).1). intros Hok1.
      rewrite (SaveMinipoolsWith_unfold env' B w1), Hscope. fold scope.
      destruct (on_db_caches (upsert_in_batches env minipools_upsert 8
                  (minipool_args scope) B (objs (minipools w))
                  (map_to_list (index (minipools w))).*2) w) as (Hm & _ & _).
      fold w1 in Hm. rewrite Hm, decide_False by done. intros Hok2.
      by eapply (resave_via env env' minipools_upsert 8 (minipool_args scope)).
  - rewrite (SaveNodesWith_unfold env B w). fold scope.
    destruct (decide (size (index (nodes w)) = 0%nat)) as [H0|Hn0].
    + simpl. rewrite SaveNodesWith_unfold, decide_True by done. done.
    + set (w1 := (on_db _ w).1). intros Hok1.
      rewrite (SaveNodesWith_unfold env' B w1), Hscope. fold scope.
      destruct (on_db_caches (upsert_in_batches env nodes_upsert 6
                  (node_args scope) B (objs (nodes w))
                  (map_to_list (index (nodes w))).*2) w) as (_ & Hn & _).
      fold w1 in Hn. rewrite Hn, decide_False by done. intros Hok2.
      by eapply (resave_via env env' nodes_upsert 6 (node_args scope)).
  - rewrite (SaveProposalsWith_unfold env B w). fold scope.
    destruct (decide (size (index (proposals w)) = 0%nat)) as [H0|Hn0].
    + simpl. rewrite SaveProposalsWith_unfold, decide_True by done. done.
    + set (w1 := (on_db _ w).1). intros Hok1.
      rewrite (SaveProposalsWith_unfold env' B w1), Hscope. fold scope.
      destruct (on_db_caches (upsert_in_batches env proposals_upsert 18
                  (proposal_args scope) B (objs (proposals w))
                  (map_to_list (index (proposals w))).*2) w) as (_ & _ & Hp).
      fold w1 in Hp. rewrite Hp, decide_False by done. intros Hok2.
      by eapply (resave_via env env' proposals_upsert 18 (proposal_args scope)).
Qed.

Lemma saving_again_changes_nothing_witness :
  let env := Stub.env [] [] 0 (Stub.at_time 0) (Stub.staked 0) Stub.no_fault [] in
  let w := Stub.world (Stub.many_minipools 3) empty_Store empty_Store Stub.empty_db in
  let w1 := (SaveMinipoolsWith env 2 w).1 in
  tables (db (SaveMinipoolsWith env 2 w1).1) = tables (db w1).
Proof.
  intros env w w1.
  eapply (proj1 (saving_again_changes_nothing env env 2 w ltac:(lia) eq_refl) []).
  - vm_compute. reflexivity.
  - vm_compute. reflexivity.
  - vm_compute. repeat constructor.
  - vm_compute. reflexivity.
  - vm_compute. reflexivity.
Defined.

(** ** The initial load in general *)

Lemma for_range_cons_Ok {S A} (body : A → M S unit) a l s s1 :
  body a s = (s1, Ok tt) → for_range body (a :: l) s = for_range body l s1.
Proof. intros Hb. simpl. unfold bind. by rewrite Hb. Qed.

Lemma init_step {K} `{Countable K} {T} (k : K) (p : ptr) (row v : T) (s : Store K T) :
  objs s !! p = Some v →
  (on_objs (store p (λ _, row)) ;;; map_assign k p) s =
  ({| index := <[k := p]> (index s); objs := <[p := row]> (objs s) |}, Ok tt).
Proof. intros Hv. unfold_monad. by rewrite Hv. Qed.

Lemma init_loop {K} `{Countable K} {T} (key : T → K) (p : ptr) rows :
  ∀ (s : Store K T),
    (p < length (objs s))%nat →
    let out := for_range (λ row, on_objs (store p (λ _, row)) ;;;
                                 map_assign (key row) p) rows s in
    out.2 = Ok tt ∧
    objs out.1 = match last rows with
                 | Some row => <[p := row]> (objs s)
                 | None => objs s
                 end ∧
    (∀ row, row ∈ rows → index out.1 !! key row = Some p) ∧
    (∀ k, k ∉ key <$> rows → index out.1 !! k = index s !! k).
Proof.
  induction rows as [|row rows IH]; intros s Hp.
  - simpl. split; [done|]. split; [done|]. split; [|done].
    intros row Hrow. by apply elem_of_nil in Hrow.
  - destruct (lookup_lt_is_Some_2 (objs s) p Hp) as [v Hv].
    set (s1 := {| index := <[key row := p]> (index s);
                  objs := <[p := row]> (objs s) |}).
    rewrite (for_range_cons_Ok _ row rows s s1) by (by eapply init_step).
    assert (p < length (objs s1))%nat as Hp1 by (simpl; by rewrite length_insert).
    destruct (IH s1 Hp1) as (Hok & Hobjs & Hin & Hout). cbv zeta.
    split; [done|]. split; [|split].
    + rewrite Hobjs. simpl. destruct rows as [|r2 rows']; simpl; [done|].
      destruct (last (r2 :: rows')) eqn:Hl; [|by apply last_None in Hl].
      apply list_insert_insert_eq.
    + intros r Hr. apply elem_of_cons in Hr as [->|Hr]; [|by apply Hin].
      destruct (decide (key row ∈ key <$> rows)) as [Hk|Hk].
      * apply list_elem_of_fmap in Hk as (r' & Hkey & Hr'). rewrite Hkey.
        by apply Hin.
      * rewrite Hout by done. simpl. apply lookup_insert_eq.
    + intros k Hk. rewrite fmap_cons in Hk. apply not_elem_of_cons in Hk as [Hne Hk].
      rewrite Hout by done. simpl. by rewrite lookup_insert_ne.
Qed.

Lemma init_spec {K} `{Countable K} {T} (sel : result (list T)) (zero : T)
    (key : T → K) (s : Store K T) out :
  out = (dbRes <- call sel ;;
         p <- on_objs (alloc zero) ;;
         for_range (λ row, on_objs (store p (λ _, row)) ;;;
                           map_assign (key row) p) dbRes) s →
  match sel with
  | Ok rows =>
      out.2 = Ok tt ∧
      objs out.1 = objs s ++ [default zero (last rows)] ∧
      (∀ row, row ∈ rows → index out.1 !! key row = Some (length (objs s))) ∧
      (∀ k, k ∉ key <$> rows → index out.1 !! k = index s !! k)
  | r => out = (s, void r)
  end.
Proof.
  intros ->. destruct sel as [rows|e|]; [|done..].
  set (s0 := {| index := index s; objs := objs s ++ [zero] |}).
  set (out := bind _ _ s).
  assert (out = for_range (λ row, on_objs (store (length (objs s)) (λ _, row)) ;;;
                                  map_assign (key row) (length (objs s))) rows s0)
    as -> by reflexivity.
  assert (length (objs s) < length (objs s0))%nat as Hp.
  { simpl. rewrite length_app. simpl. lia. }
  destruct (init_loop key (length (objs s)) rows s0 Hp) as (Hok & Hobjs & Hin & Hout).
  split; [done|]. split; [|split; [done|]].
  - rewrite Hobjs. simpl. destruct (last rows); simpl; [|done]. apply insert_snoc.
  - intros k Hk. by rewrite Hout.
Qed.

(** X8.  The initial load of a kind, in general.  When the query fails
    the cache is untouched and the failure is returned.  When it returns
    rows, the load succeeds and allocates a single object, the loop
    variable, which ends up holding the last row; the key of every row
    points at that one object, so every loaded key leads to the attributes
    of the last row; keys of no row keep their pointer. *)
Theorem initial_load_points_every_key_at_the_last_row env :
  (∀ s, let out := InitMinipools env s in
        match Select_minipools env with
        | Ok rows =>
            out.2 = Ok tt ∧
            objs out.1 = objs s ++ [default zero_minipool (last rows)] ∧
            (∀ row, row ∈ rows →
               entity out.1 (Sprintf_x (mp_Address row)) = last rows) ∧
            (∀ k, k ∉ (λ row, Sprintf_x (mp_Address row)) <$> rows →
               index out.1 !! k = index s !! k)
        | r => out = (s, void r)
        end) ∧
  (∀ s, let out := InitNodes env s in
        match Select_nodes env with
        | Ok rows =>
            out.2 = Ok tt ∧
            objs out.1 = objs s ++ [default zero_node (last rows)] ∧
            (∀ row, row ∈ rows →
               entity out.1 (Sprintf_x (node_Address row)) = last rows) ∧
            (∀ k, k ∉ (λ row, Sprintf_x (node_Address row)) <$> rows →
               index out.1 !! k = index s !! k)
        | r => out = (s, void r)
        end) ∧
  (∀ s, let out := InitProposals env s in
        match Select_proposals env with
        | Ok rows =>
            out.2 = Ok tt ∧
            objs out.1 = objs s ++ [default (zero_proposal 0) (last rows)] ∧
            (∀ row, row ∈ rows → entity out.1 (prop_ID row) = last rows) ∧
            (∀ k, k ∉ prop_ID <$> rows → index out.1 !! k = index s !! k)
        | r => out = (s, void r)
        end).
Proof.
  assert (∀ {K} `{Countable K} {T} (s s' : Store K T) (zero : T) rows k,
            objs s' = objs s ++ [default zero (last rows)] →
            index s' !! k = Some (length (objs s)) →
            rows ≠ [] → entity s' k = last rows) as Hent.
  { intros K ?? T s s' zero rows k Hobjs Hidx Hne. unfold entity.
    rewrite Hidx. simpl. rewrite Hobjs, lookup_snoc.
    apply last_is_Some in Hne as [row ->]. done. }
  split; [|split]; intros s out; subst out.
  - pose proof (init_spec (Select_minipools env) zero_minipool
                  (λ row, Sprintf_x (mp_Address row)) s
                  (InitMinipools env s) eq_refl) as Hs.
    destruct (Select_minipools env) as [rows|e|]; [|done..].
    destruct Hs as (Hok & Hobjs & Hin & Hout). repeat (split; [done|]).
    split; [|done]. intros row Hrow. eapply Hent; eauto.
    intros ->. by apply elem_of_nil in Hrow.
  - pose proof (init_spec (Select_nodes env) zero_node
                  (λ row, Sprintf_x (node_Address row)) s
                  (InitNodes env s) eq_refl) as Hs.
    destruct (Select_nodes env) as [rows|e|]; [|done..].
    destruct Hs as (Hok & Hobjs & Hin & Hout). repeat (split; [done|]).
    split; [|done]. intros row Hrow. eapply Hent; eauto.
    intros ->. by apply elem_of_nil in Hrow.
  - pose proof (init_spec (Select_proposals env) (zero_proposal 0) prop_ID s
                  (InitProposals env s) eq_refl) as Hs.
    destruct (Select_proposals env) as [rows|e|]; [|done..].
    destruct Hs as (Hok & Hobjs & Hin & Hout). repeat (split; [done|]).
    split; [|done]. intros row Hrow. eapply Hent; eauto.
    intros ->. by apply elem_of_nil in Hrow.
Qed.

(** X9.  [Init] loads minipools, then nodes, then proposals, and stops at
    the first query that fails: the failure is returned, the kinds loaded
    before it keep what was loaded, the failing kind and the later ones
    keep the cache they had.  It succeeds exactly when the three queries
    do, and it never touches the database. *)
Theorem Init_stops_at_the_first_failing_query env w :
  let m := InitMinipools env (minipools w) in
  let n := InitNodes env (nodes w) in
  let p := InitProposals env (proposals w) in
  let out := Init env w in
  match Select_minipools env, Select_nodes env, Select_proposals env with
  | Ok _, Ok _, Ok _ =>
      out = ({| minipools := m.1; nodes := n.1; proposals := p.1; db := db w |},
             Ok tt)
  | Ok _, Ok _, r =>
      out = ({| minipools := m.1; nodes := n.1; proposals := proposals w;
                db := db w |}, void r)
  | Ok _, r, _ =>
      out = ({| minipools := m.1; nodes := nodes w; proposals := proposals w;
                db := db w |}, void r)
  | r, _, _ => out = (w, void r)
  end.
Proof.
  intros m n p out. subst out.
  pose proof (init_spec (Select_minipools env) zero_minipool
                (λ row, Sprintf_x (mp_Address row)) (minipools w) m eq_refl) as Hm.
  pose proof (init_spec (Select_nodes env) zero_node
                (λ row, Sprintf_x (node_Address row)) (nodes w) n eq_refl) as Hn.
  pose proof (init_spec (Select_proposals env) (zero_proposal 0) prop_ID
                (proposals w) p eq_refl) as Hp.
  unfold Init, bind, on_minipools, on_nodes, on_proposals, zoom.
  fold m. destruct m as [sm rm]. simpl in *.
  destruct (Select_minipools env) as [rows1|e|].
  2,3: injection Hm as -> ->; by destruct w.
  destruct Hm as (-> & _). simpl.
  fold n. destruct n as [sn rn]. simpl in *.
  destruct (Select_nodes env) as [rows2|e|].
  2,3: injection Hn as -> ->; done.
  destruct Hn as (-> & _). simpl.
  fold p. destruct p as [sp rp]. simpl in *.
  destruct (Select_proposals env) as [rows3|e|].
  2,3: injection Hp as -> ->; done.
  destruct Hp as (-> & _). done.
Qed.

(** ** Objects the refresh cannot reach *)

Lemma RocketpoolMinipool_Update_other env p h q :
  q ≠ p →
  (RocketpoolMinipool_Update env p h).1 !! q = h !! q ∧
  length (RocketpoolMinipool_Update env p h).1 = length h.
Proof.
  intros Hne. destruct (h !! p) as [self|] eqn:Hself.
  - pose proof (RocketpoolMinipool_Update_spec env p h self Hself) as HU.
    simpl in HU. destruct (RocketpoolMinipool_Update env p h) as [h' [[]|e|]]; simpl.
    + destruct HU as (st & t & _ & _ & _ & ->).
      by rewrite list_lookup_insert_ne, length_insert.
    + by destruct HU as [-> _].
    + by subst.
  - unfold RocketpoolMinipool_Update. unfold_monad. by rewrite Hself.
Qed.

Lemma RocketpoolNode_Update_other env p h q :
  q ≠ p →
  (RocketpoolNode_Update env p h).1 !! q = h !! q ∧
  length (RocketpoolNode_Update env p h).1 = length h.
Proof.
  intros Hne. destruct (h !! p) as [self|] eqn:Hself.
  - pose proof (RocketpoolNode_Update_spec env p h self Hself) as HU.
    simpl in HU. destruct (RocketpoolNode_Update env p h) as [h' [[]|e|]]; simpl.
    + destruct HU as (s0 & s1 & s2 & _ & _ & _ & ->).
      by rewrite list_lookup_insert_ne, length_insert.
    + by destruct HU as [-> _].
    + by subst.
  - unfold RocketpoolNode_Update. unfold_monad. by rewrite Hself.
Qed.

Lemma prefix_length {T} (h h' : list T) :
  take (length h) h' = h → (length h ≤ length h')%nat.
Proof.
  intros Ht. pose proof (f_equal length Ht) as Hl. rewrite length_take in Hl. lia.
Qed.

Lemma prefix_lookup_lt {T} (h h' : list T) q :
  take (length h) h' = h → (q < length h)%nat → h' !! q = h !! q.
Proof.
  intros Ht Hq. rewrite <- (lookup_take_lt h' (length h) q Hq). by rewrite Ht.
Qed.

Lemma minipool_body_out_of_reach Hex env q a s :
  keeps_out_of_reach Hex q s (minipool_body Hex env a s).1.
Proof.
  intros [Hkeys Hq]. unfold minipool_body, out_of_reach. unfold_monad.
  destruct (index s !! Hex a) as [p|] eqn:Hp.
  - assert (q ≠ p) as Hne by (intros ->; by eapply Hkeys).
    destruct (RocketpoolMinipool_Update_other env p (objs s) q Hne) as [Hl Hlen].
    destruct (RocketpoolMinipool_Update env p (objs s)) as [h r]. simpl in *.
    split; [split; [done|lia]|done].
  - pose proof (NewRocketpoolMinipool_spec env (Address_Bytes a) (objs s)) as HN.
    simpl in HN.
    destruct (NewRocketpoolMinipool env _ (objs s)) as [h [p|e|]]; simpl in *;
      destruct HN as [Hpre HN];
      pose proof (prefix_length _ _ Hpre);
      (split; [split; [|lia]|by apply prefix_lookup_lt]); try done.
    destruct HN as [-> _]. intros a'.
    destruct (decide (Hex a' = Hex a)) as [->|Hk].
    + rewrite lookup_insert_eq. intros [= ?]. lia.
    + rewrite lookup_insert_ne by done. apply Hkeys.
Qed.

Lemma node_body_out_of_reach Hex env q a s :
  keeps_out_of_reach Hex q s (node_body Hex env a s).1.
Proof.
  intros [Hkeys Hq]. unfold node_body, out_of_reach. unfold_monad.
  destruct (index s !! Hex a) as [p|] eqn:Hp.
  - assert (q ≠ p) as Hne by (intros ->; by eapply Hkeys).
    destruct (RocketpoolNode_Update_other env p (objs s) q Hne) as [Hl Hlen].
    destruct (RocketpoolNode_Update env p (objs s)) as [h r]. simpl in *.
    split; [split; [done|lia]|done].
  - pose proof (NewRocketpoolNode_spec env (Address_Bytes a) (objs s)) as HN.
    simpl in HN.
    destruct (NewRocketpoolNode env _ (objs s)) as [h [p|e|]]; simpl in *;
      destruct HN as [Hpre HN];
      pose proof (prefix_length _ _ Hpre);
      (split; [split; [|lia]|by apply prefix_lookup_lt]); try done.
    destruct HN as [-> _]. intros a'.
    destruct (decide (Hex a' = Hex a)) as [->|Hk].
    + rewrite lookup_insert_eq. intros [= ?]. lia.
    + rewrite lookup_insert_ne by done. apply Hkeys.
Qed.

Lemma keeps_out_of_reach_refl {T} Hex q (s : Store string T) :
  keeps_out_of_reach Hex q s s.
Proof. by intros ?. Qed.

Lemma keeps_out_of_reach_trans {T} Hex q (s1 s2 s3 : Store string T) :
  keeps_out_of_reach Hex q s1 s2 → keeps_out_of_reach Hex q s2 s3 →
  keeps_out_of_reach Hex q s1 s3.
Proof.
  intros H12 H23 H1. destruct (H12 H1) as [H2 E2]. destruct (H23 H2) as [H3 E3].
  split; [done|congruence].
Qed.

Lemma UpdateMinipools_out_of_reach Hex env q s :
  keeps_out_of_reach Hex q s (UpdateMinipools Hex env s).1.
Proof.
  unfold UpdateMinipools, bind, call.
  destruct (GetMinipoolAddresses env) as [l|e|];
    try apply keeps_out_of_reach_refl.
  apply for_range_preserves;
    eauto using keeps_out_of_reach_refl, keeps_out_of_reach_trans,
      minipool_body_out_of_reach.
Qed.

Lemma UpdateNodes_out_of_reach Hex env q s :
  keeps_out_of_reach Hex q s (UpdateNodes Hex env s).1.
Proof.
  unfold UpdateNodes, bind, call.
  destruct (GetNodeAddresses env) as [l|e|];
    try apply keeps_out_of_reach_refl.
  apply for_range_preserves;
    eauto using keeps_out_of_reach_refl, keeps_out_of_reach_trans,
      node_body_out_of_reach.
Qed.

(** X10.  A refresh of the minipools, or of the nodes, whatever its
    outcome, does not modify an object that no key of [Hex] form leads
    to, and gives no such key to it: the refresh reaches objects only
    through the keys it looks up. *)
Theorem refresh_leaves_unreachable_objects_alone Hex env q :
  (∀ s, out_of_reach Hex q s →
        let s' := (UpdateMinipools Hex env s).1 in
        out_of_reach Hex q s' ∧ objs s' !! q = objs s !! q) ∧
  (∀ s, out_of_reach Hex q s →
        let s' := (UpdateNodes Hex env s).1 in
        out_of_reach Hex q s' ∧ objs s' !! q = objs s !! q).
Proof.
  split; intros s.
  - apply UpdateMinipools_out_of_reach.
  - apply UpdateNodes_out_of_reach.
Qed.

Lemma refresh_leaves_unreachable_objects_alone_witness :
  let env := Stub.env [Stub.addr x01] [] 0 (Stub.at_time 1700000000)
               (Stub.staked 0) Stub.no_fault [] in
  let s := Stub.single (Sprintf_x (Stub.addr x01))
             (Stub.minipool x01 "Prelaunch" 1600000000) in
  let s' := (UpdateMinipools Stub.Hex env s).1 in
  out_of_reach Stub.Hex 0 s' ∧ objs s' !! 0%nat = objs s !! 0%nat.
Proof.
  intros env s.
  apply (proj1 (refresh_leaves_unreachable_objects_alone Stub.Hex env 0) s).
  split.
  - intros a. unfold s, Stub.single. cbn [index].
    rewrite lookup_singleton_ne; [done|]. vm_compute. discriminate.
  - vm_compute. lia.
Defined.

(** ** The keys of the initial load and the keys of the refresh *)

Lemma hex_digit_not_x n : hex_digit n ≠ "x"%char.
Proof. unfold hex_digit. repeat case_match; discriminate. Qed.

Lemma Sprintf_x_not_0x b t : Sprintf_x b ≠ String "0" (String "x" t).
Proof.
  destruct b as [|c b]; simpl; [done|]. intros [= _ Hx _].
  by apply hex_digit_not_x in Hx.
Qed.

Lemma init_then_refresh {T} Hex (sel : result (list T)) (zero : T)
    (addr : T → bytes) (s s0 s1 : Store string T) r0 :
  (∀ a, ∃ t, Hex a = String "0" (String "x" t)) →
  index s = ∅ →
  (s0, r0) = (dbRes <- call sel ;;
              p <- on_objs (alloc zero) ;;
              for_range (λ row, on_objs (store p (λ _, row)) ;;;
                                map_assign (Sprintf_x (addr row)) p) dbRes) s →
  (out_of_reach Hex (length (objs s)) s0 →
   index s0 ⊆ index s1 ∧
   objs s1 !! length (objs s) = objs s0 !! length (objs s)) →
  (∀ a, index s0 !! Hex a = None) ∧
  (∀ k, is_Some (index s0 !! k) → entity s1 k = entity s0 k).
Proof.
  intros Hprefix Hempty Hinit Hrefresh.
  pose proof (init_spec sel zero (λ row, Sprintf_x (addr row)) s (s0, r0) Hinit) as Hs.
  destruct sel as [rows|e|]; simpl in Hs.
  2,3: injection Hs as -> _; rewrite Hempty; split;
         [intros; apply lookup_empty|intros k [p Hp]; by rewrite lookup_empty in Hp].
  destruct Hs as (_ & Hobjs & Hin & Hout).
  assert (∀ k p, index s0 !! k = Some p →
                 p = length (objs s) ∧ ∃ row, k = Sprintf_x (addr row)) as Hkeys.
  { intros k p Hk.
    destruct (decide (k ∈ (λ row, Sprintf_x (addr row)) <$> rows)) as [Hm|Hm].
    - apply list_elem_of_fmap in Hm as (row & -> & Hrow).
      rewrite (Hin row Hrow) in Hk. injection Hk as <-. eauto.
    - rewrite (Hout k Hm), Hempty, lookup_empty in Hk. done. }
  assert (∀ a, index s0 !! Hex a = None) as Hnone.
  { intros a. destruct (index s0 !! Hex a) as [p|] eqn:Hp; [|done].
    destruct (Hkeys _ _ Hp) as (_ & row & Hrow).
    destruct (Hprefix a) as [t Ht]. rewrite Ht in Hrow.
    symmetry in Hrow. by apply Sprintf_x_not_0x in Hrow. }
  split; [done|]. intros k [p Hp].
  destruct (Hkeys _ _ Hp) as (-> & _).
  destruct Hrefresh as [Hsub Hobj].
  { split; [intros a; by rewrite Hnone|]. rewrite Hobjs, length_app. simpl. lia. }
  unfold entity. rewrite (lookup_weaken _ _ _ _ Hp Hsub), Hp. simpl. done.
Qed.

(** X11.  The initial load files an entity under the bare hexadecimal
    digits of its address ([%x]), the refresh looks entities up under
    [a.Hex()], which begins with [0x]; the two never coincide.  So in a
    cache loaded from empty the refresh finds none of the listed
    addresses, and every loaded key still leads to exactly the entity it
    was loaded with after a refresh, whatever the outcome of the
    refresh. *)
Theorem initial_load_and_refresh_disagree_on_keys Hex env :
  (∀ a, ∃ t, Hex a = String "0" (String "x" t)) →
  (∀ b a, Sprintf_x b ≠ Hex a) ∧
  (∀ s, index s = ∅ →
        let s0 := (InitMinipools env s).1 in
        let s1 := (UpdateMinipools Hex env s0).1 in
        (∀ a, index s0 !! Hex a = None) ∧
        (∀ k, is_Some (index s0 !! k) → entity s1 k = entity s0 k)) ∧
  (∀ s, index s = ∅ →
        let s0 := (InitNodes env s).1 in
        let s1 := (UpdateNodes Hex env s0).1 in
        (∀ a, index s0 !! Hex a = None) ∧
        (∀ k, is_Some (index s0 !! k) → entity s1 k = entity s0 k)).
Proof.
  intros Hprefix. split; [|split].
  - intros b a Heq. destruct (Hprefix a) as [t Ht]. rewrite Ht in Heq.
    by apply Sprintf_x_not_0x in Heq.
  - intros s Hempty s0 s1.
    eapply (init_then_refresh Hex (Select_minipools env) zero_minipool mp_Address
              s s0 s1 (InitMinipools env s).2); [done|done|subst s0; symmetry; apply surjective_pairing|].
    intros Hout. split.
    + apply (UpdateMinipools_frame Hex env s0).
    + by apply (UpdateMinipools_out_of_reach Hex env _ s0).
  - intros s Hempty s0 s1.
    eapply (init_then_refresh Hex (Select_nodes env) zero_node node_Address
              s s0 s1 (InitNodes env s).2); [done|done|subst s0; symmetry; apply surjective_pairing|].
    intros Hout. split.
    + apply (UpdateNodes_frame Hex env s0).
    + by apply (UpdateNodes_out_of_reach Hex env _ s0).
Qed.

Lemma initial_load_and_refresh_disagree_on_keys_witness :
  let env := Stub.env [Stub.addr x01] [] 0 (Stub.at_time 1700000000)
               (Stub.staked 0) Stub.no_fault
               [Stub.minipool x01 "Prelaunch" 1600000000] in
  let s0 := (InitMinipools env empty_Store).1 in
  let s1 := (UpdateMinipools Stub.Hex env s0).1 in
  (∀ a, index s0 !! Stub.Hex a = None) ∧
  (∀ k, is_Some (index s0 !! k) → entity s1 k = entity s0 k).
Proof.
  intros env.
  refine (proj1 (proj2 (initial_load_and_refresh_disagree_on_keys Stub.Hex env _))
            empty_Store eq_refl).
  intros a. eexists. reflexivity.
Defined.

(** ** Pointers stay valid *)

Lemma frame_length {T I} (f : T → I) (h h' : list T) :
  frame f h h' → (length h ≤ length h')%nat.
Proof.
  intros Hf. destruct (decide (length h ≤ length h')%nat) as [|Hgt]; [done|].
  destruct (lookup_lt_is_Some_2 h (length h')) as [v Hv]; [lia|].
  destruct (Hf _ _ Hv) as (v' & Hv' & _).
  apply lookup_lt_Some in Hv'. lia.
Qed.

Lemma wf_store_grow {K} `{Countable K} {T} (s : Store K T) (h : list T) :
  wf_store s → (length (objs s) ≤ length h)%nat →
  wf_store (Build_Store (index s) h).
Proof. intros Hwf Hle k p Hk. simpl in *. apply Hwf in Hk. lia. Qed.

Lemma wf_store_assign {K} `{Countable K} {T} (s : Store K T) (h : list T) k p :
  wf_store s → (length (objs s) ≤ length h)%nat → (p < length h)%nat →
  wf_store (Build_Store (<[k := p]> (index s)) h).
Proof.
  intros Hwf Hle Hp k' p' Hk. simpl in *.
  destruct (decide (k' = k)) as [->|Hne].
  - rewrite lookup_insert_eq in Hk. by injection Hk as <-.
  - rewrite lookup_insert_ne in Hk by done. apply Hwf in Hk. lia.
Qed.

Lemma wf_store_empty {K} `{Countable K} {T} : wf_store (empty_Store (K:=K) (T:=T)).
Proof. intros k p Hk. simpl in Hk. by rewrite lookup_empty in Hk. Qed.

Lemma minipool_body_wf Hex env a s :
  wf_store s → wf_store (minipool_body Hex env a s).1.
Proof.
  intros Hwf. unfold minipool_body. unfold_monad.
  destruct (index s !! Hex a) as [p|] eqn:Hp.
  - pose proof (RocketpoolMinipool_Update_frame env p (objs s)) as HU.
    apply frame_length in HU.
    destruct (RocketpoolMinipool_Update env p (objs s)) as [h r]. simpl in *.
    by apply wf_store_grow.
  - pose proof (NewRocketpoolMinipool_spec env (Address_Bytes a) (objs s)) as HN.
    simpl in HN. destruct HN as [Htake HN]. apply prefix_length in Htake.
    destruct (NewRocketpoolMinipool env _ (objs s)) as [h [p|e|]]; simpl in *.
    + destruct HN as (-> & pubk & na & nf & dt & st & t & _ & _ & _ & _ & _ & _ & ->).
      apply wf_store_assign; [done|done|]. rewrite length_app. simpl. lia.
    + by apply wf_store_grow.
    + by apply wf_store_grow.
Qed.

Lemma node_body_wf Hex env a s :
  wf_store s → wf_store (node_body Hex env a s).1.
Proof.
  intros Hwf. unfold node_body. unfold_monad.
  destruct (index s !! Hex a) as [p|] eqn:Hp.
  - pose proof (RocketpoolNode_Update_frame env p (objs s)) as HU.
    apply frame_length in HU.
    destruct (RocketpoolNode_Update env p (objs s)) as [h r]. simpl in *.
    by apply wf_store_grow.
  - pose proof (NewRocketpoolNode_spec env (Address_Bytes a) (objs s)) as HN.
    simpl in HN. destruct HN as [Htake HN]. apply prefix_length in Htake.
    destruct (NewRocketpoolNode env _ (objs s)) as [h [p|e|]]; simpl in *.
    + destruct HN as (-> & tl & s0 & s1 & s2 & _ & _ & _ & _ & ->).
      apply wf_store_assign; [done|done|]. rewrite length_app. simpl. lia.
    + by apply wf_store_grow.
    + by apply wf_store_grow.
Qed.

Lemma proposal_body_wf env i s :
  wf_store s →
  wf_store ((p <- on_objs (NewRocketpoolProposal env (uint64 (i + 1))) ;;
             map_assign i p) s).1.
Proof.
  intros Hwf.
  pose proof (NewRocketpoolProposal_spec env (uint64 (i + 1)) (objs s)) as HN.
  simpl in HN. destruct HN as [Htake HN]. apply prefix_length in Htake.
  unfold_monad.
  destruct (NewRocketpoolProposal env _ (objs s)) as [h [p|e|]]; simpl in *.
  - destruct HN as (-> & pd & _ & ->).
    apply wf_store_assign; [done|done|]. rewrite length_app. simpl. lia.
  - by apply wf_store_grow.
  - by apply wf_store_grow.
Qed.

Lemma for_range_wf {K} `{Countable K} {T A} (body : A → M (Store K T) unit) l :
  (∀ a s, wf_store s → wf_store (body a s).1) →
  ∀ s, wf_store s → wf_store (for_range body l s).1.
Proof.
  intros Hbody s.
  apply (for_range_preserves (λ s s', wf_store s → wf_store s') body l); auto.
Qed.

Lemma UpdateMinipools_wf Hex env s :
  wf_store s → wf_store (UpdateMinipools Hex env s).1.
Proof.
  unfold UpdateMinipools, bind, call.
  destruct (GetMinipoolAddresses env) as [l|e|]; try done.
  apply for_range_wf. apply minipool_body_wf.
Qed.

Lemma UpdateNodes_wf Hex env s :
  wf_store s → wf_store (UpdateNodes Hex env s).1.
Proof.
  unfold UpdateNodes, bind, call.
  destruct (GetNodeAddresses env) as [l|e|]; try done.
  apply for_range_wf. apply node_body_wf.
Qed.

Lemma UpdateProposals_wf env s :
  wf_store s → wf_store (UpdateProposals env s).1.
Proof.
  unfold UpdateProposals, bind at 1, call.
  destruct (GetProposalCount env) as [pc|e|]; try done.
  apply for_range_wf. apply proposal_body_wf.
Qed.

Lemma init_wf {K} `{Countable K} {T} (sel : result (list T)) (zero : T)
    (key : T → K) (s : Store K T) :
  wf_store s →
  wf_store ((dbRes <- call sel ;;
             p <- on_objs (alloc zero) ;;
             for_range (λ row, on_objs (store p (λ _, row)) ;;;
                               map_assign (key row) p) dbRes) s).1.
Proof.
  intros Hwf. unfold bind at 1, call. destruct sel as [rows|e|]; try done.
  unfold bind at 1, on_objs at 1, zoom at 1, alloc. simpl.
  set (p := length (objs s)).
  set (s0 := Build_Store (index s) (objs s ++ [zero])).
  assert (wf_store s0 ∧ (p < length (objs s0))%nat) as Hs0.
  { split.
    - apply wf_store_grow; [done|]. rewrite length_app. lia.
    - simpl. rewrite length_app. simpl. lia. }
  revert Hs0. generalize s0. clear s0 Hwf.
  pose (R := λ s1 s2 : Store K T,
          wf_store s1 ∧ (p < length (objs s1))%nat →
          wf_store s2 ∧ (p < length (objs s2))%nat).
  intros s0 Hs0.
  refine (proj1 (for_range_preserves R _ rows _ _ _ s0 Hs0)).
  - unfold R. intros s1. tauto.
  - unfold R. intros s1 s2 s3. tauto.
  - intros row s1 [Hwf1 Hp1]. unfold_monad.
    destruct (lookup_lt_is_Some_2 (objs s1) p Hp1) as [v Hv].
    rewrite Hv. simpl. rewrite length_insert. split; [|done].
    apply wf_store_assign; rewrite ?length_insert; done.
Qed.

(** X12.  From the constructor on, no pointer of a cache ever dangles: the
    maps of a new exporter are empty, and the initial load and the refresh
    of each kind, whatever their outcome, leave every key pointing to an
    object of the heap when they found it so. *)
Theorem cache_pointers_stay_valid Hex env :
  (∀ d w, NewRocketpoolExporter env d = Ok w → wf_world w) ∧
  (∀ s, wf_store s → wf_store (InitMinipools env s).1) ∧
  (∀ s, wf_store s → wf_store (InitNodes env s).1) ∧
  (∀ s, wf_store s → wf_store (InitProposals env s).1) ∧
  (∀ s, wf_store s → wf_store (UpdateMinipools Hex env s).1) ∧
  (∀ s, wf_store s → wf_store (UpdateNodes Hex env s).1) ∧
  (∀ s, wf_store s → wf_store (UpdateProposals env s).1).
Proof.
  split; [|split; [|split; [|split; [|split; [|split]]]]].
  - intros d w. unfold NewRocketpoolExporter.
    destruct (NewRocketPool env); intros [= <-].
    repeat split; apply wf_store_empty.
  - intros s. apply init_wf.
  - intros s. apply init_wf.
  - intros s. apply init_wf.
  - intros s. apply UpdateMinipools_wf.
  - intros s. apply UpdateNodes_wf.
  - intros s. apply UpdateProposals_wf.
Qed.

Lemma cache_pointers_stay_valid_witness :
  let env := Stub.env [Stub.addr x01] [] 0 (Stub.at_time 1700000000)
               (Stub.staked 0) Stub.no_fault
               [Stub.minipool x01 "Prelaunch" 1600000000] in
  wf_store (UpdateMinipools Stub.Hex env (InitMinipools env empty_Store).1).1.
Proof.
  intros env.
  pose proof (cache_pointers_stay_valid Stub.Hex env) as (_ & Hinit & _ & _ & Hupd & _).
  apply Hupd, Hinit, wf_store_empty.
Defined.

(** ** Nothing panics, the loop goes on *)

Lemma errgroup_Wait_no_panic rs :
  Forall (λ r, r ≠ Panic) rs → errgroup_Wait rs ≠ Panic.
Proof.
  intros Hrs. unfold errgroup_Wait.
  assert (existsb (λ r : result unit, match r with Panic => true | _ => false end) rs
          = false) as ->.
  { induction Hrs as [|[[]|e|] rs Hr _ IH]; simpl; done. }
  induction Hrs as [|[[]|e|] rs Hr _ IH]; simpl; done.
Qed.

Lemma void_no_panic {A} (r : result A) : r ≠ Panic → void r ≠ Panic.
Proof. by destruct r. Qed.

Section NoPanic.
Variable Hex : Address → string.
Variable env : Env.
Hypothesis Hnp : no_panic env.

Lemma RocketpoolMinipool_Update_no_panic p h :
  (p < length h)%nat → (RocketpoolMinipool_Update env p h).2 ≠ Panic.
Proof.
  intros Hp. destruct (lookup_lt_is_Some_2 h p Hp) as [self Hself].
  unfold RocketpoolMinipool_Update. unfold_monad. rewrite Hself.
  set (a := BytesToAddress (mp_Address self)).
  pose proof (np_NewMinipool env Hnp a) as H1.
  pose proof (np_GetStatus env Hnp a) as H2.
  pose proof (np_GetStatusTime env Hnp a) as H3.
  destruct (NewMinipool env a) as [[]|e|]; [|done..].
  assert (errgroup_Wait
            (if status_done_first env
             then [void (GetStatus env a); void (GetStatusTime env a)]
             else [void (GetStatusTime env a); void (GetStatus env a)]) ≠ Panic) as H4.
  { apply errgroup_Wait_no_panic.
    destruct (status_done_first env); repeat constructor; by apply void_no_panic. }
  destruct (errgroup_Wait _) as [[]|e|]; [|done..].
  destruct (GetStatus env a) as [st|e|]; [|done..].
  destruct (GetStatusTime env a) as [t|e|]; [|done..].
  done.
Qed.

Lemma RocketpoolNode_Update_no_panic p h :
  (p < length h)%nat → (RocketpoolNode_Update env p h).2 ≠ Panic.
Proof.
  intros Hp. destruct (lookup_lt_is_Some_2 h p Hp) as [self Hself].
  unfold RocketpoolNode_Update. unfold_monad. rewrite Hself.
  set (a := BytesToAddress (node_Address self)).
  pose proof (np_GetNodeRPLStake env Hnp a) as H1.
  pose proof (np_GetNodeMinimumRPLStake env Hnp a) as H2.
  pose proof (np_GetNodeMaximumRPLStake env Hnp a) as H3.
  destruct (GetNodeRPLStake env a) as [s0|e|]; [|done..].
  destruct (GetNodeMinimumRPLStake env a) as [s1|e|]; [|done..].
  destruct (GetNodeMaximumRPLStake env a) as [s2|e|]; [|done..].
  done.
Qed.

Lemma RocketpoolProposal_Update_no_panic p h :
  (p < length h)%nat → (RocketpoolProposal_Update env p h).2 ≠ Panic.
Proof.
  intros Hp. destruct (lookup_lt_is_Some_2 h p Hp) as [self Hself].
  unfold RocketpoolProposal_Update. unfold_monad. rewrite Hself.
  pose proof (np_GetProposalDetails env Hnp (prop_ID self)) as H1.
  destruct (GetProposalDetails env (prop_ID self)) as [pd|e|]; [|done..].
  done.
Qed.

Lemma NewRocketpoolMinipool_no_panic addr h :
  (NewRocketpoolMinipool env addr h).2 ≠ Panic.
Proof.
  unfold NewRocketpoolMinipool, bind, call, alloc, ret.
  set (a := BytesToAddress addr).
  pose proof (np_GetMinipoolPubkey env Hnp a) as H1.
  pose proof (np_NewMinipool env Hnp a) as H2.
  pose proof (np_GetNodeAddress env Hnp a) as H3.
  pose proof (np_GetNodeFee env Hnp a) as H4.
  pose proof (np_GetDepositType env Hnp a) as H5.
  destruct (GetMinipoolPubkey env a) as [pubk|e|]; [|done..].
  destruct (NewMinipool env a) as [[]|e|]; [|done..].
  destruct (GetNodeAddress env a) as [na|e|]; [|done..].
  destruct (GetNodeFee env a) as [nf|e|]; [|done..].
  destruct (GetDepositType env a) as [dt|e|]; [|done..].
  match goal with
  | |- context [RocketpoolMinipool_Update env (length h) ?h'] =>
      pose proof (RocketpoolMinipool_Update_no_panic (length h) h') as HU;
      destruct (RocketpoolMinipool_Update env (length h) h') as [h'' [[]|e|]]
  end; simpl in *; try done.
  exfalso. apply HU; [|done]. rewrite length_app. simpl. lia.
Qed.

Lemma NewRocketpoolNode_no_panic addr h :
  (NewRocketpoolNode env addr h).2 ≠ Panic.
Proof.
  unfold NewRocketpoolNode, bind, call, alloc, ret, store.
  rewrite lookup_snoc.
  pose proof (np_GetNodeTimezoneLocation env Hnp (BytesToAddress addr)) as H1.
  destruct (GetNodeTimezoneLocation env (BytesToAddress addr)) as [tl|e|]; [|done..].
  match goal with
  | |- context [RocketpoolNode_Update env (length h) ?h'] =>
      pose proof (RocketpoolNode_Update_no_panic (length h) h') as HU;
      destruct (RocketpoolNode_Update env (length h) h') as [h'' [[]|e|]]
  end; simpl in *; try done.
  exfalso. apply HU; [|done]. rewrite length_insert, length_app. simpl. lia.
Qed.

Lemma NewRocketpoolProposal_no_panic pid h :
  (NewRocketpoolProposal env pid h).2 ≠ Panic.
Proof.
  unfold NewRocketpoolProposal, bind, call, alloc, ret.
  match goal with
  | |- context [RocketpoolProposal_Update env (length h) ?h'] =>
      pose proof (RocketpoolProposal_Update_no_panic (length h) h') as HU;
      destruct (RocketpoolProposal_Update env (length h) h') as [h'' [[]|e|]]
  end; simpl in *; try done.
  exfalso. apply HU; [|done]. rewrite length_app. simpl. lia.
Qed.

Lemma for_range_no_panic {K} `{Countable K} {T A} (body : A → M (Store K T) unit) l :
  (∀ a s, wf_store s → wf_store (body a s).1 ∧ (body a s).2 ≠ Panic) →
  ∀ s, wf_store s → (for_range body l s).2 ≠ Panic.
Proof.
  intros Hbody. induction l as [|a l IH]; intros s Hwf; simpl; [done|].
  unfold bind. destruct (Hbody a s Hwf) as [Hwf1 Hr].
  destruct (body a s) as [s1 [[]|e|]]; simpl in *; try done. by apply IH.
Qed.

Lemma minipool_body_no_panic a s :
  wf_store s → (minipool_body Hex env a s).2 ≠ Panic.
Proof.
  intros Hwf. unfold minipool_body. unfold_monad.
  destruct (index s !! Hex a) as [p|] eqn:Hp.
  - pose proof (RocketpoolMinipool_Update_no_panic p (objs s) (Hwf _ _ Hp)) as HU.
    by destruct (RocketpoolMinipool_Update env p (objs s)) as [h r].
  - pose proof (NewRocketpoolMinipool_no_panic (Address_Bytes a) (objs s)) as HN.
    by destruct (NewRocketpoolMinipool env _ (objs s)) as [h [p|e|]].
Qed.

Lemma node_body_no_panic a s :
  wf_store s → (node_body Hex env a s).2 ≠ Panic.
Proof.
  intros Hwf. unfold node_body. unfold_monad.
  destruct (index s !! Hex a) as [p|] eqn:Hp.
  - pose proof (RocketpoolNode_Update_no_panic p (objs s) (Hwf _ _ Hp)) as HU.
    by destruct (RocketpoolNode_Update env p (objs s)) as [h r].
  - pose proof (NewRocketpoolNode_no_panic (Address_Bytes a) (objs s)) as HN.
    by destruct (NewRocketpoolNode env _ (objs s)) as [h [p|e|]].
Qed.

Lemma proposal_body_no_panic i s :
  ((p <- on_objs (NewRocketpoolProposal env (uint64 (i + 1))) ;;
    map_assign i p) s).2 ≠ Panic.
Proof.
  pose proof (NewRocketpoolProposal_no_panic (uint64 (i + 1)) (objs s)) as HN.
  unfold_monad.
  by destruct (NewRocketpoolProposal env _ (objs s)) as [h [p|e|]].
Qed.

Lemma UpdateMinipools_no_panic s :
  wf_store s → (UpdateMinipools Hex env s).2 ≠ Panic.
Proof.
  unfold UpdateMinipools, bind, call.
  pose proof (np_GetMinipoolAddresses env Hnp) as H1.
  destruct (GetMinipoolAddresses env) as [l|e|]; try done.
  apply for_range_no_panic. intros a s1 Hwf1.
  split; [by apply minipool_body_wf|by apply minipool_body_no_panic].
Qed.

Lemma UpdateNodes_no_panic s :
  wf_store s → (UpdateNodes Hex env s).2 ≠ Panic.
Proof.
  unfold UpdateNodes, bind, call.
  pose proof (np_GetNodeAddresses env Hnp) as H1.
  destruct (GetNodeAddresses env) as [l|e|]; try done.
  apply for_range_no_panic. intros a s1 Hwf1.
  split; [by apply node_body_wf|by apply node_body_no_panic].
Qed.

Lemma UpdateProposals_no_panic s :
  wf_store s → (UpdateProposals env s).2 ≠ Panic.
Proof.
  unfold UpdateProposals, bind at 1, call.
  pose proof (np_GetProposalCount env Hnp) as H1.
  destruct (GetProposalCount env) as [pc|e|]; try done.
  apply for_range_no_panic. intros a s1 Hwf1.
  split; [by apply proposal_body_wf|by apply proposal_body_no_panic].
Qed.

Lemma Update_no_panic w :
  wf_world w →
  wf_world (Update Hex env w).1 ∧ (Update Hex env w).2 ≠ Panic.
Proof.
  intros (Hm & Hn & Hp).
  unfold Update, on_minipools, on_nodes, on_proposals, zoom.
  pose proof (UpdateMinipools_wf Hex env _ Hm) as Hm'.
  pose proof (UpdateNodes_wf Hex env _ Hn) as Hn'.
  pose proof (UpdateProposals_wf env _ Hp) as Hp'.
  pose proof (UpdateMinipools_no_panic _ Hm) as Rm.
  pose proof (UpdateNodes_no_panic _ Hn) as Rn.
  pose proof (UpdateProposals_no_panic _ Hp) as Rp.
  destruct (UpdateMinipools Hex env (minipools w)) as [s1 r1]. simpl.
  destruct (UpdateNodes Hex env (nodes w)) as [s2 r2]. simpl.
  destruct (UpdateProposals env (proposals w)) as [s3 r3]. simpl in *.
  split; [done|].
  apply errgroup_Wait_no_panic. apply Forall_app. split.
  - apply Forall_fmap, Forall_forall. intros [] _; done.
  - repeat constructor; done.
Qed.

End NoPanic.

Section SaveNoPanic.
Variable env : Env.
Context {T : Type}.
Variable u : Upsert.
Variable nArgs : nat.
Variable args_of : T → list SqlValue.

Lemma batch_args_no_panic heap chunk i :
  (∀ p, p ∈ chunk → (p < length heap)%nat) →
  batch_args nArgs args_of heap i chunk ≠ Panic.
Proof.
  intros Hin HP. apply batch_args_Panic in HP as (p & Hp & Hnone).
  apply Hin in Hp. apply lookup_ge_None in Hnone. lia.
Qed.

Lemma tx_Exec_no_panic values args tx d :
  (tx_Exec env u values args tx d).2 ≠ Panic.
Proof.
  unfold tx_Exec, db_call. unfold_monad.
  destruct (db_fault env _); [done|].
  by destruct (exec_upsert u values args tx).
Qed.

Lemma batch_loop_no_panic B heap data :
  (0 < B)%nat →
  (∀ p, p ∈ data → (p < length heap)%nat) →
  ∀ fuel b tx d,
    (length data ≤ fuel + b)%nat →
    (batch_loop env u nArgs args_of fuel B heap data b tx d).2 ≠ Panic.
Proof.
  intros HB Hin. induction fuel as [|fuel IH]; intros b tx d Hfuel; simpl.
  - destruct (decide (b < length data)%nat); [lia|done].
  - destruct (decide (b < length data)%nat) as [Hlt|]; [|done].
    unfold bind at 1, call.
    match goal with
    | |- context [batch_args nArgs args_of heap 0 ?c] =>
        pose proof (batch_args_no_panic heap c 0) as HA;
        destruct (batch_args nArgs args_of heap 0 c) as [batch|e|]
    end; [|done|].
    + unfold bind.
      pose proof (tx_Exec_no_panic batch.1 batch.2 tx d) as HE.
      destruct (tx_Exec env u batch.1 batch.2 tx d) as [d1 [tx1|e|]];
        simpl in *; try done.
      apply IH. lia.
    + exfalso. apply HA; [|done]. intros p Hp. apply Hin.
      by apply subseteq_take, subseteq_drop in Hp.
Qed.

Lemma upsert_in_batches_no_panic B heap data d :
  (0 < B)%nat →
  (∀ p, p ∈ data → (p < length heap)%nat) →
  (upsert_in_batches env u nArgs args_of B heap data d).2 ≠ Panic.
Proof.
  intros HB Hin. unfold upsert_in_batches, Beginx, db_call, defer_Rollback.
  unfold_monad. destruct (db_fault env _); [done|].
  match goal with
  | |- context [batch_loop env u nArgs args_of (length data) B heap data 0 ?tx ?d0] =>
      pose proof (batch_loop_no_panic B heap data HB Hin (length data) 0 tx d0) as HL;
      destruct (batch_loop env u nArgs args_of (length data) B heap data 0 tx d0)
        as [d1 [tx1|e|]]
  end; simpl in *; try done.
  - unfold tx_Commit, db_call. unfold_monad. by destruct (db_fault env _).
  - exfalso. apply HL; [lia|done].
Qed.

End SaveNoPanic.

Lemma wf_store_data {K} `{Countable K} {T} (s : Store K T) p :
  wf_store s → p ∈ (map_to_list (index s)).*2 → (p < length (objs s))%nat.
Proof.
  intros Hwf Hp. apply list_elem_of_fmap in Hp as ([k q] & -> & Hkq).
  apply elem_of_map_to_list in Hkq. by eapply Hwf.
Qed.

Lemma Save_no_panic env w :
  wf_world w → same_caches w (Save env w).1 ∧ (Save env w).2 ≠ Panic.
Proof.
  intros (Hm & Hn & Hp).
  assert (0 < 1000)%nat as HB by lia.
  unfold Save, SaveMinipools, SaveNodes, SaveProposals, bind.
  pose proof (SaveMinipoolsWith_spec env 1000 HB w) as (Hc1 & _).
  assert ((SaveMinipoolsWith env 1000 w).2 ≠ Panic) as R1.
  { rewrite SaveMinipoolsWith_unfold. destruct (decide _); [done|].
    rewrite on_db_run. simpl. apply upsert_in_batches_no_panic; [done|].
    intros p. by apply wf_store_data. }
  destruct (SaveMinipoolsWith env 1000 w) as [w1 [[]|e|]]; simpl in *; try done.
  destruct Hc1 as (Em & En & Ep).
  pose proof (SaveNodesWith_spec env 1000 HB w1) as (Hc2 & _).
  assert ((SaveNodesWith env 1000 w1).2 ≠ Panic) as R2.
  { rewrite SaveNodesWith_unfold. destruct (decide _); [done|].
    rewrite on_db_run. simpl. apply upsert_in_batches_no_panic; [done|].
    intros p. rewrite En. by apply wf_store_data. }
  destruct (SaveNodesWith env 1000 w1) as [w2 [[]|e|]]; simpl in *; try done;
    destruct Hc2 as (Em2 & En2 & Ep2).
  2: { split; [|done]. unfold same_caches. by rewrite Em2, En2, Ep2. }
  pose proof (SaveProposalsWith_spec env 1000 HB w2) as (Hc3 & _).
  assert ((SaveProposalsWith env 1000 w2).2 ≠ Panic) as R3.
  { rewrite SaveProposalsWith_unfold. destruct (decide _); [done|].
    rewrite on_db_run. simpl. apply upsert_in_batches_no_panic; [done|].
    intros p. rewrite Ep2, Ep. by apply wf_store_data. }
  destruct (SaveProposalsWith env 1000 w2) as [w3 r3]; simpl in *.
  destruct Hc3 as (Em3 & En3 & Ep3).
  split; [|done]. unfold same_caches. by rewrite Em3, En3, Ep3, Em2, En2, Ep2.
Qed.

Lemma wf_world_same_caches w w' : same_caches w w' → wf_world w → wf_world w'.
Proof. intros (E1 & E2 & E3) (? & ? & ?). unfold wf_world. by rewrite E1, E2, E3. Qed.

Lemma Run_iteration_goes_on Hex env w :
  no_panic env → wf_world w →
  wf_world (Run_iteration Hex env w).1.1 ∧ (Run_iteration Hex env w).2 = true.
Proof.
  intros Hnp Hwf. unfold Run_iteration.
  destruct (Update_no_panic Hex env Hnp w Hwf) as [Hwf1 Hr1].
  destruct (Update Hex env w) as [w1 [[]|e|]]; simpl in *; try done.
  destruct (Save_no_panic env w1 Hwf1) as [Hsame Hr2].
  destruct (Save env w1) as [w2 [[]|e|]]; simpl in *; try done;
    (split; [by eapply wf_world_same_caches|done]).
Qed.

Lemma Run_length Hex envs :
  (∀ n, no_panic (envs n)) →
  ∀ fuel cycle w, wf_world w →
    wf_world (Run Hex envs fuel cycle w).1 ∧
    length (Run Hex envs fuel cycle w).2 = fuel.
Proof.
  intros Hnp. induction fuel as [|fuel IH]; intros cycle w Hwf; simpl; [done|].
  destruct (Run_iteration_goes_on Hex (envs cycle) w (Hnp cycle) Hwf) as [Hwf1 Hgo].
  destruct (Run_iteration Hex (envs cycle) w) as [[w1 evs] go]. simpl in *. subst go.
  destruct (IH (S cycle) w1 Hwf1) as [Hwf2 Hlen].
  destruct (Run Hex envs fuel (S cycle) w1) as [w2 rest]. simpl in *.
  split; [done|]. by rewrite Hlen.
Qed.

(** X13.  No error ends the loop.  When no call of the read API panics (each
    returns a value or an error, in every cycle) and the caches have no
    dangling pointer, neither the refresh nor the save panics, whatever the
    chain and the database answer; so an exporter that started (the dial
    and the constructor succeeded) goes through as many cycles as it is
    observed for, and still has no dangling pointer after them. *)
Theorem no_error_ends_the_loop Hex envs :
  (∀ n, no_panic (envs n)) →
  (∀ n w, wf_world w →
     (Update Hex (envs n) w).2 ≠ Panic ∧ (Save (envs n) w).2 ≠ Panic) ∧
  (∀ fuel cycle w, wf_world w →
     wf_world (Run Hex envs fuel cycle w).1 ∧
     length (Run Hex envs fuel cycle w).2 = fuel) ∧
  (∀ fuel d, Dial (envs O) = Ok tt → NewRocketPool (envs O) = Ok tt →
     ∃ w evs, rocketpoolExporter Hex envs fuel d = Some (w, evs) ∧
              wf_world w ∧ length evs = fuel).
Proof.
  intros Hnp. split; [|split].
  - intros n w Hwf. split.
    + by apply Update_no_panic.
    + by apply Save_no_panic.
  - by apply Run_length.
  - intros fuel d Hdial Hnew.
    unfold rocketpoolExporter, NewRocketpoolExporter. rewrite Hdial, Hnew.
    set (w0 := {| minipools := empty_Store; nodes := empty_Store;
                  proposals := empty_Store; db := d |}).
    assert (wf_world w0) as Hwf0 by (repeat split; apply wf_store_empty).
    destruct (Run_length Hex envs Hnp fuel O w0 Hwf0) as [Hwf Hlen].
    destruct (Run Hex envs fuel 0 w0) as [w evs]. eauto.
Qed.

Lemma no_error_ends_the_loop_witness :
  let envs := λ _ : nat,
    Stub.env [Stub.addr x01] [Stub.addr x02] 1 Stub.unreachable (Stub.staked 5)
      (Stub.fault_at 0) [] in
  ∃ w evs, rocketpoolExporter Stub.Hex envs 3 Stub.empty_db = Some (w, evs) ∧
           wf_world w ∧ length evs = 3%nat.
Proof.
  intros envs.
  refine (proj2 (proj2 (no_error_ends_the_loop Stub.Hex envs _)) 3%nat
            Stub.empty_db eq_refl eq_refl).
  intros n. constructor; intros; simpl; discriminate.
Defined.

(** ** A save fails only with the database *)

Section SaveFromDatabase.
Variable env : Env.
Context {T : Type}.
Variable u : Upsert.
Variable nArgs : nat.
Variable args_of : T → list SqlValue.
Hypothesis Hcols : length (columns u) = nArgs.
Hypothesis Hargs : ∀ d, length (args_of d) = nArgs.

Lemma batch_args_not_Err heap chunk :
  ∀ i e, batch_args nArgs args_of heap i chunk ≠ Err e.
Proof.
  induction chunk as [|p chunk IH]; intros i e; simpl; [done|].
  destruct (heap !! p); [|done].
  specialize (IH (S i)).
  destruct (batch_args nArgs args_of heap (S i) chunk) as [[vs a]|e'|]; done.
Qed.

Lemma batch_loop_from_database B heap data :
  (0 < B)%nat →
  (∀ p, p ∈ data → (p < length heap)%nat) →
  ∀ fuel b tx d tbl,
    (length data ≤ fuel + b)%nat →
    tx !! into u = Some tbl →
    from_database env (batch_loop env u nArgs args_of fuel B heap data b tx d).2.
Proof.
  intros HB Hin. induction fuel as [|fuel IH]; intros b tx d tbl Hfuel Htbl; simpl.
  - destruct (decide (b < length data)%nat); [lia|done].
  - destruct (decide (b < length data)%nat) as [Hlt|]; [|done].
    unfold bind at 1, call.
    match goal with
    | |- context [batch_args nArgs args_of heap 0 ?c] =>
        pose proof (batch_args_no_panic nArgs args_of heap c 0) as HA;
        pose proof (batch_args_not_Err heap c 0) as HE;
        pose proof (exec_upsert_batch u nArgs args_of Hcols Hargs heap c) as HX;
        destruct (batch_args nArgs args_of heap 0 c) as [batch|e|]
    end.
    + destruct (HX batch tx tbl eq_refl Htbl) as (ds & _ & Hexec).
      unfold bind, tx_Exec, db_call. unfold_monad.
      destruct (db_fault env (length (calls d))) as [e|] eqn:Hfault; [by eexists|].
      rewrite Hexec. simpl.
      eapply IH; [lia|apply lookup_insert_eq].
    + by destruct (HE e).
    + exfalso. apply HA; [|done]. intros p Hp. apply Hin.
      by apply subseteq_take, subseteq_drop in Hp.
Qed.

Lemma upsert_in_batches_from_database B heap data d tbl :
  (0 < B)%nat →
  (∀ p, p ∈ data → (p < length heap)%nat) →
  tables d !! into u = Some tbl →
  from_database env (upsert_in_batches env u nArgs args_of B heap data d).2.
Proof.
  intros HB Hin Htbl. unfold upsert_in_batches, Beginx, db_call, defer_Rollback.
  unfold_monad.
  destruct (db_fault env (length (calls d))) as [e|] eqn:Hfault; [by eexists|].
  match goal with
  | |- context [batch_loop env u nArgs args_of (length data) B heap data 0 ?tx ?d0] =>
      pose proof (batch_loop_from_database B heap data HB Hin (length data) 0 tx d0 tbl)
        as HL;
      destruct (batch_loop env u nArgs args_of (length data) B heap data 0 tx d0)
        as [d1 [tx1|e|]]
  end; simpl in *.
  - unfold tx_Commit, db_call. unfold_monad.
    destruct (db_fault env (length (calls d1))) as [e|] eqn:Hfault'; [by eexists|done].
  - apply HL; [lia|done].
  - apply HL; [lia|done].
Qed.

End SaveFromDatabase.

Lemma Save_from_database env w :
  wf_world w → has_tables (db w) → from_database env (Save env w).2.
Proof.
  intros (Hm & Hn & Hp) (Tm & Tn & Tp).
  assert (0 < 1000)%nat as HB by lia.
  unfold Save, SaveMinipools, SaveNodes, SaveProposals, bind.
  pose proof (SaveMinipoolsWith_spec env 1000 HB w) as (Hc1 & Hconf1 & _).
  assert (from_database env (SaveMinipoolsWith env 1000 w).2) as R1.
  { rewrite SaveMinipoolsWith_unfold. destruct (decide _); [done|].
    rewrite on_db_run. simpl. destruct Tm as [tbl Htbl].
    eapply upsert_in_batches_from_database; [done|by intros []|done| |exact Htbl].
    intros p. by apply wf_store_data. }
  destruct (SaveMinipoolsWith env 1000 w) as [w1 [[]|e|]]; simpl in *; try done.
  destruct Hc1 as (Em & En & Ep).
  assert (is_Some (tables (db w1) !! into nodes_upsert) ∧
          is_Some (tables (db w1) !! into proposals_upsert)) as [Tn1 Tp1].
  { destruct Hconf1 as [_ Hother]. by rewrite !Hother. }
  pose proof (SaveNodesWith_spec env 1000 HB w1) as (Hc2 & Hconf2 & _).
  assert (from_database env (SaveNodesWith env 1000 w1).2) as R2.
  { rewrite SaveNodesWith_unfold. destruct (decide _); [done|].
    rewrite on_db_run. simpl. destruct Tn1 as [tbl Htbl].
    eapply upsert_in_batches_from_database; [done|by intros []|done| |exact Htbl].
    intros p. rewrite En. by apply wf_store_data. }
  destruct (SaveNodesWith env 1000 w1) as [w2 [[]|e|]]; simpl in *; try done.
  destruct Hc2 as (Em2 & En2 & Ep2).
  assert (is_Some (tables (db w2) !! into proposals_upsert)) as Tp2.
  { destruct Hconf2 as [_ Hother]. by rewrite !Hother. }
  rewrite SaveProposalsWith_unfold. destruct (decide _); [done|].
  rewrite on_db_run. simpl. destruct Tp2 as [tbl Htbl].
  eapply upsert_in_batches_from_database; [done|by intros []|done| |exact Htbl].
  intros p. rewrite Ep2, Ep. by apply wf_store_data.
Qed.

(** X20.  A save fails only with the database.  On caches without dangling
    pointers and a database that has the three tables, no statement the
    exporter builds is refused for its shape (every tuple of placeholders
    denotes a row with all the columns of the statement): an error of
    [Save] is the error of one of its calls to the database, and when no
    call fails the save succeeds. *)
Theorem Save_fails_only_with_the_database env w :
  wf_world w → has_tables (db w) →
  (∀ e, (Save env w).2 = Err e → ∃ n, db_fault env n = Some e) ∧
  ((∀ n, db_fault env n = None) → (Save env w).2 = Ok tt).
Proof.
  intros Hwf Htables.
  pose proof (Save_from_database env w Hwf Htables) as Hdb.
  destruct (Save env w) as [w' [[]|e|]]; simpl in *; [|..|done].
  - split; [done|done].
  - split; [by intros e' [= <-]|].
    intros Hnone. destruct Hdb as [n Hn]. by rewrite Hnone in Hn.
Qed.

Lemma Save_fails_only_with_the_database_witness :
  let env := Stub.env [] [] 0 (Stub.at_time 0) (Stub.staked 0) Stub.no_fault [] in
  let w := Stub.world (Stub.many_minipools 3) empty_Store empty_Store Stub.empty_db in
  (Save env w).2 = Ok tt.
Proof.
  intros env w.
  refine (proj2 (Save_fails_only_with_the_database env w _ _) _).
  - repeat split; try apply wf_store_empty.
    intros k p Hk. apply elem_of_list_to_map_2 in Hk.
    apply list_elem_of_fmap in Hk as (i & [= _ ->] & Hi).
    apply elem_of_seq in Hi. simpl. lia.
  - repeat split; vm_compute; eauto.
  - done.
Defined.

(** ** What a successful save leaves in the table *)

Lemma absorbed_row u (r : Row) tbl :
  upsert_row u r tbl = tbl → stored u tbl r.
Proof.
  induction tbl as [|old rest IH]; simpl; [done|].
  destruct (conflicts u old r) eqn:Hc.
  - intros [= Hold]. exists old. split; [left|].
    intros c Hin. apply elem_of_app in Hin as [Hin|Hin].
    + rewrite conflicts_true in Hc. by apply Hc.
    + rewrite <- Hold at 1. rewrite update_set_lookup. by rewrite decide_True.
  - intros [= Hrest]. destruct (IH Hrest) as (o & Ho & Hcols).
    exists o. split; [by right|done].
Qed.

Lemma upserted_stored {T} u (args_of : T → list SqlValue) tbl ds d :
  distinct_keys u ((λ d, entity_row u (args_of d)) <$> ds) →
  d ∈ ds →
  stored u (upserted u args_of tbl ds) (entity_row u (args_of d)).
Proof.
  intros Hdist Hd. apply absorbed_row.
  pose proof (foldl_absorbs_all u _ tbl Hdist) as Hall.
  rewrite Forall_forall in Hall. apply Hall.
  apply list_elem_of_fmap. eauto.
Qed.

Lemma saved_via {T} env (u : Upsert) nArgs (args_of : T → list SqlValue)
    B heap data w tbl ds :
  length (columns u) = nArgs → (∀ d, length (args_of d) = nArgs) →
  (0 < B)%nat →
  let out := on_db (upsert_in_batches env u nArgs args_of B heap data) w in
  out.2 = Ok tt →
  tables (db w) !! into u = Some tbl →
  mapM (λ p, heap !! p) data = Some ds →
  distinct_keys u ((λ d, entity_row u (args_of d)) <$> ds) →
  ∃ tbl', tables (db out.1) !! into u = Some tbl' ∧
          ∀ d, d ∈ ds → stored u tbl' (entity_row u (args_of d)).
Proof.
  intros Hcols Hargs HB out Hok Htbl Hds Hdist.
  destruct (Save_tables_via env u nArgs args_of B heap data w tbl
              Hcols Hargs HB Hok Htbl) as (ds1 & Hds1 & Ht1).
  fold out in Ht1. rewrite Hds in Hds1. injection Hds1 as <-.
  exists (upserted u args_of tbl ds). split.
  - rewrite Ht1. apply lookup_insert_eq.
  - intros d Hd. by apply upserted_stored.
Qed.

Lemma cached_empty {K} `{Countable K} {T} (s : Store K T) ds :
  size (index s) = 0%nat → cached s = Some ds → ds = [].
Proof.
  intros H0 Hc. apply map_size_empty_inv in H0. unfold cached in Hc.
  rewrite H0, map_to_list_empty in Hc. by injection Hc as <-.
Qed.

(** X21.  After a successful save the table reflects the cache.  When the
    rows of the cached entities have pairwise distinct primary keys, a
    successful save of a kind leaves, for every cached entity, a row in
    the table of that kind that carries the entity's primary key and the
    entity's value in every column of the [do update set] list of the
    statement. *)
Theorem saved_rows_reflect_the_cache env B w :
  (0 < B)%nat →
  let scope := RocketStorageContract_Address env in
  (∀ tbl ds,
     tables (db w) !! "rocketpool_minipools"%string = Some tbl →
     cached (minipools w) = Some ds →
     distinct_keys minipools_upsert
       ((λ d, entity_row minipools_upsert (minipool_args scope d)) <$> ds) →
     (SaveMinipoolsWith env B w).2 = Ok tt →
     ∃ tbl', tables (db (SaveMinipoolsWith env B w).1)
               !! "rocketpool_minipools"%string = Some tbl' ∧
             ∀ d, d ∈ ds →
                  stored minipools_upsert tbl'
                    (entity_row minipools_upsert (minipool_args scope d))) ∧
  (∀ tbl ds,
     tables (db w) !! "rocketpool_nodes"%string = Some tbl →
     cached (nodes w) = Some ds →
     distinct_keys nodes_upsert
       ((λ d, entity_row nodes_upsert (node_args scope d)) <$> ds) →
     (SaveNodesWith env B w).2 = Ok tt →
     ∃ tbl', tables (db (SaveNodesWith env B w).1)
               !! "rocketpool_nodes"%string = Some tbl' ∧
             ∀ d, d ∈ ds →
                  stored nodes_upsert tbl'
                    (entity_row nodes_upsert (node_args scope d))) ∧
  (∀ tbl ds,
     tables (db w) !! "rocketpool_proposals"%string = Some tbl →
     cached (proposals w) = Some ds →
     distinct_keys proposals_upsert
       ((λ d, entity_row proposals_upsert (proposal_args scope d)) <$> ds) →
     (SaveProposalsWith env B w).2 = Ok tt →
     ∃ tbl', tables (db (SaveProposalsWith env B w).1)
               !! "rocketpool_proposals"%string = Some tbl' ∧
             ∀ d, d ∈ ds →
                  stored proposals_upsert tbl'
                    (entity_row proposals_upsert (proposal_args scope d))).
Proof.
  intros HB scope. split; [|split]; intros tbl ds Htbl Hds Hdist.
  - rewrite (SaveMinipoolsWith_unfold env B w). fold scope.
    destruct (decide (size (index (minipools w)) = 0%nat)) as [H0|Hn0].
    + intros _. simpl. exists tbl. split; [done|].
      rewrite (cached_empty _ _ H0 Hds). intros d Hd. by apply elem_of_nil in Hd.
    + intros Hok.
      by eapply (saved_via env minipools_upsert 8 (minipool_args scope)).
  - rewrite (SaveNodesWith_unfold env B w). fold scope.
    destruct (decide (size (index (nodes w)) = 0%nat)) as [H0|Hn0].
    + intros _. simpl. exists tbl. split; [done|].
      rewrite (cached_empty _ _ H0 Hds). intros d Hd. by apply elem_of_nil in Hd.
    + intros Hok.
      by eapply (saved_via env nodes_upsert 6 (node_args scope)).
  - rewrite (SaveProposalsWith_unfold env B w). fold scope.
    destruct (decide (size (index (proposals w)) = 0%nat)) as [H0|Hn0].
    + intros _. simpl. exists tbl. split; [done|].
      rewrite (cached_empty _ _ H0 Hds). intros d Hd. by apply elem_of_nil in Hd.
    + intros Hok.
      by eapply (saved_via env proposals_upsert 18 (proposal_args scope)).
Qed.

Lemma saved_rows_reflect_the_cache_witness :
  let env := Stub.env [] [] 0 (Stub.at_time 0) (Stub.staked 0) Stub.no_fault [] in
  let w := Stub.world (Stub.many_minipools 3) empty_Store empty_Store Stub.empty_db in
  ∃ ds, cached (minipools w) = Some ds ∧
  ∃ tbl', tables (db (SaveMinipoolsWith env 2 w).1)
            !! "rocketpool_minipools"%string = Some tbl' ∧
          ∀ d, d ∈ ds →
               stored minipools_upsert tbl'
                 (entity_row minipools_upsert
                    (minipool_args (RocketStorageContract_Address env) d)).
Proof.
  intros env w. eexists. split; [vm_compute; reflexivity|].
  eapply (proj1 (saved_rows_reflect_the_cache env 2 w ltac:(lia)) []).
  - vm_compute. reflexivity.
  - vm_compute. reflexivity.
  - vm_compute. repeat constructor.
  - vm_compute. reflexivity.
Defined.

(** ** Refreshing again *)

Lemma set_minipool_status_same mp :
  set_minipool_status (mp_Status mp) (mp_StatusTime mp) mp = mp.
Proof. by destruct mp. Qed.

Lemma set_node_stakes_same n s0 s1 s2 :
  node_RPLStake n = Some s0 → node_MinRPLStake n = Some s1 →
  node_MaxRPLStake n = Some s2 → set_node_stakes s0 s1 s2 n = n.
Proof. destruct n. simpl. by intros -> -> ->. Qed.

Lemma RocketpoolMinipool_Update_settled env p h mp :
  h !! p = Some mp → minipool_settled env mp →
  RocketpoolMinipool_Update env p h = (h, Ok tt).
Proof.
  intros Hp (Hnew & st & t & Hst & Ht & Es & Et).
  unfold RocketpoolMinipool_Update. unfold_monad.
  rewrite Hp, Hnew, Hst, Ht. simpl.
  assert (errgroup_Wait (if status_done_first env
                         then [Ok tt; Ok tt] else [Ok tt; Ok tt]) = Ok tt) as ->.
  { by destruct (status_done_first env). }
  rewrite <- Es, <- Et, set_minipool_status_same.
  by rewrite list_insert_id.
Qed.

Lemma RocketpoolNode_Update_settled env p h n :
  h !! p = Some n → node_refreshed env n →
  RocketpoolNode_Update env p h = (h, Ok tt).
Proof.
  intros Hp (s0 & s1 & s2 & H0 & H1 & H2 & E0 & E1 & E2).
  unfold RocketpoolNode_Update. unfold_monad.
  rewrite Hp, H0, H1, H2. simpl.
  rewrite set_node_stakes_same by done. by rewrite list_insert_id.
Qed.

Lemma NewRocketpoolMinipool_NewMinipool env addr h h' p :
  NewRocketpoolMinipool env addr h = (h', Ok p) →
  NewMinipool env (BytesToAddress addr) = Ok tt.
Proof.
  unfold NewRocketpoolMinipool, bind, call.
  destruct (GetMinipoolPubkey env _); [|done..].
  by destruct (NewMinipool env _) as [[]|e|].
Qed.

Lemma minipool_body_settles Hex env a s s' :
  minipool_body Hex env a s = (s', Ok tt) →
  ∃ mp, entity s' (Hex a) = Some mp ∧ minipool_settled env mp.
Proof.
  intros Hb. destruct (minipool_body_makes Hex env a s s' Hb) as (mp & He & Hr).
  exists mp. split; [done|]. split; [|done].
  revert Hb He. unfold minipool_body, entity. unfold_monad.
  destruct (index s !! Hex a) as [p|] eqn:Hp.
  - destruct (objs s !! p) as [self|] eqn:Hself.
    + pose proof (RocketpoolMinipool_Update_spec env p (objs s) self Hself) as HU.
      simpl in HU.
      destruct (RocketpoolMinipool_Update env p (objs s)) as [h [[]|e|]];
        intros Heq; inversion Heq; subst; simpl.
      destruct HU as (st & t & Hnew & _ & _ & ->).
      rewrite Hp. simpl.
      rewrite list_lookup_insert_eq by (by eapply lookup_lt_Some).
      by intros [= <-].
    + unfold RocketpoolMinipool_Update. unfold_monad. by rewrite Hself.
  - pose proof (NewRocketpoolMinipool_spec env (Address_Bytes a) (objs s)) as HN.
    pose proof (NewRocketpoolMinipool_NewMinipool env (Address_Bytes a) (objs s)) as HM.
    simpl in HN.
    destruct (NewRocketpoolMinipool env _ (objs s)) as [h [p|e|]];
      intros Heq; inversion Heq; subst; simpl in *.
    destruct HN as (_ & -> & pubk & na & nf & dt & st & t & _ & _ & _ & _ & _ & _ & ->).
    rewrite lookup_insert_eq. simpl. rewrite lookup_snoc. intros [= <-]. simpl.
    by eapply HM.
Qed.

Lemma minipool_body_keeps_settled Hex env a s s' k :
  minipool_body Hex env a s = (s', Ok tt) →
  (∃ mp, entity s k = Some mp ∧ minipool_settled env mp) →
  ∃ mp, entity s' k = Some mp ∧ minipool_settled env mp.
Proof.
  intros Hb (mp & He & Hnew & Hr).
  destruct (decide (index s !! k = index s !! Hex a ∧ is_Some (index s !! Hex a)))
    as [[Heq [p Hp]]|Hne].
  - destruct (minipool_body_settles Hex env a s s' Hb) as (mp' & He' & Hs').
    exists mp'. split; [|done]. revert He'. unfold entity.
    apply minipool_body_Ok in Hb. rewrite Hp in Hb.
    destruct Hb as (self & _ & -> & _). by rewrite Heq.
  - exists mp. split; [|by split]. apply minipool_body_Ok in Hb.
    unfold entity in *.
    destruct (index s !! k) as [q|] eqn:Hq; simpl in He; [|done].
    destruct (index s !! Hex a) as [p|] eqn:Hp.
    + destruct Hb as (self & Hself & -> & st & t & _ & _ & ->).
      rewrite Hq. simpl. rewrite list_lookup_insert_ne; [done|].
      intros ->. apply Hne. eauto.
    + destruct Hb as (new & -> & -> & _ & _).
      rewrite lookup_insert_ne by congruence. rewrite Hq. simpl.
      by apply lookup_app_l_Some.
Qed.

Lemma store_eta {K} `{Countable K} {T} (s : Store K T) :
  Build_Store (index s) (objs s) = s.
Proof. by destruct s. Qed.

Lemma for_range_fixed {S A} (body : A → M S unit) l s :
  (∀ a, a ∈ l → body a s = (s, Ok tt)) → for_range body l s = (s, Ok tt).
Proof.
  induction l as [|a l IH]; intros Hbody; simpl; [done|].
  unfold bind. rewrite (Hbody a) by left. apply IH.
  intros a' Ha'. apply Hbody. by right.
Qed.

Lemma UpdateMinipools_again Hex env s s1 :
  UpdateMinipools Hex env s = (s1, Ok tt) →
  UpdateMinipools Hex env s1 = (s1, Ok tt).
Proof.
  unfold UpdateMinipools, bind, call.
  destruct (GetMinipoolAddresses env) as [l|e|]; [|done..]. intros Hloop.
  eapply (for_range_establishes Hex
            (λ s k, ∃ mp, entity s k = Some mp ∧ minipool_settled env mp))
    in Hloop as [_ Hall].
  - apply for_range_fixed. intros a Ha.
    destruct (Hall a Ha) as (mp & He & Hs).
    unfold minipool_body, entity in *. unfold_monad.
    destruct (index s1 !! Hex a) as [p|]; simpl in He; [|done].
    rewrite (RocketpoolMinipool_Update_settled env p (objs s1) mp He Hs).
    by rewrite store_eta.
  - intros. by eapply minipool_body_keeps_settled.
  - intros. by eapply minipool_body_settles.
Qed.

Lemma UpdateNodes_again Hex env s s1 :
  UpdateNodes Hex env s = (s1, Ok tt) →
  UpdateNodes Hex env s1 = (s1, Ok tt).
Proof.
  unfold UpdateNodes, bind, call.
  destruct (GetNodeAddresses env) as [l|e|]; [|done..]. intros Hloop.
  eapply (for_range_establishes Hex
            (λ s k, ∃ n, entity s k = Some n ∧ node_refreshed env n))
    in Hloop as [_ Hall].
  - apply for_range_fixed. intros a Ha.
    destruct (Hall a Ha) as (n & He & Hs).
    unfold node_body, entity in *. unfold_monad.
    destruct (index s1 !! Hex a) as [p|]; simpl in He; [|done].
    rewrite (RocketpoolNode_Update_settled env p (objs s1) n He Hs).
    by rewrite store_eta.
  - intros. by eapply node_body_keeps.
  - intros. by eapply node_body_makes.
Qed.

Lemma proposal_body_succeeds env i pd s :
  GetProposalDetails env (uint64 (i + 1)) = Ok pd →
  ((p <- on_objs (NewRocketpoolProposal env (uint64 (i + 1))) ;;
    map_assign i p) s).2 = Ok tt.
Proof.
  intros Hpd. unfold NewRocketpoolProposal, RocketpoolProposal_Update.
  unfold_monad. rewrite lookup_snoc. simpl. rewrite Hpd. simpl.
  done.
Qed.

Lemma proposals_loop_succeeds env l :
  (∀ i, i ∈ l → ∃ pd, GetProposalDetails env (uint64 (i + 1)) = Ok pd) →
  ∀ s, (for_range (λ i, p <- on_objs (NewRocketpoolProposal env (uint64 (i + 1))) ;;
                        map_assign i p) l s).2 = Ok tt.
Proof.
  induction l as [|i l IH]; intros Hall s; simpl; [done|].
  unfold bind at 1. destruct (Hall i) as [pd Hpd]; [left|].
  pose proof (proposal_body_succeeds env i pd s Hpd) as Hok.
  destruct ((p <- on_objs (NewRocketpoolProposal env (uint64 (i + 1))) ;;
             map_assign i p) s) as [s1 r]. simpl in Hok. subst r.
  apply IH. intros j Hj. apply Hall. by right.
Qed.

Lemma UpdateProposals_again env s s1 :
  UpdateProposals env s = (s1, Ok tt) →
  ∃ s2, UpdateProposals env s1 = (s2, Ok tt) ∧
        ∀ k v, entity s1 k = Some v → entity s2 k = Some v.
Proof.
  unfold UpdateProposals, bind at 1 3, call.
  destruct (GetProposalCount env) as [pc|e|]; [|done..]. intros Hloop.
  destruct (proposals_loop env (seqZ 0 pc) s s1 (NoDup_seqZ _ _) Hloop)
    as (_ & _ & Hin1).
  assert (∀ i, i ∈ seqZ 0 pc →
               ∃ pd, GetProposalDetails env (uint64 (i + 1)) = Ok pd) as Hreads.
  { intros i Hi. destruct (Hin1 i Hi) as (pd & Hpd & _). eauto. }
  pose proof (proposals_loop_succeeds env (seqZ 0 pc) Hreads s1) as Hok.
  destruct (for_range _ (seqZ 0 pc) s1) as [s2 r] eqn:Hloop2. simpl in Hok. subst r.
  exists s2. split; [done|].
  destruct (proposals_loop env (seqZ 0 pc) s1 s2 (NoDup_seqZ _ _) Hloop2)
    as (Htake & Hother & Hin2).
  intros k v Hk.
  destruct (decide (k ∈ seqZ 0 pc)) as [Hin|Hnin].
  - destruct (Hin1 k Hin) as (pd1 & Hpd1 & He1).
    destruct (Hin2 k Hin) as (pd2 & Hpd2 & He2).
    rewrite Hpd1 in Hpd2. injection Hpd2 as <-. congruence.
  - unfold entity in *. rewrite (Hother k Hnin).
    destruct (index s1 !! k) as [p|]; simpl in *; [|done].
    by eapply prefix_lookup.
Qed.

(** X22.  Refreshing again against an unchanged chain changes nothing.
    After a successful refresh of the minipools, or of the nodes, a second
    refresh under the same answers of the chain succeeds and returns the
    very same cache: no key, no pointer and no attribute moves.  A second
    refresh of the proposals succeeds as well and every key leads to a
    proposal with the same contents as before, although it is a newly
    created object. *)
Theorem refreshing_again_changes_nothing Hex env :
  (∀ s s1, UpdateMinipools Hex env s = (s1, Ok tt) →
           UpdateMinipools Hex env s1 = (s1, Ok tt)) ∧
  (∀ s s1, UpdateNodes Hex env s = (s1, Ok tt) →
           UpdateNodes Hex env s1 = (s1, Ok tt)) ∧
  (∀ s s1, UpdateProposals env s = (s1, Ok tt) →
           ∃ s2, UpdateProposals env s1 = (s2, Ok tt) ∧
                 ∀ k v, entity s1 k = Some v → entity s2 k = Some v).
Proof.
  split; [|split].
  - apply UpdateMinipools_again.
  - apply UpdateNodes_again.
  - apply UpdateProposals_again.
Qed.

Lemma refreshing_again_changes_nothing_witness :
  let env := Stub.env [Stub.addr x01; Stub.addr x02] [] 0 (Stub.at_time 1700000000)
               (Stub.staked 0) Stub.no_fault [] in
  let s := Stub.single (Stub.Hex (Stub.addr x01))
             (Stub.minipool x01 "Prelaunch" 1600000000) in
  let s1 := (UpdateMinipools Stub.Hex env s).1 in
  UpdateMinipools Stub.Hex env s1 = (s1, Ok tt).
Proof.
  intros env s s1.
  apply (proj1 (refreshing_again_changes_nothing Stub.Hex env) s s1).
  vm_compute. reflexivity.
Defined.

(** ** Identity over a whole run *)

Lemma UpdateProposals_keys env s :
  dom (index s) ⊆ dom (index (UpdateProposals env s).1).
Proof.
  unfold UpdateProposals, bind at 1, call.
  destruct (GetProposalCount env) as [pc|e|]; try done.
  apply (for_range_preserves (λ s s' : Store Z RocketpoolProposal,
                                dom (index s) ⊆ dom (index s'))).
  - done.
  - intros s1 s2 s3 H12 H23. by etrans.
  - intros i s1. by destruct (proposal_body_grows env {[i]} i s1 ltac:(set_solver)).
Qed.

Lemma Save_same_caches env w : same_caches w (Save env w).1.
Proof.
  assert (0 < 1000)%nat as HB by lia.
  unfold Save, SaveMinipools, SaveNodes, SaveProposals, bind.
  pose proof (SaveMinipoolsWith_spec env 1000 HB w) as (Hc1 & _).
  destruct (SaveMinipoolsWith env 1000 w) as [w1 [[]|e|]]; simpl in *; try done.
  pose proof (SaveNodesWith_spec env 1000 HB w1) as (Hc2 & _).
  destruct (SaveNodesWith env 1000 w1) as [w2 [[]|e|]]; simpl in *.
  2,3: destruct Hc1 as (E1 & E2 & E3), Hc2 as (F1 & F2 & F3);
       unfold same_caches; by rewrite F1, F2, F3.
  pose proof (SaveProposalsWith_spec env 1000 HB w2) as (Hc3 & _).
  destruct (SaveProposalsWith env 1000 w2) as [w3 r3]; simpl in *.
  destruct Hc1 as (E1 & E2 & E3), Hc2 as (F1 & F2 & F3), Hc3 as (G1 & G2 & G3).
  unfold same_caches. by rewrite G1, G2, G3, F1, F2, F3.
Qed.

Lemma keeps_identity_refl w : keeps_identity w w.
Proof.
  split; [apply store_frame_refl|]. split; [apply store_frame_refl|done].
Qed.

Lemma keeps_identity_trans w1 w2 w3 :
  keeps_identity w1 w2 → keeps_identity w2 w3 → keeps_identity w1 w3.
Proof.
  intros (A1 & B1 & C1) (A2 & B2 & C2).
  split; [by eapply store_frame_trans|]. split; [by eapply store_frame_trans|].
  by etrans.
Qed.

Lemma Update_keeps_identity Hex env w : keeps_identity w (Update Hex env w).1.
Proof.
  unfold Update, on_minipools, on_nodes, on_proposals, zoom.
  pose proof (UpdateMinipools_frame Hex env (minipools w)) as Hm.
  pose proof (UpdateNodes_frame Hex env (nodes w)) as Hn.
  pose proof (UpdateProposals_keys env (proposals w)) as Hp.
  destruct (UpdateMinipools Hex env (minipools w)) as [s1 r1]. simpl.
  destruct (UpdateNodes Hex env (nodes w)) as [s2 r2]. simpl.
  destruct (UpdateProposals env (proposals w)) as [s3 r3]. simpl in *.
  split; [done|]. split; done.
Qed.

Lemma Run_iteration_keeps_identity Hex env w :
  keeps_identity w (Run_iteration Hex env w).1.1.
Proof.
  unfold Run_iteration.
  pose proof (Update_keeps_identity Hex env w) as HU.
  destruct (Update Hex env w) as [w1 [[]|e|]]; simpl in *; try done.
  pose proof (Save_same_caches env w1) as (E1 & E2 & E3).
  assert (keeps_identity w (Save env w1).1) as HS.
  { destruct HU as (A & B & C). unfold keeps_identity. by rewrite E1, E2, E3. }
  by destruct (Save env w1) as [w2 [[]|e|]].
Qed.

(** X23.  Identity over a whole run.  Through any number of cycles,
    failing and succeeding alike, a minipool or a node that is in the
    cache stays under its key, behind the same pointer and with the
    attributes set at its creation; and no proposal key disappears. *)
Theorem Run_keeps_identity Hex envs fuel cycle w :
  keeps_identity w (Run Hex envs fuel cycle w).1 ∧
  (∀ k mp, entity (minipools w) k = Some mp →
     ∃ mp', entity (minipools (Run Hex envs fuel cycle w).1) k = Some mp' ∧
            mp_immutable mp' = mp_immutable mp) ∧
  (∀ k n, entity (nodes w) k = Some n →
     ∃ n', entity (nodes (Run Hex envs fuel cycle w).1) k = Some n' ∧
           node_immutable n' = node_immutable n).
Proof.
  assert (keeps_identity w (Run Hex envs fuel cycle w).1) as H.
  { revert cycle w. induction fuel as [|fuel IH]; intros cycle w; simpl.
    - apply keeps_identity_refl.
    - pose proof (Run_iteration_keeps_identity Hex (envs cycle) w) as Hit.
      destruct (Run_iteration Hex (envs cycle) w) as [[w1 evs] [|]]; simpl in *;
        [|done].
      specialize (IH (S cycle) w1).
      destruct (Run Hex envs fuel (S cycle) w1) as [w2 rest]. simpl in *.
      by eapply keeps_identity_trans. }
  split; [done|]. destruct H as (Hm & Hn & _). split.
  - intros k mp He. by eapply store_frame_entity.
  - intros k n He. by eapply store_frame_entity.
Qed.

Lemma Run_keeps_identity_witness :
  let envs := λ _ : nat,
    Stub.env [Stub.addr x02] [] 0 (Stub.at_time 1700000000) (Stub.staked 0)
      Stub.no_fault [] in
  let w := Stub.world (Stub.single (Stub.Hex (Stub.addr x01))
                         (Stub.minipool x01 "Prelaunch" 1600000000))
             empty_Store empty_Store Stub.empty_db in
  ∃ mp', entity (minipools (Run Stub.Hex envs 2 0 w).1) (Stub.Hex (Stub.addr x01))
           = Some mp' ∧
         mp_immutable mp' = mp_immutable (Stub.minipool x01 "Prelaunch" 1600000000).
Proof.
  intros envs w.
  apply (proj1 (proj2 (Run_keeps_identity Stub.Hex envs 2 0 w))).
  reflexivity.
Defined.

(** * Properties of the helpers of [utils/utils.go] *)

(** ** The hexadecimal parser *)

Lemma hex_byte_round_trip c :
  let n := Byte.to_N c in
  Utils.fromHexChar (hex_digit (n / 16)) = Some (n / 16)%N ∧
  Utils.fromHexChar (hex_digit (n mod 16)) = Some (n mod 16)%N ∧
  Utils.byte_of_N (N.lor (N.shiftl (n / 16) 4) (n mod 16)) = c.
Proof. destruct c; vm_compute; done. Qed.

Lemma Replace_0x_Sprintf_x b : Utils.Replace_0x (Sprintf_x b) = Sprintf_x b.
Proof.
  induction b as [|c b IH]; [done|].
  cbn [Sprintf_x]. cbv zeta.
  set (h1 := hex_digit (Byte.to_N c / 16)).
  set (h2 := hex_digit (Byte.to_N c mod 16)).
  cbn [Utils.Replace_0x].
  destruct (decide (h1 = "0"%char ∧ h2 = "x"%char)) as [[_ Hx]|_].
  { by apply hex_digit_not_x in Hx. }
  f_equal. destruct b as [|c2 b]; [done|].
  cbn [Sprintf_x] in *. cbv zeta in *.
  destruct (decide (h2 = "0"%char ∧ _ = "x"%char)) as [[_ Hx]|_].
  { by apply hex_digit_not_x in Hx. }
  by rewrite IH.
Qed.

Lemma hex_DecodeString_Sprintf_x b : Utils.hex_DecodeString (Sprintf_x b) = Some b.
Proof.
  induction b as [|c b IH]; [done|].
  cbn [Sprintf_x]. cbv zeta. cbn [Utils.hex_DecodeString].
  destruct (hex_byte_round_trip c) as (-> & -> & ->). by rewrite IH.
Qed.

Lemma hex_DecodeString_length s :
  (∀ data, Utils.hex_DecodeString s = Some data →
           String.length s = (2 * length data)%nat) ∧
  (∀ c data, Utils.hex_DecodeString (String c s) = Some data →
             String.length (String c s) = (2 * length data)%nat).
Proof.
  induction s as [|q s [IH1 IH2]].
  - split; [by intros data [= <-]|]. intros c data. simpl. done.
  - split; [apply IH2|]. intros c data. cbn [Utils.hex_DecodeString].
    destruct (Utils.fromHexChar c); [|done].
    destruct (Utils.fromHexChar q); [|done].
    destruct (Utils.hex_DecodeString s) as [d|] eqn:Hd; [|done].
    intros [= <-]. cbn [String.length length]. rewrite (IH1 d eq_refl). lia.
Qed.

(** X14.  [MustParseHex] undoes the [%x] formatting the exporter uses for
    its keys: the digits of a byte slice parse back to the slice, with or
    without a [0x] in front; and whatever it accepts has, once every [0x]
    is dropped, exactly two digits per byte returned (an odd number of
    digits is fatal). *)
Theorem MustParseHex_inverts_Sprintf_x :
  (∀ b, Utils.MustParseHex (Sprintf_x b) = Some b) ∧
  (∀ b, Utils.MustParseHex (String "0" (String "x" (Sprintf_x b))) = Some b) ∧
  (∀ s data, Utils.MustParseHex s = Some data →
             String.length (Utils.Replace_0x s) = (2 * length data)%nat).
Proof.
  unfold Utils.MustParseHex. split; [|split].
  - intros b. rewrite Replace_0x_Sprintf_x. apply hex_DecodeString_Sprintf_x.
  - intros b. cbn [Utils.Replace_0x].
    destruct (decide _) as [_|Hn]; [|by destruct Hn].
    rewrite Replace_0x_Sprintf_x. apply hex_DecodeString_Sprintf_x.
  - intros s data. apply hex_DecodeString_length.
Qed.

(** ** Slots, epochs and time *)

Lemma uint64_small z : 0 ≤ z < 2 ^ 64 → uint64 z = z.
Proof. intros Hz. unfold uint64. by apply Z.mod_small. Qed.

Lemma int64_small z : - 2 ^ 63 ≤ z < 2 ^ 63 → int64 z = z.
Proof. intros Hz. unfold int64. rewrite Z.mod_small; lia. Qed.

(** X15.  Slots and timestamps.  With a positive slot duration and as long
    as the times stay within [int64], a slot starts at the genesis time
    plus its number of slot durations, and the slot of that time is the
    slot again.  In general the slot of a timestamp at or after genesis is
    the one whose interval contains it, and every timestamp before genesis
    is in slot 0. *)
Theorem TimeToSlot_inverts_SlotToTime cfg :
  0 < Utils.SecondsPerSlot cfg →
  0 ≤ Utils.GenesisTimestamp cfg →
  let G := Utils.GenesisTimestamp cfg in
  let sps := Utils.SecondsPerSlot cfg in
  (∀ slot, 0 ≤ slot → G + slot * sps < 2 ^ 63 →
     Utils.SlotToTime cfg slot = G + slot * sps ∧
     Utils.TimeToSlot cfg (uint64 (Utils.SlotToTime cfg slot)) = Ok slot) ∧
  (∀ ts, G ≤ ts < 2 ^ 64 →
     ∃ slot, Utils.TimeToSlot cfg ts = Ok slot ∧
             G + slot * sps ≤ ts < G + (slot + 1) * sps) ∧
  (∀ ts, ts < G → Utils.TimeToSlot cfg ts = Ok 0).
Proof.
  intros Hsps HG G sps. split; [|split].
  - intros slot Hslot Hmax.
    assert (0 ≤ slot * sps) by (subst sps; nia).
    assert (Utils.SlotToTime cfg slot = G + slot * sps) as Htime.
    { unfold Utils.SlotToTime, time_Unix. fold G sps.
      rewrite (uint64_small (slot * sps)) by lia.
      rewrite uint64_small by lia. apply int64_small. lia. }
    split; [done|]. rewrite Htime. rewrite uint64_small by lia.
    unfold Utils.TimeToSlot, Utils.udiv. fold G sps.
    destruct (decide (G > G + slot * sps)); [lia|].
    destruct (decide (sps = 0)); [lia|].
    rewrite uint64_small by lia. f_equal.
    replace (G + slot * sps - G) with (slot * sps) by lia.
    apply Z.div_mul. lia.
  - intros ts Hts. unfold Utils.TimeToSlot, Utils.udiv. fold G sps.
    destruct (decide (G > ts)); [lia|].
    destruct (decide (sps = 0)); [lia|].
    rewrite uint64_small by lia. eexists. split; [done|].
    pose proof (Z.div_mod (ts - G) sps ltac:(lia)) as Hdm.
    pose proof (Z.mod_pos_bound (ts - G) sps ltac:(lia)) as Hmod.
    nia.
  - intros ts Hts. unfold Utils.TimeToSlot. fold G.
    destruct (decide (G > ts)); [done|lia].
Qed.

Lemma TimeToSlot_inverts_SlotToTime_witness :
  let cfg := {| Utils.GenesisTimestamp := 1606824023; Utils.SecondsPerSlot := 12;
                Utils.SlotsPerEpoch := 32; Utils.AltairForkEpoch := 74240;
                Utils.EpochsPerSyncCommitteePeriod := 256 |} in
  Utils.SlotToTime cfg 100 = 1606824023 + 100 * 12 ∧
  Utils.TimeToSlot cfg (uint64 (Utils.SlotToTime cfg 100)) = Ok 100.
Proof.
  intros cfg.
  apply (proj1 (TimeToSlot_inverts_SlotToTime cfg ltac:(simpl; lia) ltac:(simpl; lia)) 100);
    simpl; lia.
Defined.

(** X16.  [TimeToEpoch] is [EpochOfSlot] after [TimeToSlot].  With a
    genesis time, a non-zero slot duration and a non-zero epoch length
    that fit [int64], the epoch the signed computation of [TimeToEpoch]
    gives for a time is the epoch of the slot of that time as the unsigned
    helpers compute them; before genesis both are 0. *)
Theorem TimeToEpoch_is_EpochOfSlot_of_TimeToSlot cfg ts :
  0 ≤ Utils.GenesisTimestamp cfg < 2 ^ 63 →
  0 < Utils.SecondsPerSlot cfg < 2 ^ 63 →
  0 < Utils.SlotsPerEpoch cfg < 2 ^ 63 →
  0 ≤ ts < 2 ^ 63 →
  Utils.TimeToEpoch cfg ts =
  match Utils.TimeToSlot cfg ts with
  | Ok slot => Utils.EpochOfSlot cfg slot
  | r => r
  end.
Proof.
  intros HG Hsps Hspe Hts.
  unfold Utils.TimeToEpoch, Utils.TimeToSlot, Utils.EpochOfSlot, Utils.sdiv, Utils.udiv.
  set (G := Utils.GenesisTimestamp cfg) in *.
  set (sps := Utils.SecondsPerSlot cfg) in *.
  set (spe := Utils.SlotsPerEpoch cfg) in *.
  rewrite (int64_small G), (int64_small sps), (int64_small spe) by lia.
  destruct (decide (G > ts)) as [Hlt|Hge].
  - destruct (decide (spe = 0)); [lia|]. by rewrite Z.div_0_l by lia.
  - destruct (decide (sps = 0)); [lia|]. destruct (decide (spe = 0)); [lia|].
    rewrite (int64_small (ts - G)) by lia.
    rewrite (uint64_small (ts - G)) by lia.
    rewrite (Z.quot_div_nonneg (ts - G) sps) by lia.
    assert (0 ≤ (ts - G) / sps ≤ ts - G) as Hq.
    { split; [apply Z.div_pos; lia|]. apply Z.div_le_upper_bound; nia. }
    rewrite (int64_small ((ts - G) / sps)) by lia.
    rewrite Z.quot_div_nonneg by lia.
    assert (0 ≤ (ts - G) / sps / spe ≤ (ts - G) / sps) as Hq2.
    { split; [apply Z.div_pos; lia|]. apply Z.div_le_upper_bound; nia. }
    by rewrite int64_small by lia.
Qed.

Lemma TimeToEpoch_is_EpochOfSlot_of_TimeToSlot_witness :
  let cfg := {| Utils.GenesisTimestamp := 1606824023; Utils.SecondsPerSlot := 12;
                Utils.SlotsPerEpoch := 32; Utils.AltairForkEpoch := 74240;
                Utils.EpochsPerSyncCommitteePeriod := 256 |} in
  Utils.TimeToEpoch cfg 1700000000 =
  match Utils.TimeToSlot cfg 1700000000 with
  | Ok slot => Utils.EpochOfSlot cfg slot
  | r => r
  end.
Proof.
  intros cfg.
  apply (TimeToEpoch_is_EpochOfSlot_of_TimeToSlot cfg 1700000000); simpl; lia.
Defined.

(** X17.  Sync periods.  Before the Altair fork epoch the period is 0 and
    nothing is divided; from the fork epoch on a period length of zero is
    a division by zero; with a positive period length the epoch lies in
    the period computed for it, between its first epoch and the first
    epoch of the next period, and the first epoch of a period is in that
    period (as long as the products fit [uint64]). *)
Theorem SyncPeriodOfEpoch_brackets_the_epoch cfg :
  let A := Utils.AltairForkEpoch cfg in
  let E := Utils.EpochsPerSyncCommitteePeriod cfg in
  (∀ epoch, epoch < A → Utils.SyncPeriodOfEpoch cfg epoch = Ok 0) ∧
  (∀ epoch, A ≤ epoch → E = 0 → Utils.SyncPeriodOfEpoch cfg epoch = Panic) ∧
  (∀ epoch, A ≤ epoch → 0 < E → 0 ≤ epoch < 2 ^ 64 →
     ∃ p, Utils.SyncPeriodOfEpoch cfg epoch = Ok p ∧
          Utils.FirstEpochOfSyncPeriod cfg p ≤ epoch ∧
          epoch < p * E + E) ∧
  (∀ p, 0 < E → 0 ≤ p → p * E < 2 ^ 64 → A ≤ p * E →
     Utils.SyncPeriodOfEpoch cfg (Utils.FirstEpochOfSyncPeriod cfg p) = Ok p).
Proof.
  intros A E. unfold Utils.SyncPeriodOfEpoch, Utils.FirstEpochOfSyncPeriod, Utils.udiv.
  fold A E. split; [|split; [|split]].
  - intros epoch Hlt. destruct (decide (epoch < A)); [done|lia].
  - intros epoch Hge HE. destruct (decide (epoch < A)); [lia|].
    destruct (decide (E = 0)); [done|lia].
  - intros epoch Hge HE Hepoch. destruct (decide (epoch < A)); [lia|].
    destruct (decide (E = 0)); [lia|]. eexists. split; [done|].
    pose proof (Z.div_mod epoch E ltac:(lia)) as Hdm.
    pose proof (Z.mod_pos_bound epoch E ltac:(lia)) as Hmod.
    assert (0 ≤ epoch / E) by (apply Z.div_pos; lia).
    rewrite uint64_small by nia. nia.
  - intros p HE Hp Hfit HA. rewrite uint64_small by nia.
    destruct (decide (p * E < A)); [lia|].
    destruct (decide (E = 0)); [lia|]. f_equal. apply Z.div_mul. lia.
Qed.

Lemma SyncPeriodOfEpoch_brackets_the_epoch_witness :
  let cfg := {| Utils.GenesisTimestamp := 1606824023; Utils.SecondsPerSlot := 12;
                Utils.SlotsPerEpoch := 32; Utils.AltairForkEpoch := 74240;
                Utils.EpochsPerSyncCommitteePeriod := 256 |} in
  Utils.SyncPeriodOfEpoch cfg (Utils.FirstEpochOfSyncPeriod cfg 300) = Ok 300.
Proof.
  intros cfg.
  apply (proj2 (proj2 (proj2 (SyncPeriodOfEpoch_brackets_the_epoch cfg))) 300);
    simpl; lia.
Defined.

(** X18.  Days and weeks of a slot.  The week of a slot is its day divided
    by seven, whatever the configuration (both are taken from the same,
    possibly wrapped, number of seconds); and when the seconds since
    genesis do not wrap, the day is the number of whole days between
    genesis and the start of the slot. *)
Theorem WeekOfSlot_is_DayOfSlot_div_7 cfg slot :
  Utils.WeekOfSlot cfg slot = Utils.DayOfSlot cfg slot / 7 ∧
  (0 ≤ Utils.SecondsPerSlot cfg → 0 ≤ slot → 0 ≤ Utils.GenesisTimestamp cfg →
   Utils.GenesisTimestamp cfg + slot * Utils.SecondsPerSlot cfg < 2 ^ 63 →
   Utils.DayOfSlot cfg slot =
   (Utils.SlotToTime cfg slot - Utils.GenesisTimestamp cfg) / 86400).
Proof.
  unfold Utils.WeekOfSlot, Utils.DayOfSlot, Utils.SlotToTime, time_Unix. split.
  - rewrite Z.div_div by lia. done.
  - intros Hsps Hslot HG Hfit.
    assert (0 ≤ slot * Utils.SecondsPerSlot cfg) by nia.
    rewrite (uint64_small (slot * _)) by lia.
    rewrite (uint64_small (_ + _)) by lia.
    rewrite int64_small by lia.
    rewrite (Z.mul_comm (Utils.SecondsPerSlot cfg)), uint64_small by lia.
    f_equal. lia.
Qed.

Lemma WeekOfSlot_is_DayOfSlot_div_7_witness :
  let cfg := {| Utils.GenesisTimestamp := 1606824023; Utils.SecondsPerSlot := 12;
                Utils.SlotsPerEpoch := 32; Utils.AltairForkEpoch := 74240;
                Utils.EpochsPerSyncCommitteePeriod := 256 |} in
  Utils.DayOfSlot cfg 7200 =
  (Utils.SlotToTime cfg 7200 - Utils.GenesisTimestamp cfg) / 86400.
Proof.
  intros cfg.
  apply (proj2 (WeekOfSlot_is_DayOfSlot_div_7 cfg 7200)); simpl; lia.
Defined.

(** ** Bit vectors *)

Lemma land_pow2 a k :
  0 ≤ k → Z.land a (2 ^ k) = if Z.testbit a k then 2 ^ k else 0.
Proof.
  intros Hk. apply Z.bits_inj'. intros n Hn.
  rewrite Z.land_spec, Z.pow2_bits_eqb by done.
  destruct (Z.eqb_spec k n) as [->|Hne].
  - rewrite andb_true_r. destruct (Z.testbit a n); [|by rewrite Z.bits_0].
    rewrite Z.pow2_bits_eqb by done. by rewrite Z.eqb_refl.
  - rewrite andb_false_r. destruct (Z.testbit a k); [|by rewrite Z.bits_0].
    rewrite Z.pow2_bits_eqb by done. symmetry. by apply Z.eqb_neq.
Qed.

Lemma shl_uint8_1 k : 0 ≤ k < 8 → Utils.shl_uint8 1 k = 2 ^ k.
Proof.
  intros Hk. unfold Utils.shl_uint8, Utils.uint8.
  destruct (decide (k < 8)); [|lia].
  rewrite Z.shiftl_1_l. apply Z.mod_small. split; [lia|].
  apply Z.pow_lt_mono_r; lia.
Qed.

Lemma bit_test bb k :
  0 ≤ k < 8 → (0 <? Z.land bb (Utils.shl_uint8 1 k)) = Z.testbit bb k.
Proof.
  intros Hk. rewrite shl_uint8_1, land_pow2 by lia.
  destruct (Z.testbit bb k); [|done]. apply Z.ltb_lt. lia.
Qed.

Lemma byte_at_Ok b i :
  0 ≤ i < Z.of_nat (length b) →
  ∃ c, b !! Z.to_nat i = Some c ∧ Utils.byte_at b i = Ok (Z.of_N (Byte.to_N c)).
Proof.
  intros Hi. unfold Utils.byte_at. destruct (decide (0 ≤ i)); [|lia].
  destruct (lookup_lt_is_Some_2 b (Z.to_nat i)) as [c Hc]; [lia|].
  exists c. by rewrite Hc.
Qed.

Lemma byte_at_Panic b i :
  i < 0 ∨ Z.of_nat (length b) ≤ i → Utils.byte_at b i = Panic.
Proof.
  intros Hi. unfold Utils.byte_at. destruct (decide (0 ≤ i)); [|done].
  rewrite lookup_ge_None_2; [done|lia].
Qed.

(** X19.  Bit vectors.  For an index within the vector, [BitAtVector]
    is bit [i mod 8] of byte [i / 8], counted from the least significant
    bit, and [BitAtVectorReversed] is bit [7 - i mod 8] of the same byte,
    that is, the [BitAtVector] of the mirrored position in the byte.  An
    index of [8 * len(b)] or more, or of [-8] or less, indexes out of
    range and panics; an index from [-7] to [-1] on a non-empty vector
    does not: it reads byte 0 with a shift count that wraps, and both
    functions answer false. *)
Theorem BitAtVector_reads_bit_i b i :
  (0 ≤ i < 8 * Z.of_nat (length b) →
   ∃ c, b !! Z.to_nat (i / 8) = Some c ∧
        Utils.BitAtVector b i = Ok (Z.testbit (Z.of_N (Byte.to_N c)) (i mod 8)) ∧
        Utils.BitAtVectorReversed b i =
          Ok (Z.testbit (Z.of_N (Byte.to_N c)) (7 - i mod 8)) ∧
        Utils.BitAtVectorReversed b i =
          Utils.BitAtVector b (8 * (i / 8) + (7 - i mod 8))) ∧
  (i ≤ -8 ∨ 8 * Z.of_nat (length b) ≤ i →
   Utils.BitAtVector b i = Panic ∧ Utils.BitAtVectorReversed b i = Panic) ∧
  (-8 < i < 0 → b ≠ [] →
   Utils.BitAtVector b i = Ok false ∧ Utils.BitAtVectorReversed b i = Ok false).
Proof.
  split; [|split].
  - intros Hi.
    assert (Z.quot i 8 = i / 8 ∧ Z.rem i 8 = i mod 8) as [Hq Hr].
    { split; [apply Z.quot_div_nonneg|apply Z.rem_mod_nonneg]; lia. }
    pose proof (Z.mod_pos_bound i 8 ltac:(lia)) as Hmod.
    pose proof (Z.div_mod i 8 ltac:(lia)) as Hdm.
    destruct (byte_at_Ok b (i / 8)) as (c & Hc & Hat); [lia|].
    exists c. split; [done|].
    assert (Utils.BitAtVector b i = Ok (Z.testbit (Z.of_N (Byte.to_N c)) (i mod 8)))
      as HB.
    { unfold Utils.BitAtVector. rewrite Hq, Hr, Hat.
      rewrite uint64_small by lia. by rewrite bit_test by lia. }
    assert (Utils.BitAtVectorReversed b i =
            Ok (Z.testbit (Z.of_N (Byte.to_N c)) (7 - i mod 8))) as HR.
    { unfold Utils.BitAtVectorReversed. rewrite Hq, Hr, Hat.
      rewrite uint64_small by lia. by rewrite bit_test by lia. }
    split; [done|]. split; [done|]. rewrite HR.
    set (j := 8 * (i / 8) + (7 - i mod 8)).
    assert (j / 8 = i / 8 ∧ j mod 8 = 7 - i mod 8) as [Hjq Hjr].
    { subst j. rewrite Z.add_comm, Z.mul_comm. rewrite Z.div_add, Z_mod_plus_full by lia.
      rewrite Z.div_small, Z.mod_small by lia. lia. }
    unfold Utils.BitAtVector.
    rewrite Z.quot_div_nonneg, Z.rem_mod_nonneg by lia.
    rewrite Hjq, Hjr, Hat. rewrite uint64_small by lia. by rewrite bit_test by lia.
  - intros Hi. unfold Utils.BitAtVector, Utils.BitAtVectorReversed.
    rewrite byte_at_Panic; [done|].
    destruct Hi as [Hi|Hi].
    + left. pose proof (Z.quot_rem i 8 ltac:(lia)) as Hqr.
      pose proof (Z.rem_bound_pos_neg i 8 ltac:(lia) ltac:(lia)). lia.
    + right. rewrite Z.quot_div_nonneg by lia.
      apply Z.div_le_lower_bound; lia.
  - intros Hi Hb.
    assert (Z.quot i 8 = 0) as Hq by (apply Z.quot_small_iff; lia).
    assert (Z.rem i 8 = i) as Hr by (apply Z.rem_small_iff; lia).
    destruct (byte_at_Ok b 0) as (c & _ & Hat).
    { destruct b; [done|]. simpl. lia. }
    unfold Utils.BitAtVector, Utils.BitAtVectorReversed. rewrite Hq, Hr, Hat.
    assert (uint64 i = 2 ^ 64 + i) as ->.
    { unfold uint64. rewrite <- (Z_mod_plus_full i 1 (2 ^ 64)).
      rewrite Z.mod_small; lia. }
    rewrite (uint64_small (7 - i)) by lia.
    unfold Utils.shl_uint8.
    destruct (decide (2 ^ 64 + i < 8)); [lia|].
    destruct (decide (7 - i < 8)); [lia|].
    by rewrite Z.land_0_r.
Qed.

Lemma BitAtVector_reads_bit_i_witness :
  ∃ c, [x05; x80] !! Z.to_nat (8 / 8) = Some c ∧
       Utils.BitAtVector [x05; x80] 8 = Ok (Z.testbit (Z.of_N (Byte.to_N c)) (8 mod 8)) ∧
       Utils.BitAtVectorReversed [x05; x80] 8 =
         Ok (Z.testbit (Z.of_N (Byte.to_N c)) (7 - 8 mod 8)) ∧
       Utils.BitAtVectorReversed [x05; x80] 8 =
         Utils.BitAtVector [x05; x80] (8 * (8 / 8) + (7 - 8 mod 8)).
Proof.
  apply (proj1 (BitAtVector_reads_bit_i [x05; x80] 8)). simpl. lia.
Defined.

(** C2, as stated, fails when the second batch of 1001 minipools fails: the
    first batch of a thousand rows was executed in the same transaction,
    which is rolled back, so none of its rows are in the table afterwards;
    one transaction was begun for the two batches. *)
Lemma failing_batch_discards_the_earlier_ones :
  let env := Stub.env [] [] 0 (Stub.at_time 0) (Stub.staked 0)
               (Stub.fault_at 2) [] in
  let w := Stub.world (Stub.many_minipools 1001) empty_Store empty_Store
             Stub.empty_db in
  let out := SaveMinipools env w in
  size (MinipoolsByAddress w) = 1001%nat ∧
  out.2 = Err "pq: connection lost" ∧
  calls (db out.1) =
    [CallBeginx; CallExec "rocketpool_minipools" 1000;
     CallExec "rocketpool_minipools" 1; CallRollback] ∧
  tables (db out.1) !! "rocketpool_minipools"%string = Some [] ∧
  ¬ (length <$> tables (db out.1) !! "rocketpool_minipools"%string = Some 1000%nat).
Proof.
  vm_compute. repeat split; try reflexivity. discriminate.
Qed.
